(** * SetupHalo: construction of the halo-exchange plan (src/SetupHalo.cpp)

    A shallow embedding of [SetupHalo] and proofs about the plan it builds.

    What is modelled: the MPI build of the function (HPCG_NOMPI undefined),
    with the [DEBUG] macro as a boolean argument, and, apart from it, the
    build without MPI ([SetupHalo_NOMPI]).  The text written to
    [HPCG_fout] and the [DETAILEDDEBUG] code are left out.  The loop of
    line 141, a [#pragma omp parallel for], is run sequentially, in index
    order.

    Integers: [int], [char], [local_int_t] and [global_int_t] values are
    carried by [Z].  The typedefs of [local_int_t] and [global_int_t] are
    not among the sources at hand; the conversion of a [global_int_t] to a
    [local_int_t], which the function makes for the key of
    [externalToLocalMap] (lines 129 and 149) and, without MPI, for the copy
    of line 60, goes through the parameter [to_local_int].  Additions and
    [size()] results are not reduced: the development covers runs in which
    they stay in the range of their type (a signed overflow is undefined in
    C++).

    Memory: an array is a list; an access outside it is undefined behaviour
    and gives [Undefined].  A cell of an array obtained from [new T[n]] is
    [None] until it is written. *)

From Stdlib Require Import ZArith List Bool Lia Sorted FinFun.
From Stdlib Require Floats.SpecFloat.
Import ListNotations.
Local Open Scope Z_scope.

(** ** Outcomes of a run *)

Inductive outcome (T : Type) : Type :=
| Done (x : T)   (* the code ran to its end *)
| Aborted        (* an [assert] failed *)
| Undefined.     (* an array was accessed outside its extent *)

Arguments Done {T} x.
Arguments Aborted {T}.
Arguments Undefined {T}.

Definition bind {T U : Type} (c : outcome T) (k : T -> outcome U) : outcome U :=
  match c with
  | Done x => k x
  | Aborted => Aborted
  | Undefined => Undefined
  end.

Notation "x <- c ;; k" := (bind c (fun x => k))
  (at level 61, c at next level, right associativity).
Notation "' pat <- c ;; k" := (bind c (fun x => match x with pat => k end))
  (at level 61, pat pattern, c at next level, right associativity).

Definition assert (b : bool) : outcome unit := if b then Done tt else Aborted.

(** [for (x = 0; x < n; x++) body]: [Z.to_nat n] rounds, none when [n <= 0]. *)
Fixpoint for_loop {S : Type} (count : nat) (i : Z) (body : Z -> S -> outcome S)
  (s : S) : outcome S :=
  match count with
  | O => Done s
  | Datatypes.S count' => s' <- body i s ;; for_loop count' (i + 1) body s'
  end.

Definition for_upto {S : Type} (n : Z) (body : Z -> S -> outcome S) (s : S) : outcome S :=
  for_loop (Z.to_nat n) 0 body s.

(** A loop over the elements of a container, from [begin()] to [end()]. *)
Fixpoint for_each {T S : Type} (xs : list T) (body : T -> S -> outcome S)
  (s : S) : outcome S :=
  match xs with
  | [] => Done s
  | x :: xs' => s' <- body x s ;; for_each xs' body s'
  end.

(** ** Arrays *)

Definition load {T : Type} (a : list T) (i : Z) : outcome T :=
  if i <? 0 then Undefined
  else match nth_error a (Z.to_nat i) with
       | Some x => Done x
       | None => Undefined
       end.

Fixpoint list_set {T : Type} (a : list T) (k : nat) (x : T) : list T :=
  match a, k with
  | [], _ => []
  | _ :: a', O => x :: a'
  | y :: a', Datatypes.S k' => y :: list_set a' k' x
  end.

Definition store {T : Type} (a : list T) (i : Z) (x : T) : outcome (list T) :=
  if (0 <=? i) && (i <? Z.of_nat (length a))
  then Done (list_set a (Z.to_nat i) x)
  else Undefined.

(** [new T[n]]: [n] cells, none of them written. *)
Definition new_array (T : Type) (n : Z) : list (option T) :=
  repeat None (Z.to_nat n).

(** ** [std::set<global_int_t>]: the elements in ascending order *)

Module OrdSet.

Definition t : Type := list Z.

Definition empty : t := [].

Fixpoint insert (x : Z) (s : t) : t :=
  match s with
  | [] => [x]
  | y :: s' =>
      if x <? y then x :: s
      else if x =? y then s
      else y :: insert x s'
  end.

Definition size (s : t) : Z := Z.of_nat (length s).

Definition ascending (s : t) : Prop := StronglySorted Z.lt s.

End OrdSet.

(** ** [std::map<K, V>] with integer keys: the entries in ascending key order *)

Module OrdMap.

Definition t (V : Type) : Type := list (Z * V).

Definition empty {V : Type} : t V := [].

Fixpoint find {V : Type} (k : Z) (m : t V) : option V :=
  match m with
  | [] => None
  | (k', v) :: m' => if k =? k' then Some v else find k m'
  end.

(** The entry of [k] is set to [v]; it is created in key order when the
    map has none. *)
Fixpoint put {V : Type} (k : Z) (v : V) (m : t V) : t V :=
  match m with
  | [] => [(k, v)]
  | (k', v') :: m' =>
      if k <? k' then (k, v) :: m
      else if k =? k' then (k, v) :: m'
      else (k', v') :: put k v m'
  end.

(** [m[k]]: the value of [k], with the map in which [k] has an entry; an
    absent key gets the value-initialised [d]. *)
Definition subscript {V : Type} (d : V) (k : Z) (m : t V) : V * t V :=
  match find k m with
  | Some v => (v, m)
  | None => (d, put k d m)
  end.

Definition size {V : Type} (m : t V) : Z := Z.of_nat (length m).

Definition keys {V : Type} (m : t V) : list Z := map fst m.

Definition ascending {V : Type} (m : t V) : Prop := StronglySorted Z.lt (keys m).

(** What [m[k]] evaluates to. *)
Definition get {V : Type} (d : V) (k : Z) (m : t V) : V :=
  match find k m with
  | Some v => v
  | None => d
  end.

End OrdMap.

(** ** The data of the benchmark *)

Abbreviation local_int_t := Z (only parsing).
Abbreviation global_int_t := Z (only parsing).
Definition double : Type := SpecFloat.spec_float.

(** Modelled from the spec: the declaration of [Geometry] is missing from
    the sources at hand.  The spec gives a geometry a process rank and a
    process count; [SetupHalo] reads [geom.rank] (and prints [geom.size]). *)
Record Geometry : Type := {
  rank : Z;
  size : Z
}.

(** Modelled from the spec: the declaration of [SparseMatrix] is missing
    from the sources at hand.  The fields are the ones [SetupHalo] reads
    and writes; a pointer to an array is the array.  [globalToLocalMap] is
    the spec's ownership map from an owned global row id to its local
    index, a [std::map] that the function reads with [operator[]];
    [localToGlobalMap] is its inverse, an array indexed by local row. *)
Record SparseMatrix : Type := {
  localNumberOfRows : local_int_t;
  localNumberOfColumns : local_int_t;
  nonzerosInRow : list Z;
  mtxIndG : list (list global_int_t);
  mtxIndL : list (list local_int_t);
  globalToLocalMap : OrdMap.t local_int_t;
  localToGlobalMap : list global_int_t;
  numberOfExternalValues : local_int_t;
  numberOfSendNeighbors : Z;
  totalToBeSent : local_int_t;
  elementsToSend : list (option local_int_t);
  neighbors : list (option Z);
  receiveLength : list (option local_int_t);
  sendLength : list (option local_int_t);
  sendBuffer : list (option double)
}.

(** [std::map< int, std::set< global_int_t> >] *)
Definition neighbor_sets : Type := OrdMap.t OrdSet.t.

(** [m[r].insert(x)] *)
Definition insert_at (r : Z) (x : global_int_t) (m : neighbor_sets) : neighbor_sets :=
  let '(s, m') := OrdMap.subscript OrdSet.empty r m in
  OrdMap.put r (OrdSet.insert x s) m'.

(** The loops that count the entries to send and to receive. *)
Definition count_entries (m : neighbor_sets) : local_int_t :=
  fold_left (fun total curNeighbor => total + OrdSet.size (snd curNeighbor)) m 0.

(** The assertions of the [DEBUG] build. *)
Definition debug_assertions (sendList receiveList : neighbor_sets)
  (totalToBeSent totalToBeReceived : local_int_t) : bool :=
  (totalToBeSent =? totalToBeReceived)
  && (OrdMap.size sendList =? OrdMap.size receiveList)
  && forallb (fun curNeighbor =>
                match OrdMap.find (fst curNeighbor) sendList with
                | None => false
                | Some s =>
                    OrdSet.size s
                    =? OrdSet.size (OrdMap.get OrdSet.empty (fst curNeighbor) receiveList)
                end) receiveList.

(** The variables of the loop that fills the arrays of the plan. *)
Record assembly : Type := {
  as_sendList : neighbor_sets;
  as_receiveList : neighbor_sets;
  as_externalToLocalMap : OrdMap.t local_int_t;
  as_globalToLocalMap : OrdMap.t local_int_t;
  as_elementsToSend : list (option local_int_t);
  as_neighbors : list (option Z);
  as_receiveLength : list (option local_int_t);
  as_sendLength : list (option local_int_t);
  as_neighborCount : Z;
  as_receiveEntryCount : local_int_t;
  as_sendEntryCount : local_int_t
}.

(** The variables of the loop that rewrites the column indices. *)
Record rewriting : Type := {
  rw_mtxIndL : list (list local_int_t);
  rw_globalToLocalMap : OrdMap.t local_int_t;
  rw_externalToLocalMap : OrdMap.t local_int_t
}.

Section SetupHalo.

(** The conversion of a [global_int_t] to the key type of
    [externalToLocalMap], a [std::map< local_int_t, local_int_t >]. *)
Variable to_local_int : global_int_t -> local_int_t.

(** Modelled from the spec: [getRankOfMatrixRow] is missing from the
    sources at hand.  It is the spec's ownership resolver, a pure function
    that gives the rank owning a global row id; it is applied to the matrix
    as [SetupHalo] received it. *)
Variable getRankOfMatrixRow : Geometry -> SparseMatrix -> global_int_t -> Z.

(** *** Lines 76-90: the scan of the global column ids *)

(** The body of the inner loop, lines 79-88. *)
Definition scan_entry (geom : Geometry) (A : SparseMatrix)
  (currentGlobalRow curIndex : global_int_t)
  (lists : neighbor_sets * neighbor_sets) : neighbor_sets * neighbor_sets :=
  let '(sendList, receiveList) := lists in
  let rankIdOfColumnEntry := getRankOfMatrixRow geom A curIndex in
  if negb (rank geom =? rankIdOfColumnEntry) then
    let receiveList := insert_at rankIdOfColumnEntry curIndex receiveList in
    let sendList := insert_at rankIdOfColumnEntry currentGlobalRow sendList in
    (sendList, receiveList)
  else (sendList, receiveList).

(** The body of the outer loop, lines 77-89.  [nonzerosInRow[i]] is read
    by the loop test; no iteration writes it. *)
Definition scan_row (geom : Geometry) (A : SparseMatrix) (i : Z)
  (lists : neighbor_sets * neighbor_sets) : outcome (neighbor_sets * neighbor_sets) :=
  currentGlobalRow <- load (localToGlobalMap A) i ;;
  cur_nnz <- load (nonzerosInRow A) i ;;
  for_upto cur_nnz
    (fun j lists =>
       row <- load (mtxIndG A) i ;;
       curIndex <- load row j ;;
       Done (scan_entry geom A currentGlobalRow curIndex lists))
    lists.

(** The pair [(sendList, receiveList)] after line 90. *)
Definition dependency_scan (geom : Geometry) (A : SparseMatrix)
  : outcome (neighbor_sets * neighbor_sets) :=
  for_upto (localNumberOfRows A) (scan_row geom A) (OrdMap.empty, OrdMap.empty).

(** *** Lines 114-135: the arrays of the plan *)

(** Lines 128-130, one round. *)
Definition assign_external (localNumberOfRows : local_int_t) (g : global_int_t)
  (st : OrdMap.t local_int_t * local_int_t) : OrdMap.t local_int_t * local_int_t :=
  let '(externalToLocalMap, receiveEntryCount) := st in
  let '(_, externalToLocalMap) :=
    OrdMap.subscript 0 (to_local_int g) externalToLocalMap in
  (OrdMap.put (to_local_int g) (localNumberOfRows + receiveEntryCount) externalToLocalMap,
   receiveEntryCount + 1).

(** Lines 131-134, one round. *)
Definition record_send (g : global_int_t)
  (st : list (option local_int_t) * OrdMap.t local_int_t * local_int_t)
  : outcome (list (option local_int_t) * OrdMap.t local_int_t * local_int_t) :=
  let '(elementsToSend, globalToLocalMap, sendEntryCount) := st in
  let '(l, globalToLocalMap) := OrdMap.subscript 0 g globalToLocalMap in
  elementsToSend <- store elementsToSend sendEntryCount (Some l) ;;
  Done (elementsToSend, globalToLocalMap, sendEntryCount + 1).

(** Lines 124-134 and the [++neighborCount] of line 123. *)
Definition assemble_neighbor (localNumberOfRows : local_int_t)
  (curNeighbor : Z * OrdSet.t) (st : assembly) : outcome assembly :=
  let neighborId := fst curNeighbor in
  neighbors <- store (as_neighbors st) (as_neighborCount st) (Some neighborId) ;;
  let '(receiveSet, receiveList) :=
    OrdMap.subscript OrdSet.empty neighborId (as_receiveList st) in
  receiveLength <- store (as_receiveLength st) (as_neighborCount st)
                     (Some (OrdSet.size receiveSet)) ;;
  let '(sendSet, sendList) :=
    OrdMap.subscript OrdSet.empty neighborId (as_sendList st) in
  sendLength <- store (as_sendLength st) (as_neighborCount st)
                  (Some (OrdSet.size sendSet)) ;;
  let '(externalToLocalMap, receiveEntryCount) :=
    fold_left (fun st g => assign_external localNumberOfRows g st) receiveSet
      (as_externalToLocalMap st, as_receiveEntryCount st) in
  '(elementsToSend, globalToLocalMap, sendEntryCount) <-
    for_each sendSet record_send
      (as_elementsToSend st, as_globalToLocalMap st, as_sendEntryCount st) ;;
  Done {| as_sendList := sendList;
          as_receiveList := receiveList;
          as_externalToLocalMap := externalToLocalMap;
          as_globalToLocalMap := globalToLocalMap;
          as_elementsToSend := elementsToSend;
          as_neighbors := neighbors;
          as_receiveLength := receiveLength;
          as_sendLength := sendLength;
          as_neighborCount := as_neighborCount st + 1;
          as_receiveEntryCount := receiveEntryCount;
          as_sendEntryCount := sendEntryCount |}.

(** Lines 115-135.  The loop walks the entries that [receiveList] has when
    it starts. *)
Definition assemble (A : SparseMatrix) (sendList receiveList : neighbor_sets)
  (totalToBeSent : local_int_t) : outcome assembly :=
  for_each receiveList (assemble_neighbor (localNumberOfRows A))
    {| as_sendList := sendList;
       as_receiveList := receiveList;
       as_externalToLocalMap := OrdMap.empty;
       as_globalToLocalMap := globalToLocalMap A;
       as_elementsToSend := new_array local_int_t totalToBeSent;
       as_neighbors := new_array Z (OrdMap.size sendList);
       as_receiveLength := new_array local_int_t (OrdMap.size receiveList);
       as_sendLength := new_array local_int_t (OrdMap.size sendList);
       as_neighborCount := 0;
       as_receiveEntryCount := 0;
       as_sendEntryCount := 0 |}.

(** *** Lines 141-152: the column indices become local *)

(** [mtxIndL[i][j] = v] *)
Definition store2 (a : list (list local_int_t)) (i j : Z) (v : local_int_t)
  : outcome (list (list local_int_t)) :=
  row <- load a i ;;
  row <- store row j v ;;
  store a i row.

(** Lines 143-150. *)
Definition rewrite_entry (geom : Geometry) (A : SparseMatrix) (i j : Z)
  (st : rewriting) : outcome rewriting :=
  row <- load (mtxIndG A) i ;;
  curIndex <- load row j ;;
  let rankIdOfColumnEntry := getRankOfMatrixRow geom A curIndex in
  if rank geom =? rankIdOfColumnEntry then
    let '(l, globalToLocalMap) :=
      OrdMap.subscript 0 curIndex (rw_globalToLocalMap st) in
    mtxIndL <- store2 (rw_mtxIndL st) i j l ;;
    Done {| rw_mtxIndL := mtxIndL;
            rw_globalToLocalMap := globalToLocalMap;
            rw_externalToLocalMap := rw_externalToLocalMap st |}
  else
    let '(l, externalToLocalMap) :=
      OrdMap.subscript 0 (to_local_int curIndex) (rw_externalToLocalMap st) in
    mtxIndL <- store2 (rw_mtxIndL st) i j l ;;
    Done {| rw_mtxIndL := mtxIndL;
            rw_globalToLocalMap := rw_globalToLocalMap st;
            rw_externalToLocalMap := externalToLocalMap |}.

Definition rewrite_row (geom : Geometry) (A : SparseMatrix) (i : Z)
  (st : rewriting) : outcome rewriting :=
  cur_nnz <- load (nonzerosInRow A) i ;;
  for_upto cur_nnz (rewrite_entry geom A i) st.

Definition rewrite_indices (geom : Geometry) (A : SparseMatrix)
  (st : rewriting) : outcome rewriting :=
  for_upto (localNumberOfRows A) (rewrite_row geom A) st.

(** *** The function *)

(** The matrix as [SetupHalo] leaves it, with the function's local
    [externalToLocalMap]. *)
Definition SetupHalo_locals (DEBUG : bool) (geom : Geometry) (A : SparseMatrix)
  : outcome (SparseMatrix * OrdMap.t local_int_t) :=
  '(sendList, receiveList) <- dependency_scan geom A ;;
  let totalToBeSent := count_entries sendList in
  let totalToBeReceived := count_entries receiveList in
  _ <- (if DEBUG
        then assert (debug_assertions sendList receiveList
                       totalToBeSent totalToBeReceived)
        else Done tt) ;;
  let sendBuffer := new_array double totalToBeSent in
  asm <- assemble A sendList receiveList totalToBeSent ;;
  rw <- rewrite_indices geom A
          {| rw_mtxIndL := mtxIndL A;
             rw_globalToLocalMap := as_globalToLocalMap asm;
             rw_externalToLocalMap := as_externalToLocalMap asm |} ;;
  let numberOfExternalValues := OrdMap.size (rw_externalToLocalMap rw) in
  Done ({| localNumberOfRows := localNumberOfRows A;
           localNumberOfColumns := localNumberOfRows A + numberOfExternalValues;
           nonzerosInRow := nonzerosInRow A;
           mtxIndG := mtxIndG A;
           mtxIndL := rw_mtxIndL rw;
           globalToLocalMap := rw_globalToLocalMap rw;
           localToGlobalMap := localToGlobalMap A;
           numberOfExternalValues := numberOfExternalValues;
           numberOfSendNeighbors := OrdMap.size (as_sendList asm);
           totalToBeSent := totalToBeSent;
           elementsToSend := as_elementsToSend asm;
           neighbors := as_neighbors asm;
           receiveLength := as_receiveLength asm;
           sendLength := as_sendLength asm;
           sendBuffer := sendBuffer |},
        rw_externalToLocalMap rw).

Definition SetupHalo (DEBUG : bool) (geom : Geometry) (A : SparseMatrix)
  : outcome SparseMatrix :=
  r <- SetupHalo_locals DEBUG geom A ;; Done (fst r).

End SetupHalo.

(** *** Lines 54-61: the build without MPI *)

(** [mtxIndL[i][j] = mtxIndG[i][j]]: the global index is converted to a
    [local_int_t]. *)
Definition copy_entry (to_local_int : global_int_t -> local_int_t) (A : SparseMatrix)
  (i j : Z) (mtxIndL : list (list local_int_t)) : outcome (list (list local_int_t)) :=
  row <- load (mtxIndG A) i ;;
  curIndex <- load row j ;;
  store2 mtxIndL i j (to_local_int curIndex).

(** Lines 59-60. *)
Definition copy_row (to_local_int : global_int_t -> local_int_t) (A : SparseMatrix)
  (i : Z) (mtxIndL : list (list local_int_t)) : outcome (list (list local_int_t)) :=
  cur_nnz <- load (nonzerosInRow A) i ;;
  for_upto cur_nnz (copy_entry to_local_int A i) mtxIndL.

(** [SetupHalo] when [HPCG_NOMPI] is defined: the loop of line 58, run
    sequentially, and nothing else. *)
Definition SetupHalo_NOMPI (to_local_int : global_int_t -> local_int_t)
  (A : SparseMatrix) : outcome SparseMatrix :=
  mtxIndL <- for_upto (localNumberOfRows A) (copy_row to_local_int A) (mtxIndL A) ;;
  Done {| localNumberOfRows := localNumberOfRows A;
          localNumberOfColumns := localNumberOfColumns A;
          nonzerosInRow := nonzerosInRow A;
          mtxIndG := mtxIndG A;
          mtxIndL := mtxIndL;
          globalToLocalMap := globalToLocalMap A;
          localToGlobalMap := localToGlobalMap A;
          numberOfExternalValues := numberOfExternalValues A;
          numberOfSendNeighbors := numberOfSendNeighbors A;
          totalToBeSent := totalToBeSent A;
          elementsToSend := elementsToSend A;
          neighbors := neighbors A;
          receiveLength := receiveLength A;
          sendLength := sendLength A;
          sendBuffer := sendBuffer A |}.

(** ** Vocabulary of the statements *)

(** Row [i] of the local matrix has global id [currentGlobalRow], and its
    [j]-th column reference is the global column id [curIndex]: what the
    loops of lines 76-90 and 141-152 read at [(i, j)]. *)
Definition reference (A : SparseMatrix) (i j : Z)
  (currentGlobalRow curIndex : global_int_t) : Prop :=
  0 <= i < localNumberOfRows A /\
  load (localToGlobalMap A) i = Done currentGlobalRow /\
  exists cur_nnz row,
    load (nonzerosInRow A) i = Done cur_nnz /\ 0 <= j < cur_nnz /\
    load (mtxIndG A) i = Done row /\ load row j = Done curIndex.

(** The arrays of the matrix cover the rows and the nonzeros that
    [localNumberOfRows] and [nonzerosInRow] announce. *)
Definition row_ok (A : SparseMatrix) (i : nat) : bool :=
  match nth_error (localToGlobalMap A) i, nth_error (nonzerosInRow A) i,
        nth_error (mtxIndG A) i, nth_error (mtxIndL A) i with
  | Some _, Some cur_nnz, Some rowG, Some rowL =>
      (cur_nnz <=? Z.of_nat (length rowG)) && (cur_nnz <=? Z.of_nat (length rowL))
  | _, _, _, _ => false
  end.

Definition well_formed (A : SparseMatrix) : bool :=
  forallb (row_ok A) (seq 0 (Z.to_nat (localNumberOfRows A))).

(** The column references of row [i], and the local rows with their global
    ids, as lists. *)
Definition row_columns (A : SparseMatrix) (i : nat) : list global_int_t :=
  firstn (Z.to_nat (nth i (nonzerosInRow A) 0)) (nth i (mtxIndG A) []).

Definition local_rows (A : SparseMatrix) : list (global_int_t * list global_int_t) :=
  map (fun i => (nth i (localToGlobalMap A) 0, row_columns A i))
    (seq 0 (Z.to_nat (localNumberOfRows A))).

(** Some row with global id [currentGlobalRow] refers to the column
    [curIndex]. *)
Definition referenced (A : SparseMatrix) (currentGlobalRow curIndex : global_int_t) : Prop :=
  exists i j, reference A i j currentGlobalRow curIndex.

(** The references that the loops meet before they reach [(i, j)]. *)
Definition seen_before (A : SparseMatrix) (i j : Z)
  (currentGlobalRow curIndex : global_int_t) : Prop :=
  exists i' j', reference A i' j' currentGlobalRow curIndex /\
                (i' < i \/ (i' = i /\ j' < j)).

(** The state of [(sendList, receiveList)] once the scan has gone through
    the references [seen], on the process [me] and with the ownership
    [owner]: the two maps have the same ranks, in ascending order; no set
    is empty; the receive set of a rank holds the remote column ids that it
    owns, and its send set the global ids of the rows that refer to one. *)
Definition scanned (me : Z) (owner : global_int_t -> Z)
  (seen : global_int_t -> global_int_t -> Prop)
  (lists : neighbor_sets * neighbor_sets) : Prop :=
  let '(sendList, receiveList) := lists in
  OrdMap.ascending sendList /\ OrdMap.ascending receiveList /\
  OrdMap.keys sendList = OrdMap.keys receiveList /\
  (forall r s, In (r, s) sendList -> OrdSet.ascending s /\ s <> []) /\
  (forall r s, In (r, s) receiveList -> OrdSet.ascending s /\ s <> []) /\
  (forall r g, In g (OrdMap.get OrdSet.empty r receiveList) <->
               r <> me /\ owner g = r /\ exists row, seen row g) /\
  (forall r row, In row (OrdMap.get OrdSet.empty r sendList) <->
                 r <> me /\ exists g, owner g = r /\ seen row g).

(** The ids of a [std::map] of sets, in the order in which a loop over the
    map and, inside it, over each set meets them. *)
Definition walk (m : neighbor_sets) : list global_int_t := concat (map snd m).

(** The map after [m[g]] has been evaluated for each [g] of [ids]. *)
Definition ensure_keys (ids : list global_int_t) (m : OrdMap.t local_int_t)
  : OrdMap.t local_int_t :=
  fold_left (fun m g => snd (OrdMap.subscript 0 g m)) ids m.

(** Lines 128-130 run over the ids [ids], from the map and the counter [st]. *)
Definition assign_walk (to_local_int : global_int_t -> local_int_t)
  (localNumberOfRows : local_int_t) (ids : list global_int_t)
  (st : OrdMap.t local_int_t * local_int_t) : OrdMap.t local_int_t * local_int_t :=
  fold_left (fun st g => assign_external to_local_int localNumberOfRows g st) ids st.

(** The ids that lines 131-134 meet while the loop of line 123 visits the
    neighbors [visited]. *)
Definition send_walk (sendList visited : neighbor_sets) : list global_int_t :=
  flat_map (fun curNeighbor => OrdMap.get OrdSet.empty (fst curNeighbor) sendList) visited.

(** The variables of the loop of line 123 once it has visited the neighbors
    [visited]. *)
Definition assembling (to_local_int : global_int_t -> local_int_t) (A : SparseMatrix)
  (sendList receiveList : neighbor_sets) (totalToBeSent : local_int_t)
  (visited : neighbor_sets) (st : assembly) : Prop :=
  as_sendList st = sendList /\
  as_receiveList st = receiveList /\
  as_neighborCount st = Z.of_nat (length visited) /\
  as_neighbors st
  = map (fun curNeighbor => Some (fst curNeighbor)) visited
    ++ repeat None (length receiveList - length visited) /\
  as_receiveLength st
  = map (fun curNeighbor => Some (OrdSet.size (snd curNeighbor))) visited
    ++ repeat None (length receiveList - length visited) /\
  as_sendLength st
  = map (fun curNeighbor =>
           Some (OrdSet.size (OrdMap.get OrdSet.empty (fst curNeighbor) sendList))) visited
    ++ repeat None (length receiveList - length visited) /\
  (as_externalToLocalMap st, as_receiveEntryCount st)
  = assign_walk to_local_int (localNumberOfRows A) (walk visited) (OrdMap.empty, 0) /\
  as_sendEntryCount st = Z.of_nat (length (send_walk sendList visited)) /\
  as_elementsToSend st
  = map (fun g => Some (OrdMap.get 0 g (globalToLocalMap A))) (send_walk sendList visited)
    ++ repeat None (Z.to_nat totalToBeSent - length (send_walk sendList visited)) /\
  as_globalToLocalMap st
  = ensure_keys (send_walk sendList visited) (globalToLocalMap A).

(** The local index that lines 143-150 give to the global column id [g],
    from the maps [globalToLocalMap] and [externalToLocalMap]. *)
Definition local_index (to_local_int : global_int_t -> local_int_t)
  (getRankOfMatrixRow : Geometry -> SparseMatrix -> global_int_t -> Z)
  (geom : Geometry) (A : SparseMatrix)
  (globalToLocalMap externalToLocalMap : OrdMap.t local_int_t) (g : global_int_t)
  : local_int_t :=
  if rank geom =? getRankOfMatrixRow geom A g
  then OrdMap.get 0 g globalToLocalMap
  else OrdMap.get 0 (to_local_int g) externalToLocalMap.

(** [m'] is [m] after some evaluations of [m[k]]: the keys of [m] are keys of
    [m'], and [m'[k]] is [m[k]] for every [k]. *)
Definition map_le (m m' : OrdMap.t local_int_t) : Prop :=
  (forall k, OrdMap.get 0 k m' = OrdMap.get 0 k m) /\
  (forall k, In k (OrdMap.keys m) -> In k (OrdMap.keys m')).

(** The variables of the loop of line 141 when it reaches [(i, j)]: the
    references met so far have their local index in [mtxIndL]. *)
Definition rewritten (to_local_int : global_int_t -> local_int_t)
  (getRankOfMatrixRow : Geometry -> SparseMatrix -> global_int_t -> Z)
  (geom : Geometry) (A : SparseMatrix)
  (externalToLocalMap : OrdMap.t local_int_t) (i j : Z) (st : rewriting) : Prop :=
  map (@length Z) (rw_mtxIndL st) = map (@length Z) (mtxIndL A) /\
  rw_externalToLocalMap st = externalToLocalMap /\
  map_le (globalToLocalMap A) (rw_globalToLocalMap st) /\
  forall i' j' row g,
    reference A i' j' row g -> i' < i \/ (i' = i /\ j' < j) ->
    (exists rowL,
        load (rw_mtxIndL st) i' = Done rowL /\
        load rowL j'
        = Done (local_index to_local_int getRankOfMatrixRow geom A
                  (globalToLocalMap A) externalToLocalMap g)) /\
    (getRankOfMatrixRow geom A g = rank geom ->
     In g (OrdMap.keys (rw_globalToLocalMap st))).

(** The assertions of lines 105-110 hold, or the build has none. *)
Definition assertions_pass
  (getRankOfMatrixRow : Geometry -> SparseMatrix -> global_int_t -> Z)
  (DEBUG : bool) (geom : Geometry) (A : SparseMatrix) : bool :=
  negb DEBUG
  || match dependency_scan getRankOfMatrixRow geom A with
     | Done (sendList, receiveList) =>
         debug_assertions sendList receiveList
           (count_entries sendList) (count_entries receiveList)
     | _ => false
     end.

(** The matrix [A'] and the map [ext] that [SetupHalo] leaves, in terms of
    the maps [sendList] and [receiveList] of the scan. *)
Definition halo_plan (to_local_int : global_int_t -> local_int_t)
  (getRankOfMatrixRow : Geometry -> SparseMatrix -> global_int_t -> Z)
  (geom : Geometry) (A : SparseMatrix) (sendList receiveList : neighbor_sets)
  (A' : SparseMatrix) (ext : OrdMap.t local_int_t) : Prop :=
  ext = fst (assign_walk to_local_int (localNumberOfRows A) (walk receiveList)
               (OrdMap.empty, 0)) /\
  rewritten to_local_int getRankOfMatrixRow geom A ext (localNumberOfRows A) 0
    {| rw_mtxIndL := mtxIndL A';
       rw_globalToLocalMap := globalToLocalMap A';
       rw_externalToLocalMap := ext |} /\
  localNumberOfRows A' = localNumberOfRows A /\
  nonzerosInRow A' = nonzerosInRow A /\
  mtxIndG A' = mtxIndG A /\
  localToGlobalMap A' = localToGlobalMap A /\
  numberOfExternalValues A' = OrdMap.size ext /\
  localNumberOfColumns A' = localNumberOfRows A + OrdMap.size ext /\
  numberOfSendNeighbors A' = OrdMap.size sendList /\
  totalToBeSent A' = Z.of_nat (length (walk sendList)) /\
  neighbors A' = map (fun curNeighbor => Some (fst curNeighbor)) receiveList /\
  receiveLength A'
  = map (fun curNeighbor => Some (OrdSet.size (snd curNeighbor))) receiveList /\
  sendLength A'
  = map (fun curNeighbor => Some (OrdSet.size (snd curNeighbor))) sendList /\
  elementsToSend A'
  = map (fun g => Some (OrdMap.get 0 g (globalToLocalMap A))) (walk sendList) /\
  sendBuffer A' = repeat None (length (walk sendList)).

(** A two's complement integer of [w] bits from any integer. *)
Definition wrap (w : Z) (x : Z) : Z :=
  (x + 2 ^ (w - 1)) mod 2 ^ w - 2 ^ (w - 1).

(** The remote column ids among the references, with repetitions, in the
    order of the rows. *)
Definition remote_columns
  (getRankOfMatrixRow : Geometry -> SparseMatrix -> global_int_t -> Z)
  (geom : Geometry) (A : SparseMatrix) : list global_int_t :=
  filter (fun g => negb (rank geom =? getRankOfMatrixRow geom A g))
    (concat (map snd (local_rows A))).

(** No two of the ids [ids] are converted to the same key. *)
Definition distinct_keys (to_local_int : global_int_t -> local_int_t)
  (ids : list global_int_t) : Prop :=
  forall g g', In g ids -> In g' ids -> to_local_int g = to_local_int g' -> g = g'.

(** The rank [r] owns a column that a local row refers to, and is not the
    rank of this process. *)
Definition neighbor_rank
  (getRankOfMatrixRow : Geometry -> SparseMatrix -> global_int_t -> Z)
  (geom : Geometry) (A : SparseMatrix) (r : Z) : Prop :=
  r <> rank geom /\
  exists row g, referenced A row g /\ getRankOfMatrixRow geom A g = r.

(** The sum of the written cells of an array. *)
Definition sum_cells (a : list (option Z)) : Z :=
  fold_right (fun c total => match c with Some v => v + total | None => total end) 0 a.

(** The ownership resolver gives a column to this process, and the
    ownership map has no entry for it. *)
Definition malformed_partition
  (getRankOfMatrixRow : Geometry -> SparseMatrix -> global_int_t -> Z)
  (geom : Geometry) (A : SparseMatrix) : Prop :=
  exists row g, referenced A row g /\ getRankOfMatrixRow geom A g = rank geom /\
                OrdMap.find g (globalToLocalMap A) = None.

(** The ownership map is correct: [globalToLocalMap] gives to the global id
    of each local row the index of the row. *)
Definition ownership_map_correct (A : SparseMatrix) : Prop :=
  forall i row,
    0 <= i < localNumberOfRows A ->
    load (localToGlobalMap A) i = Done row ->
    OrdMap.find row (globalToLocalMap A) = Some i.

(** ** A distributed matrix and the part of one process *)

(** The nonzero pattern of the whole matrix: each row, by its global id,
    with the global ids of its columns. *)
Definition pattern : Type := list (Z * list Z).

(** If row [i] refers to column [j], row [j] refers to column [i]. *)
Definition symmetric (p : pattern) : Prop :=
  forall i j ci, In (i, ci) p -> In j ci -> exists cj, In (j, cj) p /\ In i cj.

(** Every row has one of the [P] ranks as its owner, no row comes twice,
    and every column is a row of the matrix. *)
Definition partitioned (P : Z) (owner : Z -> Z) (p : pattern) : Prop :=
  NoDup (map fst p) /\
  (forall i ci, In (i, ci) p -> 0 <= owner i < P) /\
  (forall i ci j, In (i, ci) p -> In j ci -> In j (map fst p)).

Definition local_part (owner : Z -> Z) (me : Z) (p : pattern) : pattern :=
  filter (fun row => owner (fst row) =? me) p.

(** The matrix that the process [me] holds before [SetupHalo]: its rows in
    the order of the pattern, numbered from 0, with nothing planned yet. *)
Definition local_matrix (owner : Z -> Z) (me : Z) (p : pattern) : SparseMatrix :=
  let mine := local_part owner me p in
  {| localNumberOfRows := Z.of_nat (length mine);
     localNumberOfColumns := 0;
     nonzerosInRow := map (fun row => Z.of_nat (length (snd row))) mine;
     mtxIndG := map snd mine;
     mtxIndL := map (fun row => map (fun _ => 0) (snd row)) mine;
     globalToLocalMap :=
       fold_left (fun m lg => OrdMap.put (snd lg) (fst lg) m)
         (combine (map Z.of_nat (seq 0 (length mine))) (map fst mine)) OrdMap.empty;
     localToGlobalMap := map fst mine;
     numberOfExternalValues := 0;
     numberOfSendNeighbors := 0;
     totalToBeSent := 0;
     elementsToSend := [];
     neighbors := [];
     receiveLength := [];
     sendLength := [];
     sendBuffer := [] |}.

(** *** Sample matrices *)

(** A chain of 8 rows on 4 processes, 2 rows each: row [g] refers to
    [g - 1], [g] and [g + 1]. *)
Definition chain : pattern :=
  [(0, [0; 1]); (1, [0; 1; 2]); (2, [1; 2; 3]); (3, [2; 3; 4]);
   (4, [3; 4; 5]); (5, [4; 5; 6]); (6, [5; 6; 7]); (7, [6; 7])].

Definition chain_owner (g : Z) : Z := g / 2.

(** The chain with the columns of each row in descending order. *)
Definition chain_descending : pattern :=
  map (fun row => (fst row, rev (snd row))) chain.

(** Two rows of process 0 refer to the one row of process 1. *)
Definition fan : pattern := [(0, [0; 2]); (1, [1; 2]); (2, [0; 1; 2])].

Definition fan_owner (g : Z) : Z := if g <? 2 then 0 else 1.

(** One process; its one row refers to column 7, that the resolver gives
    to it and that the ownership map does not know. *)
Definition stray : SparseMatrix :=
  {| localNumberOfRows := 1;
     localNumberOfColumns := 0;
     nonzerosInRow := [2];
     mtxIndG := [[0; 7]];
     mtxIndL := [[5; 5]];
     globalToLocalMap := [(0, 0)];
     localToGlobalMap := [0];
     numberOfExternalValues := 0;
     numberOfSendNeighbors := 0;
     totalToBeSent := 0;
     elementsToSend := [];
     neighbors := [];
     receiveLength := [];
     sendLength := [];
     sendBuffer := [] |}.

(** One row of process 0 refers to the columns 5 and 5 + 2^32, both of
    process 1. *)
Definition twin : SparseMatrix :=
  {| localNumberOfRows := 1;
     localNumberOfColumns := 0;
     nonzerosInRow := [3];
     mtxIndG := [[0; 5; 4294967301]];
     mtxIndL := [[0; 0; 0]];
     globalToLocalMap := [(0, 0)];
     localToGlobalMap := [0];
     numberOfExternalValues := 0;
     numberOfSendNeighbors := 0;
     totalToBeSent := 0;
     elementsToSend := [];
     neighbors := [];
     receiveLength := [];
     sendLength := [];
     sendBuffer := [] |}.

Definition twin_owner (g : Z) : Z := if g =? 0 then 0 else 1.

(** What [SetupHalo] makes of [stray]: column 7 has got an entry in the
    ownership map and the local index 0, the one of row 0. *)
Definition stray_planned : SparseMatrix :=
  {| localNumberOfRows := 1;
     localNumberOfColumns := 1;
     nonzerosInRow := [2];
     mtxIndG := [[0; 7]];
     mtxIndL := [[0; 0]];
     globalToLocalMap := [(0, 0); (7, 0)];
     localToGlobalMap := [0];
     numberOfExternalValues := 0;
     numberOfSendNeighbors := 0;
     totalToBeSent := 0;
     elementsToSend := [];
     neighbors := [];
     receiveLength := [];
     sendLength := [];
     sendBuffer := [] |}.

(** One process; its one row has one nonzero and room for two. *)
Definition padded : SparseMatrix :=
  {| localNumberOfRows := 1;
     localNumberOfColumns := 0;
     nonzerosInRow := [1];
     mtxIndG := [[0; 9]];
     mtxIndL := [[7; 7]];
     globalToLocalMap := [(0, 0)];
     localToGlobalMap := [0];
     numberOfExternalValues := 0;
     numberOfSendNeighbors := 0;
     totalToBeSent := 0;
     elementsToSend := [];
     neighbors := [];
     receiveLength := [];
     sendLength := [];
     sendBuffer := [] |}.

(** A pattern that is not symmetric, one row for each of two processes:
    row 0 refers to column 1, and row 1 does not refer to column 0. *)
Definition lopsided : pattern := [(0, [0; 1]); (1, [1])].

Definition lopsided_owner (g : Z) : Z := g.

(** A symmetric pattern on two processes, two rows each: the rows 0 and 1
    of process 0 refer to the columns 5 and 5 + 2^32 of process 1, and
    back. *)
Definition wide : pattern :=
  [(0, [0; 5]); (1, [1; 4294967301]); (5, [0; 5]); (4294967301, [1; 4294967301])].

Definition wide_owner (g : Z) : Z := if g <? 2 then 0 else 1.

(** ** Vocabulary of the further properties *)

(** The cell [(i, j)] of an array of rows, when it is inside the array. *)
Definition cell {T : Type} (a : list (list T)) (i j : nat) : option T :=
  match nth_error a i with
  | Some row => nth_error row j
  | None => None
  end.

(** The loops of lines 76 and 141 visit the entry [(i, j)]. *)
Definition visited (A : SparseMatrix) (i j : Z) : Prop :=
  exists row g, reference A i j row g.

(** The ownership map knows the columns that the resolver gives to this
    process: each is the global id of a local row, and [globalToLocalMap]
    gives the index of that row. *)
Definition partition_consistent
  (getRankOfMatrixRow : Geometry -> SparseMatrix -> global_int_t -> Z)
  (geom : Geometry) (A : SparseMatrix) : Prop :=
  forall row g,
    referenced A row g -> getRankOfMatrixRow geom A g = rank geom ->
    exists l, 0 <= l < localNumberOfRows A /\
              OrdMap.find g (globalToLocalMap A) = Some l /\
              load (localToGlobalMap A) l = Done g.

(** The array [mtxIndL] of the build without MPI when the loop of line 56
    reaches [(i, j)]: the references met so far hold the converted global
    index, and the cells that are no reference hold what they held. *)
Definition copied (to_local_int : global_int_t -> local_int_t) (A : SparseMatrix)
  (i j : Z) (mtxIndL' : list (list local_int_t)) : Prop :=
  map (@length Z) mtxIndL' = map (@length Z) (mtxIndL A) /\
  (forall i' j' row g,
      reference A i' j' row g -> i' < i \/ (i' = i /\ j' < j) ->
      cell mtxIndL' (Z.to_nat i') (Z.to_nat j') = Some (to_local_int g)) /\
  (forall i' j', ~ visited A (Z.of_nat i') (Z.of_nat j') ->
                 cell mtxIndL' i' j' = cell (mtxIndL A) i' j').

(** ** Reasoning about runs *)

(** An invariant carried through a counted loop: every round ends and
    re-establishes it. *)
Lemma for_loop_rule {S : Type} (I : Z -> S -> Prop) (body : Z -> S -> outcome S) :
  forall (count : nat) (i0 : Z) (s : S),
    I i0 s ->
    (forall i s, i0 <= i < i0 + Z.of_nat count -> I i s ->
                 exists s', body i s = Done s' /\ I (i + 1) s') ->
    exists s', for_loop count i0 body s = Done s' /\ I (i0 + Z.of_nat count) s'.
Proof.
  induction count as [|count IH]; intros i0 s Hinit Hstep.
  - exists s. split; [reflexivity|]. now replace (i0 + Z.of_nat 0) with i0 by lia.
  - destruct (Hstep i0 s) as [s1 [Hbody H1]]; [lia | assumption |].
    destruct (IH (i0 + 1) s1 H1) as [s2 [Hrest H2]].
    + intros i s' Hi. apply Hstep. lia.
    + exists s2. split.
      * simpl. rewrite Hbody. exact Hrest.
      * now replace (i0 + Z.of_nat (Datatypes.S count)) with (i0 + 1 + Z.of_nat count) by lia.
Qed.

Lemma for_upto_rule {S : Type} (I : Z -> S -> Prop) (body : Z -> S -> outcome S)
  (n : Z) (s : S) :
  I 0 s ->
  (forall i s, 0 <= i < n -> I i s -> exists s', body i s = Done s' /\ I (i + 1) s') ->
  exists s', for_upto n body s = Done s' /\ I (Z.max 0 n) s'.
Proof.
  intros Hinit Hstep. unfold for_upto.
  destruct (for_loop_rule I body (Z.to_nat n) 0 s Hinit) as [s' [Hrun Hs']].
  - intros i s0 Hi. apply Hstep. lia.
  - exists s'. split; [exact Hrun|].
    now replace (Z.max 0 n) with (0 + Z.of_nat (Z.to_nat n)) by lia.
Qed.

(** The same for a loop over a container; the invariant speaks of the
    elements already visited. *)
Lemma for_each_rule {T S : Type} (I : list T -> S -> Prop) (body : T -> S -> outcome S)
  (xs : list T) :
  forall (pre : list T) (s : S),
    I pre s ->
    (forall p x q s, pre ++ xs = p ++ x :: q -> I p s ->
                     exists s', body x s = Done s' /\ I (p ++ [x]) s') ->
    exists s', for_each xs body s = Done s' /\ I (pre ++ xs) s'.
Proof.
  induction xs as [|x xs IH]; intros pre s Hinit Hstep.
  - exists s. split; [reflexivity|]. now rewrite app_nil_r.
  - destruct (Hstep pre x xs s eq_refl Hinit) as [s1 [Hbody H1]].
    destruct (IH (pre ++ [x]) s1 H1) as [s2 [Hrest H2]].
    + intros p y q s0 Heq. apply (Hstep p y q s0). rewrite <- Heq, <- app_assoc. reflexivity.
    + exists s2. split.
      * simpl. rewrite Hbody. exact Hrest.
      * rewrite <- app_assoc in H2. exact H2.
Qed.

(** *** Arrays *)

Lemma load_Done {T : Type} (a : list T) (i : Z) (x : T) :
  load a i = Done x <-> 0 <= i /\ nth_error a (Z.to_nat i) = Some x.
Proof.
  unfold load. destruct (Z.ltb_spec i 0) as [Hneg|Hpos].
  - split; [discriminate | lia].
  - destruct (nth_error a (Z.to_nat i)) as [y|]; split.
    + intros H. injection H as ->. auto.
    + intros [_ H]. congruence.
    + discriminate.
    + intros [_ H]. discriminate.
Qed.

Lemma load_in_range {T : Type} (a : list T) (i : Z) :
  0 <= i < Z.of_nat (length a) -> exists x, load a i = Done x.
Proof.
  intros Hi. destruct (nth_error a (Z.to_nat i)) as [x|] eqn:E.
  - exists x. apply load_Done. split; [lia | exact E].
  - apply nth_error_None in E. lia.
Qed.

Lemma load_Done_range {T : Type} (a : list T) (i : Z) (x : T) :
  load a i = Done x -> 0 <= i < Z.of_nat (length a).
Proof.
  intros H. apply load_Done in H. destruct H as [H0 H].
  assert (Z.to_nat i < length a)%nat by (apply nth_error_Some; congruence). lia.
Qed.

Lemma length_list_set {T : Type} (a : list T) (k : nat) (x : T) :
  length (list_set a k x) = length a.
Proof.
  revert k. induction a as [|y a IH]; intros [|k]; simpl; auto.
Qed.

Lemma nth_error_list_set_same {T : Type} (a : list T) (k : nat) (x : T) :
  (k < length a)%nat -> nth_error (list_set a k x) k = Some x.
Proof.
  revert k. induction a as [|y a IH]; intros [|k] Hk; simpl in *; try lia; auto.
  apply IH. lia.
Qed.

Lemma nth_error_list_set_other {T : Type} (a : list T) (k k' : nat) (x : T) :
  k <> k' -> nth_error (list_set a k x) k' = nth_error a k'.
Proof.
  revert k k'. induction a as [|y a IH]; intros [|k] [|k'] Hk; simpl; auto;
    try congruence.
Qed.

Lemma store_Done {T : Type} (a : list T) (i : Z) (x : T) :
  0 <= i < Z.of_nat (length a) -> store a i x = Done (list_set a (Z.to_nat i) x).
Proof.
  intros Hi. unfold store.
  destruct (Z.leb_spec 0 i); [|lia]. destruct (Z.ltb_spec i (Z.of_nat (length a))); [|lia].
  reflexivity.
Qed.

(** Writing the first cell that is still unwritten. *)
Lemma list_set_fill {T : Type} (done : list (option T)) (k : nat) (x : T) :
  list_set (done ++ repeat None (Datatypes.S k)) (length done) (Some x)
  = (done ++ [Some x]) ++ repeat None k.
Proof.
  induction done as [|y done IH].
  - reflexivity.
  - cbn [app length list_set]. now rewrite IH.
Qed.

Lemma store_fill {T : Type} (done : list (option T)) (k : nat) (c : Z) (x : T) :
  c = Z.of_nat (length done) ->
  store (done ++ repeat None (Datatypes.S k)) c (Some x)
  = Done ((done ++ [Some x]) ++ repeat None k).
Proof.
  intros ->. rewrite store_Done.
  - now rewrite Nat2Z.id, list_set_fill.
  - rewrite length_app, repeat_length. lia.
Qed.

(** *** [std::set] *)

Lemma set_insert_In (x y : Z) (s : OrdSet.t) :
  In y (OrdSet.insert x s) <-> y = x \/ In y s.
Proof.
  induction s as [|z s IH]; simpl.
  - intuition.
  - destruct (Z.ltb_spec x z); [simpl; intuition|].
    destruct (Z.eqb_spec x z) as [->|Hne]; simpl; intuition.
Qed.

Lemma set_insert_ascending (x : Z) (s : OrdSet.t) :
  OrdSet.ascending s -> OrdSet.ascending (OrdSet.insert x s).
Proof.
  unfold OrdSet.ascending. induction s as [|z s IH]; intros Hs; simpl.
  - constructor; constructor.
  - apply StronglySorted_inv in Hs. destruct Hs as [Hs Hz].
    destruct (Z.ltb_spec x z) as [Hlt|Hge].
    + constructor.
      * constructor; assumption.
      * constructor; [exact Hlt|].
        eapply Forall_impl; [|exact Hz]. intros a Ha. lia.
    + destruct (Z.eqb_spec x z) as [->|Hne].
      * constructor; assumption.
      * constructor; [apply IH; exact Hs|].
        apply Forall_forall. intros a Ha. apply set_insert_In in Ha.
        destruct Ha as [->|Ha]; [lia|].
        rewrite Forall_forall in Hz. now apply Hz.
Qed.

Lemma set_insert_not_empty (x : Z) (s : OrdSet.t) : OrdSet.insert x s <> [].
Proof.
  destruct s as [|z s]; simpl; [discriminate|].
  destruct (x <? z); [discriminate|]. destruct (x =? z); discriminate.
Qed.

Lemma ascending_NoDup (s : list Z) : StronglySorted Z.lt s -> NoDup s.
Proof.
  induction 1 as [|z s Hs IH Hz]; constructor; [|exact IH].
  intros Hin. rewrite Forall_forall in Hz. specialize (Hz z Hin). lia.
Qed.

(** An ascending list is determined by its elements. *)
Lemma ascending_unique (s s' : list Z) :
  StronglySorted Z.lt s -> StronglySorted Z.lt s' ->
  (forall x, In x s <-> In x s') -> s = s'.
Proof.
  intros Hs. revert s'. induction Hs as [|z s Hs IH Hz]; intros s' Hs' Heq.
  - destruct s' as [|z' s']; [reflexivity|].
    exfalso. apply (Heq z'). now left.
  - destruct Hs' as [|z' s' Hs' Hz'].
    + exfalso. apply (Heq z). now left.
    + rewrite Forall_forall in Hz, Hz'.
      assert (z = z') as <-.
      { assert (In z (z' :: s')) as [E|Hin] by (apply Heq; now left); [auto|].
        assert (In z' (z :: s)) as [E|Hin'] by (apply Heq; now left); [auto|].
        specialize (Hz _ Hin'). specialize (Hz' _ Hin). lia. }
      f_equal. apply IH; [exact Hs'|].
      intros x. split; intros Hx.
      * assert (In x (z :: s')) as [E|Hin] by (apply Heq; now right); [|exact Hin].
        subst x. specialize (Hz _ Hx). lia.
      * assert (In x (z :: s)) as [E|Hin] by (apply Heq; now right); [|exact Hin].
        subst x. specialize (Hz' _ Hx). lia.
Qed.

(** *** [std::map] *)

Lemma map_find_put_same {V : Type} (k : Z) (v : V) (m : OrdMap.t V) :
  OrdMap.find k (OrdMap.put k v m) = Some v.
Proof.
  induction m as [|[k' v'] m IH]; simpl.
  - now rewrite Z.eqb_refl.
  - destruct (Z.ltb_spec k k'); simpl; [now rewrite Z.eqb_refl|].
    destruct (Z.eqb_spec k k') as [->|Hne]; simpl.
    + now rewrite Z.eqb_refl.
    + destruct (Z.eqb_spec k k'); [contradiction | exact IH].
Qed.

Lemma map_find_put_other {V : Type} (k k0 : Z) (v : V) (m : OrdMap.t V) :
  k0 <> k -> OrdMap.find k0 (OrdMap.put k v m) = OrdMap.find k0 m.
Proof.
  intros Hne. induction m as [|[k' v'] m IH]; simpl.
  - destruct (Z.eqb_spec k0 k); [contradiction | reflexivity].
  - destruct (Z.ltb_spec k k'); simpl.
    + destruct (Z.eqb_spec k0 k); [contradiction | reflexivity].
    + destruct (Z.eqb_spec k k') as [->|Hne']; simpl.
      * destruct (Z.eqb_spec k0 k'); [contradiction | reflexivity].
      * now rewrite IH.
Qed.

Lemma map_keys_put {V : Type} (k y : Z) (v : V) (m : OrdMap.t V) :
  In y (OrdMap.keys (OrdMap.put k v m)) <-> y = k \/ In y (OrdMap.keys m).
Proof.
  unfold OrdMap.keys. induction m as [|[k' v'] m IH]; simpl.
  - intuition.
  - destruct (Z.ltb_spec k k'); simpl; [intuition|].
    destruct (Z.eqb_spec k k') as [->|Hne]; simpl; intuition.
Qed.

Lemma map_put_ascending {V : Type} (k : Z) (v : V) (m : OrdMap.t V) :
  OrdMap.ascending m -> OrdMap.ascending (OrdMap.put k v m).
Proof.
  unfold OrdMap.ascending. induction m as [|[k' v'] m IH]; intros Hm.
  - simpl. constructor; constructor.
  - simpl in Hm. apply StronglySorted_inv in Hm. destruct Hm as [Hm Hk'].
    simpl. destruct (Z.ltb_spec k k') as [Hlt|Hge].
    + simpl. constructor.
      * constructor; assumption.
      * constructor; [exact Hlt|].
        eapply Forall_impl; [|exact Hk']. intros a Ha. simpl in Ha. lia.
    + destruct (Z.eqb_spec k k') as [->|Hne]; simpl.
      * constructor; assumption.
      * constructor; [apply IH; exact Hm|].
        apply Forall_forall. intros a Ha.
        apply (map_keys_put k a v m) in Ha.
        destruct Ha as [->|Ha]; [lia|].
        rewrite Forall_forall in Hk'. now apply Hk'.
Qed.

Lemma map_find_None {V : Type} (k : Z) (m : OrdMap.t V) :
  OrdMap.find k m = None <-> ~ In k (OrdMap.keys m).
Proof.
  unfold OrdMap.keys. induction m as [|[k' v'] m IH]; simpl.
  - intuition.
  - destruct (Z.eqb_spec k k') as [->|Hne].
    + split; [discriminate | intros H; exfalso; apply H; now left].
    + rewrite IH. intuition.
Qed.

Lemma map_find_Some_In {V : Type} (k : Z) (v : V) (m : OrdMap.t V) :
  OrdMap.find k m = Some v -> In (k, v) m.
Proof.
  induction m as [|[k' v'] m IH]; simpl; [discriminate|].
  destruct (Z.eqb_spec k k') as [->|Hne].
  - intros E. injection E as ->. now left.
  - intros E. right. now apply IH.
Qed.

Lemma map_In_find {V : Type} (k : Z) (v : V) (m : OrdMap.t V) :
  OrdMap.ascending m -> In (k, v) m -> OrdMap.find k m = Some v.
Proof.
  unfold OrdMap.ascending, OrdMap.keys.
  induction m as [|[k' v'] m IH]; simpl; intros Hm Hin; [contradiction|].
  apply StronglySorted_inv in Hm. destruct Hm as [Hm Hk'].
  destruct Hin as [E|Hin].
  - injection E as -> ->. now rewrite Z.eqb_refl.
  - destruct (Z.eqb_spec k k') as [->|Hne]; [|now apply IH].
    rewrite Forall_forall in Hk'.
    assert (k' < k') by (apply Hk'; apply (in_map fst _ _ Hin)). lia.
Qed.

Lemma map_length_put_absent {V : Type} (k : Z) (v : V) (m : OrdMap.t V) :
  ~ In k (OrdMap.keys m) -> length (OrdMap.put k v m) = Datatypes.S (length m).
Proof.
  unfold OrdMap.keys. induction m as [|[k' v'] m IH]; simpl; intros Hin; [reflexivity|].
  destruct (Z.ltb_spec k k'); simpl; [reflexivity|].
  destruct (Z.eqb_spec k k') as [->|Hne]; simpl.
  - exfalso. apply Hin. now left.
  - f_equal. apply IH. intros H'. apply Hin. now right.
Qed.

Lemma map_get_find {V : Type} (d : V) (k : Z) (m : OrdMap.t V) (v : V) :
  OrdMap.find k m = Some v -> OrdMap.get d k m = v.
Proof. unfold OrdMap.get. now intros ->. Qed.

(** A loop over an ascending map meets, for each key, the value that
    [operator[]] gives for it. *)
Lemma map_get_entries {V : Type} (d : V) (m : OrdMap.t V) :
  OrdMap.ascending m ->
  map (fun k => OrdMap.get d k m) (OrdMap.keys m) = map snd m.
Proof.
  intros Hm. unfold OrdMap.keys. rewrite map_map.
  apply map_ext_in. intros [k v] Hin. simpl.
  apply map_get_find. now apply map_In_find.
Qed.

(** [operator[]] *)
Lemma map_subscript_fst {V : Type} (d : V) (k : Z) (m : OrdMap.t V) :
  fst (OrdMap.subscript d k m) = OrdMap.get d k m.
Proof. unfold OrdMap.subscript, OrdMap.get. now destruct (OrdMap.find k m). Qed.

Lemma map_subscript_present {V : Type} (d : V) (k : Z) (m : OrdMap.t V) :
  In k (OrdMap.keys m) -> snd (OrdMap.subscript d k m) = m.
Proof.
  intros Hin. unfold OrdMap.subscript.
  destruct (OrdMap.find k m) eqn:E; [reflexivity|].
  apply map_find_None in E. contradiction.
Qed.

Lemma map_subscript_find {V : Type} (d : V) (k k0 : Z) (m : OrdMap.t V) :
  OrdMap.find k0 (snd (OrdMap.subscript d k m))
  = if k0 =? k then Some (OrdMap.get d k m) else OrdMap.find k0 m.
Proof.
  unfold OrdMap.subscript, OrdMap.get.
  destruct (Z.eqb_spec k0 k) as [->|Hne].
  - destruct (OrdMap.find k m) eqn:E; simpl; [exact E | apply map_find_put_same].
  - destruct (OrdMap.find k m) eqn:E; simpl; [reflexivity|].
    now apply map_find_put_other.
Qed.

Lemma map_subscript_get {V : Type} (d : V) (k k0 : Z) (m : OrdMap.t V) :
  OrdMap.get d k0 (snd (OrdMap.subscript d k m)) = OrdMap.get d k0 m.
Proof.
  unfold OrdMap.get at 1. rewrite map_subscript_find.
  destruct (Z.eqb_spec k0 k) as [->|Hne]; reflexivity.
Qed.

Lemma set_insert_present (x : Z) (s : OrdSet.t) :
  OrdSet.ascending s -> In x s -> OrdSet.insert x s = s.
Proof.
  unfold OrdSet.ascending. induction s as [|z s IH]; intros Hs Hin; [contradiction|].
  apply StronglySorted_inv in Hs. destruct Hs as [Hs Hz]. rewrite Forall_forall in Hz.
  simpl. destruct (Z.ltb_spec x z) as [Hlt|Hge].
  - destruct Hin as [E|Hin]; [lia|]. specialize (Hz _ Hin). lia.
  - destruct (Z.eqb_spec x z) as [->|Hne]; [reflexivity|].
    f_equal. apply IH; [exact Hs|]. destruct Hin as [E|Hin]; [congruence | exact Hin].
Qed.

Lemma map_keys_put_insert {V : Type} (k : Z) (v : V) (m : OrdMap.t V) :
  OrdMap.keys (OrdMap.put k v m) = OrdSet.insert k (OrdMap.keys m).
Proof.
  unfold OrdMap.keys. induction m as [|[k' v'] m IH]; simpl; [reflexivity|].
  destruct (Z.ltb_spec k k'); simpl; [reflexivity|].
  destruct (Z.eqb_spec k k') as [->|Hne]; simpl; [reflexivity|].
  now rewrite IH.
Qed.

(** *** [m[r].insert(x)] *)

Lemma insert_at_eq (r : Z) (x : global_int_t) (m : neighbor_sets) :
  insert_at r x m
  = OrdMap.put r (OrdSet.insert x (OrdMap.get OrdSet.empty r m))
      (snd (OrdMap.subscript OrdSet.empty r m)).
Proof.
  unfold insert_at. rewrite <- map_subscript_fst.
  now destruct (OrdMap.subscript OrdSet.empty r m).
Qed.

Lemma insert_at_find (r r0 : Z) (x : global_int_t) (m : neighbor_sets) :
  OrdMap.find r0 (insert_at r x m)
  = if r0 =? r then Some (OrdSet.insert x (OrdMap.get OrdSet.empty r m))
    else OrdMap.find r0 m.
Proof.
  rewrite insert_at_eq. destruct (Z.eqb_spec r0 r) as [->|Hne].
  - apply map_find_put_same.
  - rewrite map_find_put_other by exact Hne.
    rewrite map_subscript_find. now destruct (Z.eqb_spec r0 r).
Qed.

Lemma insert_at_get (r r0 : Z) (x : global_int_t) (m : neighbor_sets) :
  OrdMap.get OrdSet.empty r0 (insert_at r x m)
  = if r0 =? r then OrdSet.insert x (OrdMap.get OrdSet.empty r m)
    else OrdMap.get OrdSet.empty r0 m.
Proof.
  unfold OrdMap.get at 1. rewrite insert_at_find.
  now destruct (r0 =? r).
Qed.

Lemma insert_at_keys (r : Z) (x : global_int_t) (m : neighbor_sets) :
  OrdMap.ascending m ->
  OrdMap.keys (insert_at r x m) = OrdSet.insert r (OrdMap.keys m).
Proof.
  intros Hm. rewrite insert_at_eq, map_keys_put_insert.
  unfold OrdMap.subscript. destruct (OrdMap.find r m) eqn:E; simpl; [reflexivity|].
  rewrite map_keys_put_insert.
  apply set_insert_present.
  - now apply set_insert_ascending.
  - apply set_insert_In. now left.
Qed.

Lemma insert_at_ascending (r : Z) (x : global_int_t) (m : neighbor_sets) :
  OrdMap.ascending m -> OrdMap.ascending (insert_at r x m).
Proof.
  intros Hm. unfold OrdMap.ascending. rewrite insert_at_keys by exact Hm.
  now apply set_insert_ascending.
Qed.

Lemma insert_at_In (r r0 : Z) (x : global_int_t) (s : OrdSet.t) (m : neighbor_sets) :
  OrdMap.ascending m -> In (r0, s) (insert_at r x m) ->
  (r0 = r /\ s = OrdSet.insert x (OrdMap.get OrdSet.empty r m)) \/ In (r0, s) m.
Proof.
  intros Hm Hin.
  apply map_In_find in Hin; [|now apply insert_at_ascending].
  rewrite insert_at_find in Hin. destruct (Z.eqb_spec r0 r) as [->|Hne].
  - left. split; congruence.
  - right. now apply map_find_Some_In.
Qed.

(** *** Well-formed matrices *)

Lemma well_formed_row (A : SparseMatrix) (i : Z) :
  well_formed A = true -> 0 <= i < localNumberOfRows A ->
  exists currentGlobalRow cur_nnz rowG rowL,
    load (localToGlobalMap A) i = Done currentGlobalRow /\
    load (nonzerosInRow A) i = Done cur_nnz /\
    load (mtxIndG A) i = Done rowG /\
    load (mtxIndL A) i = Done rowL /\
    cur_nnz <= Z.of_nat (length rowG) /\ cur_nnz <= Z.of_nat (length rowL).
Proof.
  intros Hwf Hi. unfold well_formed in Hwf. rewrite forallb_forall in Hwf.
  specialize (Hwf (Z.to_nat i)). unfold row_ok in Hwf.
  assert (Hin : In (Z.to_nat i) (seq 0 (Z.to_nat (localNumberOfRows A)))).
  { apply in_seq. lia. }
  specialize (Hwf Hin).
  destruct (nth_error (localToGlobalMap A) (Z.to_nat i)) as [g|] eqn:E1; [|discriminate].
  destruct (nth_error (nonzerosInRow A) (Z.to_nat i)) as [c|] eqn:E2; [|discriminate].
  destruct (nth_error (mtxIndG A) (Z.to_nat i)) as [rG|] eqn:E3; [|discriminate].
  destruct (nth_error (mtxIndL A) (Z.to_nat i)) as [rL|] eqn:E4; [|discriminate].
  apply andb_true_iff in Hwf. destruct Hwf as [H1 H2].
  apply Z.leb_le in H1, H2.
  exists g, c, rG, rL. repeat split; try (apply load_Done; split; [lia | assumption]); assumption.
Qed.

(** *** Lines 76-90 *)

Section Scan.

Variable getRankOfMatrixRow : Geometry -> SparseMatrix -> global_int_t -> Z.
Variable geom : Geometry.
Variable A : SparseMatrix.

Lemma scanned_start :
  scanned (rank geom) (getRankOfMatrixRow geom A) (seen_before A 0 0)
    (OrdMap.empty, OrdMap.empty).
Proof.
  assert (Hnone : forall row g, ~ seen_before A 0 0 row g).
  { intros row g (i' & j' & Href & Hlt).
    destruct Href as (Hi & _ & c & rw & _ & Hj & _). lia. }
  unfold scanned. split; [constructor|]. split; [constructor|].
  split; [reflexivity|]. split; [intros r s []|]. split; [intros r s []|]. split.
  - intros r g. split; [intros []|].
    intros (_ & _ & row & Hs). exact (Hnone _ _ Hs).
  - intros r row. split; [intros []|].
    intros (_ & g & _ & Hs). exact (Hnone _ _ Hs).
Qed.

Lemma scanned_get_ascending (m : neighbor_sets) (r : Z) :
  (forall r s, In (r, s) m -> OrdSet.ascending s /\ s <> []) ->
  OrdSet.ascending (OrdMap.get OrdSet.empty r m).
Proof.
  intros Hm. unfold OrdMap.get. destruct (OrdMap.find r m) as [s|] eqn:E.
  - apply map_find_Some_In in E. now apply (Hm r s).
  - constructor.
Qed.

(** The sets stay ascending and non-empty under [m[r].insert(x)]. *)
Lemma insert_at_sets (r : Z) (x : global_int_t) (m : neighbor_sets) :
  OrdMap.ascending m ->
  (forall r s, In (r, s) m -> OrdSet.ascending s /\ s <> []) ->
  forall r0 s, In (r0, s) (insert_at r x m) -> OrdSet.ascending s /\ s <> [].
Proof.
  intros Hm Hsets r0 s Hin.
  apply insert_at_In in Hin; [|exact Hm]. destruct Hin as [[_ ->]|Hin].
  - split; [|apply set_insert_not_empty].
    apply set_insert_ascending. now apply scanned_get_ascending.
  - now apply (Hsets r0 s).
Qed.

(** One round of the inner loop. *)
Lemma scan_entry_scanned (seen seen' : global_int_t -> global_int_t -> Prop)
  (currentGlobalRow curIndex : global_int_t) (lists : neighbor_sets * neighbor_sets) :
  (forall row g, seen' row g <->
                 seen row g \/ (row = currentGlobalRow /\ g = curIndex)) ->
  scanned (rank geom) (getRankOfMatrixRow geom A) seen lists ->
  scanned (rank geom) (getRankOfMatrixRow geom A) seen'
    (scan_entry getRankOfMatrixRow geom A currentGlobalRow curIndex lists).
Proof.
  intros Hseen. destruct lists as [sendList receiveList].
  intros (Hs & Hr & Hkeys & Hsets & Hrets & Hrecv & Hsend).
  unfold scan_entry.
  destruct (Z.eqb_spec (rank geom) (getRankOfMatrixRow geom A curIndex)) as [Hme|Hother];
    cbn [negb].
  - (* a column of this process: nothing is recorded *)
    unfold scanned. do 5 (split; [assumption|]). split.
    + intros r g. rewrite Hrecv. split.
      * intros (Hne & Hown & row & Hrow). repeat split; try assumption.
        exists row. apply Hseen. now left.
      * intros (Hne & Hown & row & Hrow). repeat split; try assumption.
        apply Hseen in Hrow. destruct Hrow as [Hrow|[_ ->]]; [now exists row | congruence].
    + intros r row. rewrite Hsend. split.
      * intros (Hne & g & Hown & Hg). split; [exact Hne|].
        exists g. split; [exact Hown|]. apply Hseen. now left.
      * intros (Hne & g & Hown & Hg). split; [exact Hne|].
        apply Hseen in Hg. destruct Hg as [Hg|[_ ->]]; [now exists g | congruence].
  - (* a column of another process *)
    set (o := getRankOfMatrixRow geom A curIndex) in *.
    unfold scanned.
    split; [now apply insert_at_ascending|].
    split; [now apply insert_at_ascending|].
    split; [rewrite !insert_at_keys by assumption; now rewrite Hkeys|].
    split; [now apply insert_at_sets|].
    split; [now apply insert_at_sets|].
    split.
    + intros r g. rewrite insert_at_get.
      destruct (Z.eqb_spec r o) as [->|Hne].
      * rewrite set_insert_In, Hrecv. split.
        -- intros [->|(Hne & Hown & row & Hrow)].
           ++ repeat split; [congruence|]. exists currentGlobalRow. apply Hseen. now right.
           ++ repeat split; try assumption. exists row. apply Hseen. now left.
        -- intros (Hne & Hown & row & Hrow). apply Hseen in Hrow.
           destruct Hrow as [Hrow|[_ ->]]; [|now left].
           right. repeat split; try assumption. now exists row.
      * rewrite Hrecv. split.
        -- intros (Hne' & Hown & row & Hrow). repeat split; try assumption.
           exists row. apply Hseen. now left.
        -- intros (Hne' & Hown & row & Hrow). apply Hseen in Hrow.
           destruct Hrow as [Hrow|[_ ->]]; [|exfalso; apply Hne; symmetry; exact Hown].
           repeat split; try assumption. now exists row.
    + intros r row. rewrite insert_at_get.
      destruct (Z.eqb_spec r o) as [->|Hne].
      * rewrite set_insert_In, Hsend. split.
        -- intros [->|(Hne & g & Hown & Hg)].
           ++ split; [congruence|]. exists curIndex. split; [reflexivity|].
              apply Hseen. now right.
           ++ split; [exact Hne|]. exists g. split; [exact Hown|]. apply Hseen. now left.
        -- intros (Hne & g & Hown & Hg). apply Hseen in Hg.
           destruct Hg as [Hg|[-> ->]]; [|now left].
           right. split; [exact Hne|]. now exists g.
      * rewrite Hsend. split.
        -- intros (Hne' & g & Hown & Hg). split; [exact Hne'|].
           exists g. split; [exact Hown|]. apply Hseen. now left.
        -- intros (Hne' & g & Hown & Hg). apply Hseen in Hg.
           destruct Hg as [Hg|[_ ->]]; [|exfalso; apply Hne; symmetry; exact Hown].
           split; [exact Hne'|]. now exists g.
Qed.

Lemma scanned_ext (me : Z) (owner : global_int_t -> Z)
  (seen seen' : global_int_t -> global_int_t -> Prop)
  (lists : neighbor_sets * neighbor_sets) :
  (forall row g, seen row g <-> seen' row g) ->
  scanned me owner seen lists -> scanned me owner seen' lists.
Proof.
  intros Hext. destruct lists as [sendList receiveList].
  intros (Hs & Hr & Hkeys & Hsets & Hrets & Hrecv & Hsend).
  unfold scanned. do 5 (split; [assumption|]). split.
  - intros r g. rewrite Hrecv. split; intros (Hne & Hown & row & Hrow);
      repeat split; try assumption; exists row; now apply Hext.
  - intros r row. rewrite Hsend. split; intros (Hne & g & Hown & Hg);
      (split; [exact Hne|]); exists g; (split; [exact Hown|]); now apply Hext.
Qed.

Lemma reference_functional (i j : Z) (row g row' g' : global_int_t) :
  reference A i j row g -> reference A i j row' g' -> row = row' /\ g = g'.
Proof.
  intros (_ & Hrow & c & rw & _ & _ & Hrw & Hg) (_ & Hrow' & c' & rw' & _ & _ & Hrw' & Hg').
  rewrite Hrow in Hrow'. injection Hrow' as <-.
  rewrite Hrw in Hrw'. injection Hrw' as <-.
  rewrite Hg in Hg'. injection Hg' as <-. auto.
Qed.

(** One round of the outer loop: row [i]. *)
Lemma scan_row_scanned (i : Z) (lists : neighbor_sets * neighbor_sets) :
  well_formed A = true -> 0 <= i < localNumberOfRows A ->
  scanned (rank geom) (getRankOfMatrixRow geom A) (seen_before A i 0) lists ->
  exists lists',
    scan_row getRankOfMatrixRow geom A i lists = Done lists' /\
    scanned (rank geom) (getRankOfMatrixRow geom A) (seen_before A (i + 1) 0) lists'.
Proof.
  intros Hwf Hi Hinv.
  destruct (well_formed_row A i Hwf Hi)
    as (cgr & cur_nnz & rowG & rowL & Hcgr & Hnnz & HrowG & HrowL & HlenG & HlenL).
  unfold scan_row. rewrite Hcgr, Hnnz. cbn [bind].
  destruct (for_upto_rule
              (fun j l => scanned (rank geom) (getRankOfMatrixRow geom A)
                            (seen_before A i j) l)
              (fun j lists0 =>
                 row <- load (mtxIndG A) i ;;
                 curIndex <- load row j ;;
                 Done (scan_entry getRankOfMatrixRow geom A cgr curIndex lists0))
              cur_nnz lists Hinv) as (lists' & Hrun & Hend).
  - intros j l Hj Hl. rewrite HrowG. cbn [bind].
    destruct (load_in_range rowG j) as [curIndex Hcur]; [lia|].
    rewrite Hcur. cbn [bind]. eexists. split; [reflexivity|].
    assert (Href : reference A i j cgr curIndex).
    { split; [exact Hi|]. split; [exact Hcgr|]. exists cur_nnz, rowG. auto. }
    apply scan_entry_scanned with (seen := seen_before A i j); [|exact Hl].
    intros row g. split.
    + intros (i' & j' & Href' & [Hlt|[-> Hlt]]).
      * left. exists i', j'. split; [exact Href' | now left].
      * destruct (Z.eq_dec j' j) as [->|Hne].
        -- right. apply (reference_functional _ _ _ _ _ _ Href' Href).
        -- left. exists i, j'. split; [exact Href' | right; lia].
    + intros [(i' & j' & Href' & Hlt)|[-> ->]].
      * exists i', j'. split; [exact Href' | lia].
      * exists i, j. split; [exact Href | right; lia].
  - exists lists'. split; [exact Hrun|].
    apply scanned_ext with (seen := seen_before A i (Z.max 0 cur_nnz)); [|exact Hend].
    intros row g. split.
    + intros (i' & j' & Href' & Hlt). exists i', j'. split; [exact Href' | lia].
    + intros (i' & j' & Href' & Hlt). exists i', j'. split; [exact Href'|].
      destruct Href' as (_ & _ & c & rw & Hc & Hj & _).
      destruct (Z.eq_dec i' i) as [->|Hne]; [right | left; lia].
      split; [reflexivity|].
      rewrite Hnnz in Hc. injection Hc as <-. lia.
Qed.

(** The scan ends, and has then recorded every reference. *)
Lemma dependency_scan_scanned :
  well_formed A = true ->
  exists lists,
    dependency_scan getRankOfMatrixRow geom A = Done lists /\
    scanned (rank geom) (getRankOfMatrixRow geom A) (referenced A) lists.
Proof.
  intros Hwf. unfold dependency_scan.
  destruct (for_upto_rule
              (fun i l => scanned (rank geom) (getRankOfMatrixRow geom A)
                            (seen_before A i 0) l)
              (scan_row getRankOfMatrixRow geom A)
              (localNumberOfRows A) (OrdMap.empty, OrdMap.empty) scanned_start)
    as (lists & Hrun & Hend).
  - intros i l Hi Hl. now apply scan_row_scanned.
  - exists lists. split; [exact Hrun|].
    apply scanned_ext with (seen := seen_before A (Z.max 0 (localNumberOfRows A)) 0);
      [|exact Hend].
    intros row g. split.
    + intros (i' & j' & Href' & _). now exists i', j'.
    + intros (i' & j' & Href'). exists i', j'. split; [exact Href'|].
      destruct Href' as (Hi & _). lia.
Qed.

End Scan.

(** *** Lines 93-100 and 114-135 *)

Lemma count_entries_from (m : neighbor_sets) (total : Z) :
  fold_left (fun total curNeighbor => total + OrdSet.size (snd curNeighbor)) m total
  = total + Z.of_nat (length (walk m)).
Proof.
  revert total. induction m as [|[r s] m IH]; intros total; simpl.
  - lia.
  - rewrite IH. unfold walk, OrdSet.size. cbn [map concat snd].
    rewrite length_app. lia.
Qed.

Lemma count_entries_walk (m : neighbor_sets) :
  count_entries m = Z.of_nat (length (walk m)).
Proof. unfold count_entries. now rewrite count_entries_from. Qed.

Lemma walk_app (m m' : neighbor_sets) : walk (m ++ m') = walk m ++ walk m'.
Proof. unfold walk. now rewrite map_app, concat_app. Qed.

Lemma send_walk_app (sendList m m' : neighbor_sets) :
  send_walk sendList (m ++ m') = send_walk sendList m ++ send_walk sendList m'.
Proof. unfold send_walk. now rewrite flat_map_app. Qed.

(** With the same ranks in both maps, the loop of line 123 meets the send
    sets in the order of [sendList]. *)
Lemma send_sets_aligned (sendList receiveList : neighbor_sets) :
  OrdMap.ascending sendList ->
  OrdMap.keys sendList = OrdMap.keys receiveList ->
  map (fun curNeighbor => OrdMap.get OrdSet.empty (fst curNeighbor) sendList) receiveList
  = map snd sendList.
Proof.
  intros Hs Hkeys. rewrite <- (map_get_entries OrdSet.empty sendList Hs).
  rewrite Hkeys. unfold OrdMap.keys. now rewrite map_map.
Qed.

Lemma send_walk_all (sendList receiveList : neighbor_sets) :
  OrdMap.ascending sendList ->
  OrdMap.keys sendList = OrdMap.keys receiveList ->
  send_walk sendList receiveList = walk sendList.
Proof.
  intros Hs Hkeys. unfold send_walk, walk.
  rewrite flat_map_concat_map. now rewrite send_sets_aligned.
Qed.

Lemma ensure_keys_get (ids : list global_int_t) (m : OrdMap.t local_int_t) (k : Z) :
  OrdMap.get 0 k (ensure_keys ids m) = OrdMap.get 0 k m.
Proof.
  unfold ensure_keys. revert m. induction ids as [|g ids IH]; intros m; simpl.
  - reflexivity.
  - rewrite IH. apply map_subscript_get.
Qed.

Lemma ensure_keys_app (ids ids' : list global_int_t) (m : OrdMap.t local_int_t) :
  ensure_keys (ids ++ ids') m = ensure_keys ids' (ensure_keys ids m).
Proof. unfold ensure_keys. apply fold_left_app. Qed.

Lemma assign_walk_app (to_local_int : global_int_t -> local_int_t) (n : local_int_t)
  (ids ids' : list global_int_t) (st : OrdMap.t local_int_t * local_int_t) :
  assign_walk to_local_int n (ids ++ ids') st
  = assign_walk to_local_int n ids' (assign_walk to_local_int n ids st).
Proof. unfold assign_walk. apply fold_left_app. Qed.

(** Lines 131-134 fill the next cells of [elementsToSend]. *)
Lemma record_send_loop (sendSet : OrdSet.t) :
  forall (written : list (option local_int_t)) (k : nat) (m : OrdMap.t local_int_t) (c : Z),
    c = Z.of_nat (length written) ->
    for_each sendSet record_send
      (written ++ repeat None (length sendSet + k), m, c)
    = Done ((written ++ map (fun g => Some (OrdMap.get 0 g m)) sendSet) ++ repeat None k,
            ensure_keys sendSet m,
            c + Z.of_nat (length sendSet)).
Proof.
  induction sendSet as [|g s IH]; intros written k m c Hc.
  - simpl. rewrite app_nil_r. do 3 f_equal. lia.
  - cbn [for_each record_send length Nat.add].
    rewrite (surjective_pairing (OrdMap.subscript 0 g m)), map_subscript_fst.
    rewrite (store_fill written (length s + k) c (OrdMap.get 0 g m) Hc).
    cbn [bind]. rewrite IH by (rewrite length_app; simpl; lia).
    rewrite (map_ext (fun g0 => Some (OrdMap.get 0 g0 (snd (OrdMap.subscript 0 g m))))
               (fun g0 => Some (OrdMap.get 0 g0 m)))
      by (intros g0; now rewrite map_subscript_get).
    rewrite <- (app_assoc written). cbn [app map].
    replace (c + 1 + Z.of_nat (length s)) with (c + Z.of_nat (Datatypes.S (length s))) by lia.
    reflexivity.
Qed.

Section Assembly.

Variable to_local_int : global_int_t -> local_int_t.
Variable A : SparseMatrix.
Variables sendList receiveList : neighbor_sets.
Variable totalToBeSent : local_int_t.
Hypothesis Hs : OrdMap.ascending sendList.
Hypothesis Hr : OrdMap.ascending receiveList.
Hypothesis Hkeys : OrdMap.keys sendList = OrdMap.keys receiveList.
Hypothesis Htotal : totalToBeSent = count_entries sendList.

(** One round of the loop of line 123. *)
Lemma assemble_neighbor_assembling (p q : neighbor_sets) (x : Z * OrdSet.t) (st : assembly) :
  receiveList = p ++ x :: q ->
  assembling to_local_int A sendList receiveList totalToBeSent p st ->
  exists st',
    assemble_neighbor to_local_int (localNumberOfRows A) x st = Done st' /\
    assembling to_local_int A sendList receiveList totalToBeSent (p ++ [x]) st'.
Proof.
  intros Heq (Hsl & Hrl & Hcount & Hnb & Hrlen & Hslen & Hext & Hscount & Hels & Hg2l).
  assert (Hx : In x receiveList) by (rewrite Heq; apply in_elt).
  assert (Hkx : In (fst x) (OrdMap.keys receiveList)) by (now apply in_map).
  assert (Hget : OrdMap.get OrdSet.empty (fst x) receiveList = snd x).
  { apply map_get_find. apply map_In_find; [exact Hr|]. now destruct x. }
  assert (Hrest : (length receiveList - length p = Datatypes.S (length q))%nat).
  { rewrite Heq, length_app. simpl. lia. }
  assert (Hrest' : (length receiveList - length (p ++ [x]) = length q)%nat).
  { rewrite Heq, !length_app. simpl. lia. }
  assert (Hsw : send_walk sendList (p ++ [x])
                = send_walk sendList p ++ OrdMap.get OrdSet.empty (fst x) sendList).
  { rewrite send_walk_app. unfold send_walk at 2. simpl. now rewrite app_nil_r. }
  assert (Hall : Z.to_nat totalToBeSent
                 = (length (send_walk sendList (p ++ [x]))
                    + length (send_walk sendList q))%nat).
  { rewrite Htotal, count_entries_walk, Nat2Z.id.
    rewrite <- (send_walk_all sendList receiveList Hs Hkeys).
    rewrite Heq. change (x :: q) with ([x] ++ q).
    now rewrite app_assoc, send_walk_app, length_app. }
  assert (Hroom : (Z.to_nat totalToBeSent - length (send_walk sendList p)
                   = length (OrdMap.get OrdSet.empty (fst x) sendList)
                     + (Z.to_nat totalToBeSent
                        - length (send_walk sendList (p ++ [x]))))%nat).
  { rewrite Hall, Hsw, length_app. lia. }
  unfold assemble_neighbor.
  rewrite Hnb, Hrest, Hcount.
  rewrite store_fill by (now rewrite length_map). cbn [bind].
  rewrite Hrl, (surjective_pairing (OrdMap.subscript OrdSet.empty (fst x) receiveList)).
  rewrite map_subscript_fst, map_subscript_present by exact Hkx.
  rewrite Hrlen, Hrest, store_fill by (now rewrite length_map). cbn [bind].
  rewrite Hsl, (surjective_pairing (OrdMap.subscript OrdSet.empty (fst x) sendList)).
  rewrite map_subscript_fst, map_subscript_present by (now rewrite Hkeys).
  rewrite Hslen, Hrest, store_fill by (now rewrite length_map). cbn [bind].
  change (fold_left (fun st0 g => assign_external to_local_int (localNumberOfRows A) g st0)
            (OrdMap.get OrdSet.empty (fst x) receiveList)
            (as_externalToLocalMap st, as_receiveEntryCount st))
    with (assign_walk to_local_int (localNumberOfRows A)
            (OrdMap.get OrdSet.empty (fst x) receiveList)
            (as_externalToLocalMap st, as_receiveEntryCount st)).
  rewrite Hext, <- assign_walk_app, Hget.
  replace (walk p ++ snd x) with (walk (p ++ [x]))
    by (rewrite walk_app; unfold walk at 2; simpl; now rewrite app_nil_r).
  destruct (assign_walk to_local_int (localNumberOfRows A) (walk (p ++ [x]))
              (OrdMap.empty, 0)) as [ext' rcount'] eqn:Ewalk.
  rewrite Hels, Hroom, Hg2l.
  rewrite record_send_loop by (rewrite Hscount, length_map; reflexivity).
  cbn [bind]. eexists. split; [reflexivity|].
  unfold assembling. cbn [as_sendList as_receiveList as_neighborCount as_neighbors
    as_receiveLength as_sendLength as_externalToLocalMap as_receiveEntryCount
    as_sendEntryCount as_elementsToSend as_globalToLocalMap].
  rewrite Hrest', !map_app, Hsw. cbn [map].
  repeat split; try reflexivity.
  - rewrite length_app. simpl. lia.
  - now symmetry.
  - rewrite Hscount, length_app. lia.
  - rewrite map_app. do 2 f_equal. apply map_ext. intros g.
    now rewrite ensure_keys_get.
  - now rewrite ensure_keys_app.
Qed.

(** Lines 115-135 end. *)
Lemma assemble_assembling :
  exists asm,
    assemble to_local_int A sendList receiveList totalToBeSent = Done asm /\
    assembling to_local_int A sendList receiveList totalToBeSent receiveList asm.
Proof.
  assert (Hlen : length sendList = length receiveList).
  { rewrite <- (length_map fst sendList), <- (length_map fst receiveList).
    exact (f_equal (@length Z) Hkeys). }
  unfold assemble.
  apply (for_each_rule
           (assembling to_local_int A sendList receiveList totalToBeSent)
           (assemble_neighbor to_local_int (localNumberOfRows A)) receiveList []).
  - unfold assembling, new_array, OrdMap.size. simpl.
    rewrite Hlen, !Nat2Z.id, !Nat.sub_0_r. repeat split; reflexivity.
  - intros p x q st Heq Hst. now apply assemble_neighbor_assembling with (q := q).
Qed.

(** Every cell of the four arrays has been written when the loop ends. *)
Lemma assembling_done (asm : assembly) :
  assembling to_local_int A sendList receiveList totalToBeSent receiveList asm ->
  as_sendList asm = sendList /\
  as_neighbors asm = map (fun curNeighbor => Some (fst curNeighbor)) receiveList /\
  as_receiveLength asm
  = map (fun curNeighbor => Some (OrdSet.size (snd curNeighbor))) receiveList /\
  as_sendLength asm
  = map (fun curNeighbor => Some (OrdSet.size (snd curNeighbor))) sendList /\
  as_elementsToSend asm
  = map (fun g => Some (OrdMap.get 0 g (globalToLocalMap A))) (walk sendList) /\
  as_externalToLocalMap asm
  = fst (assign_walk to_local_int (localNumberOfRows A) (walk receiveList)
           (OrdMap.empty, 0)) /\
  as_globalToLocalMap asm = ensure_keys (walk sendList) (globalToLocalMap A).
Proof.
  intros (Hsl & Hrl & Hcount & Hnb & Hrlen & Hslen & Hext & Hscount & Hels & Hg2l).
  rewrite Nat.sub_diag in Hnb, Hrlen, Hslen. simpl in Hnb, Hrlen, Hslen.
  rewrite app_nil_r in Hnb, Hrlen, Hslen.
  rewrite (send_walk_all sendList receiveList Hs Hkeys) in Hels, Hg2l.
  rewrite Htotal, count_entries_walk, Nat2Z.id, Nat.sub_diag in Hels.
  simpl in Hels. rewrite app_nil_r in Hels.
  repeat split; try assumption.
  - rewrite Hslen.
    rewrite <- (map_map (fun curNeighbor => OrdMap.get OrdSet.empty (fst curNeighbor) sendList)
                  (fun s => Some (OrdSet.size s))).
    rewrite (send_sets_aligned sendList receiveList Hs Hkeys).
    now rewrite map_map.
  - now rewrite <- Hext.
Qed.

End Assembly.

(** *** The map of the external indices, lines 128-130 *)

Lemma map_put_put {V : Type} (k : Z) (v v' : V) (m : OrdMap.t V) :
  OrdMap.put k v (OrdMap.put k v' m) = OrdMap.put k v m.
Proof.
  induction m as [|[k0 v0] m IH]; simpl.
  - now rewrite Z.ltb_irrefl, Z.eqb_refl.
  - destruct (Z.ltb_spec k k0) as [Hlt|Hge]; simpl.
    + now rewrite Z.ltb_irrefl, Z.eqb_refl.
    + destruct (Z.eqb_spec k k0) as [->|Hne]; simpl.
      * now rewrite Z.ltb_irrefl, Z.eqb_refl.
      * destruct (Z.ltb_spec k k0); [lia|].
        destruct (Z.eqb_spec k k0); [contradiction|]. now rewrite IH.
Qed.

(** [m[k] = v] *)
Lemma map_put_subscript {V : Type} (d v : V) (k : Z) (m : OrdMap.t V) :
  OrdMap.put k v (snd (OrdMap.subscript d k m)) = OrdMap.put k v m.
Proof.
  unfold OrdMap.subscript. destruct (OrdMap.find k m); simpl; [reflexivity|].
  apply map_put_put.
Qed.

Section ExternalMap.

Variable to_local_int : global_int_t -> local_int_t.
Variable n : local_int_t.

Lemma assign_external_eq (g : global_int_t) (ext : OrdMap.t local_int_t) (c : local_int_t) :
  assign_external to_local_int n g (ext, c)
  = (OrdMap.put (to_local_int g) (n + c) ext, c + 1).
Proof.
  unfold assign_external.
  rewrite (surjective_pairing (OrdMap.subscript 0 (to_local_int g) ext)).
  now rewrite map_put_subscript.
Qed.

Lemma assign_walk_cons (g : global_int_t) (ids : list global_int_t)
  (ext : OrdMap.t local_int_t) (c : local_int_t) :
  assign_walk to_local_int n (g :: ids) (ext, c)
  = assign_walk to_local_int n ids (OrdMap.put (to_local_int g) (n + c) ext, c + 1).
Proof. unfold assign_walk. cbn [fold_left]. now rewrite assign_external_eq. Qed.

Lemma assign_walk_keys (ids : list global_int_t) :
  forall (ext : OrdMap.t local_int_t) (c : local_int_t) (k : Z),
    In k (OrdMap.keys (fst (assign_walk to_local_int n ids (ext, c)))) <->
    In k (map to_local_int ids) \/ In k (OrdMap.keys ext).
Proof.
  induction ids as [|g ids IH]; intros ext c k.
  - simpl. tauto.
  - rewrite assign_walk_cons, IH, map_keys_put. simpl. intuition.
Qed.

Lemma assign_walk_find_other (ids : list global_int_t) :
  forall (ext : OrdMap.t local_int_t) (c : local_int_t) (k : Z),
    ~ In k (map to_local_int ids) ->
    OrdMap.find k (fst (assign_walk to_local_int n ids (ext, c))) = OrdMap.find k ext.
Proof.
  induction ids as [|g ids IH]; intros ext c k Hk.
  - reflexivity.
  - rewrite assign_walk_cons, IH by (intros H; apply Hk; now right).
    apply map_find_put_other. intros ->. apply Hk. now left.
Qed.

(** Without two ids on one key, the [i]-th id met gets the [i]-th index. *)
Lemma assign_walk_find (ids : list global_int_t) :
  forall (ext : OrdMap.t local_int_t) (c : local_int_t) (i : nat) (g : global_int_t),
    NoDup (map to_local_int ids) ->
    nth_error ids i = Some g ->
    OrdMap.find (to_local_int g) (fst (assign_walk to_local_int n ids (ext, c)))
    = Some (n + c + Z.of_nat i).
Proof.
  induction ids as [|g0 ids IH]; intros ext c i g Hnd Hi.
  - destruct i; discriminate.
  - rewrite assign_walk_cons. simpl in Hnd. apply NoDup_cons_iff in Hnd.
    destruct Hnd as [Hnotin Hnd]. destruct i as [|i]; simpl in Hi.
    + injection Hi as ->. rewrite assign_walk_find_other by exact Hnotin.
      rewrite map_find_put_same. f_equal. lia.
    + rewrite (IH _ _ i g Hnd Hi). f_equal. lia.
Qed.

Lemma assign_walk_length (ids : list global_int_t) :
  forall (ext : OrdMap.t local_int_t) (c : local_int_t),
    NoDup (map to_local_int ids) ->
    (forall g, In g ids -> ~ In (to_local_int g) (OrdMap.keys ext)) ->
    length (fst (assign_walk to_local_int n ids (ext, c)))
    = (length ext + length ids)%nat.
Proof.
  induction ids as [|g ids IH]; intros ext c Hnd Hfresh.
  - simpl. lia.
  - rewrite assign_walk_cons. simpl in Hnd. apply NoDup_cons_iff in Hnd.
    destruct Hnd as [Hnotin Hnd]. rewrite IH.
    + rewrite map_length_put_absent by (apply Hfresh; now left). simpl. lia.
    + exact Hnd.
    + intros g' Hg' Hin. apply map_keys_put in Hin. destruct Hin as [E|Hin].
      * apply Hnotin. rewrite <- E. now apply in_map.
      * apply (Hfresh g'); [now right | exact Hin].
Qed.

End ExternalMap.

(** The receive sets of two ranks share no id: an id is in the set of the
    rank that owns it. *)
Lemma walk_NoDup (owner : global_int_t -> Z) (m : neighbor_sets) :
  OrdMap.ascending m ->
  (forall r s, In (r, s) m -> OrdSet.ascending s /\ forall g, In g s -> owner g = r) ->
  NoDup (walk m).
Proof.
  unfold OrdMap.ascending, OrdMap.keys, walk.
  induction m as [|[r s] m IH]; intros Hm Hsets; simpl.
  - constructor.
  - simpl in Hm. apply StronglySorted_inv in Hm. destruct Hm as [Hm Hr].
    rewrite Forall_forall in Hr.
    apply NoDup_app.
    + apply ascending_NoDup. apply (Hsets r s). now left.
    + apply IH; [exact Hm|]. intros r' s' Hin. apply Hsets. now right.
    + intros g Hg Hg'. apply in_concat in Hg'. destruct Hg' as (s' & Hs' & Hgs').
      apply in_map_iff in Hs'. destruct Hs' as ([r' s''] & E & Hin). simpl in E. subst s''.
      assert (owner g = r) by (apply (Hsets r s); [now left | exact Hg]).
      assert (owner g = r') by (apply (Hsets r' s'); [now right | exact Hgs']).
      assert (r < r') by (apply Hr; apply (in_map fst _ _ Hin)). lia.
Qed.

(** *** Lines 141-152 *)

Lemma map_le_refl (m : OrdMap.t local_int_t) : map_le m m.
Proof. split; auto. Qed.

Lemma map_le_trans (m1 m2 m3 : OrdMap.t local_int_t) :
  map_le m1 m2 -> map_le m2 m3 -> map_le m1 m3.
Proof.
  intros [Hg12 Hk12] [Hg23 Hk23]. split.
  - intros k. now rewrite Hg23.
  - auto.
Qed.

Lemma map_subscript_keys {V : Type} (d : V) (k k0 : Z) (m : OrdMap.t V) :
  In k0 (OrdMap.keys (snd (OrdMap.subscript d k m))) <-> k0 = k \/ In k0 (OrdMap.keys m).
Proof.
  unfold OrdMap.subscript. destruct (OrdMap.find k m) eqn:E; simpl.
  - split; [now right|]. intros [->|H]; [|exact H].
    destruct (in_dec Z.eq_dec k (OrdMap.keys m)) as [Hin|Hnot]; [exact Hin|].
    apply map_find_None in Hnot. congruence.
  - apply map_keys_put.
Qed.

Lemma map_le_subscript (k : Z) (m : OrdMap.t local_int_t) :
  map_le m (snd (OrdMap.subscript 0 k m)).
Proof.
  split.
  - intros k0. apply map_subscript_get.
  - intros k0 Hin. apply map_subscript_keys. now right.
Qed.

Lemma ensure_keys_le (ids : list global_int_t) (m : OrdMap.t local_int_t) :
  map_le m (ensure_keys ids m).
Proof.
  unfold ensure_keys. revert m. induction ids as [|g ids IH]; intros m; simpl.
  - apply map_le_refl.
  - eapply map_le_trans; [apply map_le_subscript | apply IH].
Qed.

Lemma load_list_set {T : Type} (a : list T) (k : nat) (x : T) (i : Z) :
  (k < length a)%nat ->
  load (list_set a k x) i = if i =? Z.of_nat k then Done x else load a i.
Proof.
  intros Hk. unfold load. destruct (Z.eqb_spec i (Z.of_nat k)) as [->|Hne].
  - destruct (Z.ltb_spec (Z.of_nat k) 0); [lia|].
    now rewrite Nat2Z.id, nth_error_list_set_same.
  - destruct (Z.ltb_spec i 0); [reflexivity|].
    rewrite nth_error_list_set_other by lia. reflexivity.
Qed.

Lemma map_list_set {T U : Type} (f : T -> U) (a : list T) (k : nat) (x : T) :
  map f (list_set a k x) = list_set (map f a) k (f x).
Proof.
  revert k. induction a as [|y a IH]; intros [|k]; simpl; auto. now rewrite IH.
Qed.

Lemma list_set_same {T : Type} (a : list T) (k : nat) (x : T) :
  nth_error a k = Some x -> list_set a k x = a.
Proof.
  revert k. induction a as [|y a IH]; intros [|k]; simpl; auto.
  - congruence.
  - intros H. now rewrite IH.
Qed.

(** [mtxIndL[i][j] = v] keeps the extents of the rows. *)
Lemma store2_Done (a : list (list local_int_t)) (i j : Z) (v : local_int_t)
  (row : list local_int_t) :
  load a i = Done row -> 0 <= j < Z.of_nat (length row) ->
  exists a',
    store2 a i j v = Done a' /\
    map (@length Z) a' = map (@length Z) a /\
    (forall i', load a' i'
                = if i' =? i then Done (list_set row (Z.to_nat j) v) else load a i').
Proof.
  intros Hrow Hj. pose proof (load_Done_range a i row Hrow) as Hi.
  apply load_Done in Hrow. destruct Hrow as [Hi0 Hnth].
  unfold store2. rewrite (proj2 (load_Done a i row) (conj Hi0 Hnth)). cbn [bind].
  rewrite store_Done by exact Hj. cbn [bind].
  rewrite store_Done by exact Hi.
  eexists. split; [reflexivity|]. split.
  - rewrite map_list_set, length_list_set. apply list_set_same.
    now rewrite nth_error_map, Hnth.
  - intros i'. rewrite load_list_set by lia.
    now replace (Z.of_nat (Z.to_nat i)) with i by lia.
Qed.

Lemma same_extents (a b : list (list local_int_t)) (i : Z) (row : list local_int_t) :
  map (@length Z) a = map (@length Z) b -> load b i = Done row ->
  exists row', load a i = Done row' /\ length row' = length row.
Proof.
  intros Hab Hrow. apply load_Done in Hrow. destruct Hrow as [Hi Hnth].
  assert (H : nth_error (map (@length Z) a) (Z.to_nat i) = Some (length row)).
  { rewrite Hab, nth_error_map, Hnth. reflexivity. }
  rewrite nth_error_map in H.
  destruct (nth_error a (Z.to_nat i)) as [row'|] eqn:E; [|discriminate].
  simpl in H. injection H as H. exists row'. split; [|exact H].
  apply load_Done. auto.
Qed.

Section Rewrite.

Variable to_local_int : global_int_t -> local_int_t.
Variable getRankOfMatrixRow : Geometry -> SparseMatrix -> global_int_t -> Z.
Variable geom : Geometry.
Variable A : SparseMatrix.
Variable externalToLocalMap : OrdMap.t local_int_t.
Hypothesis Hwf : well_formed A = true.
Hypothesis Hext :
  forall row g, referenced A row g -> getRankOfMatrixRow geom A g <> rank geom ->
                In (to_local_int g) (OrdMap.keys externalToLocalMap).

(** One round of the inner loop: the entry [(i, j)]. *)
Lemma rewrite_entry_rewritten (i j cur_nnz : Z) (st : rewriting) :
  0 <= i < localNumberOfRows A ->
  load (nonzerosInRow A) i = Done cur_nnz -> 0 <= j < cur_nnz ->
  rewritten to_local_int getRankOfMatrixRow geom A externalToLocalMap i j st ->
  exists st',
    rewrite_entry to_local_int getRankOfMatrixRow geom A i j st = Done st' /\
    rewritten to_local_int getRankOfMatrixRow geom A externalToLocalMap i (j + 1) st'.
Proof.
  intros Hi Hnnz Hj (Hshape & Hsame & Hle & Hrefs).
  destruct (well_formed_row A i Hwf Hi)
    as (cgr & cur_nnz' & rowG & rowL & Hcgr & Hnnz' & HrowG & HrowL & HlenG & HlenL).
  rewrite Hnnz in Hnnz'. injection Hnnz' as <-.
  destruct (load_in_range rowG j) as [curIndex Hcur]; [lia|].
  assert (Href : reference A i j cgr curIndex).
  { split; [exact Hi|]. split; [exact Hcgr|]. exists cur_nnz, rowG. auto. }
  destruct (same_extents (rw_mtxIndL st) (mtxIndL A) i rowL Hshape HrowL)
    as (rowL' & HrowL' & Hlen').
  assert (Hstore :
            forall l g2l' ext',
              map_le (rw_globalToLocalMap st) g2l' -> ext' = externalToLocalMap ->
              l = local_index to_local_int getRankOfMatrixRow geom A
                    (globalToLocalMap A) externalToLocalMap curIndex ->
              (getRankOfMatrixRow geom A curIndex = rank geom ->
               In curIndex (OrdMap.keys g2l')) ->
              exists st',
                (mtxIndL <- store2 (rw_mtxIndL st) i j l ;;
                 Done {| rw_mtxIndL := mtxIndL;
                         rw_globalToLocalMap := g2l';
                         rw_externalToLocalMap := ext' |}) = Done st' /\
                rewritten to_local_int getRankOfMatrixRow geom A externalToLocalMap
                  i (j + 1) st').
  { intros l g2l' ext' Hle' -> -> Hpresent.
    destruct (store2_Done (rw_mtxIndL st) i j
                (local_index to_local_int getRankOfMatrixRow geom A
                   (globalToLocalMap A) externalToLocalMap curIndex) rowL' HrowL')
      as (a' & Hrun & Hshape' & Hloads); [lia|].
    rewrite Hrun. cbn [bind]. eexists. split; [reflexivity|].
    unfold rewritten. cbn [rw_mtxIndL rw_globalToLocalMap rw_externalToLocalMap].
    split; [now rewrite Hshape'|]. split; [reflexivity|].
    split; [now apply map_le_trans with (m2 := rw_globalToLocalMap st)|].
    intros i' j' row g Href' Hbefore.
    destruct (Z.eq_dec i' i) as [->|Hne].
    - destruct (Z.eq_dec j' j) as [->|Hnej].
      + destruct (reference_functional A _ _ _ _ _ _ Href' Href) as [-> ->].
        split; [|exact Hpresent].
        exists (list_set rowL' (Z.to_nat j)
                  (local_index to_local_int getRankOfMatrixRow geom A
                     (globalToLocalMap A) externalToLocalMap curIndex)).
        split.
        * rewrite Hloads. now rewrite Z.eqb_refl.
        * rewrite load_list_set by lia.
          replace (Z.of_nat (Z.to_nat j)) with j by lia. now rewrite Z.eqb_refl.
      + destruct (Hrefs i j' row g Href') as [(rowL0 & Hl0 & Hv) Hk]; [right; lia|].
        rewrite HrowL' in Hl0. injection Hl0 as <-.
        split; [|intros Hown; apply Hle'; now apply Hk].
        eexists. split; [rewrite Hloads; now rewrite Z.eqb_refl|].
        rewrite load_list_set by lia.
        destruct (Z.eqb_spec j' (Z.of_nat (Z.to_nat j))); [lia | exact Hv].
    - destruct (Hrefs i' j' row g Href') as [(rowL0 & Hl0 & Hv) Hk]; [left; lia|].
      split; [|intros Hown; apply Hle'; now apply Hk].
      exists rowL0. split; [|exact Hv].
      rewrite Hloads. destruct (Z.eqb_spec i' i); [contradiction | exact Hl0]. }
  unfold rewrite_entry. rewrite HrowG. cbn [bind]. rewrite Hcur. cbn [bind].
  destruct (Z.eqb_spec (rank geom) (getRankOfMatrixRow geom A curIndex)) as [Hme|Hother].
  - rewrite (surjective_pairing (OrdMap.subscript 0 curIndex (rw_globalToLocalMap st))).
    lazy beta iota. apply Hstore.
    + apply map_le_subscript.
    + exact Hsame.
    + unfold local_index. rewrite map_subscript_fst.
      destruct (Z.eqb_spec (rank geom) (getRankOfMatrixRow geom A curIndex));
        [|contradiction].
      apply Hle.
    + intros _. apply map_subscript_keys. now left.
  - assert (Hkey : In (to_local_int curIndex) (OrdMap.keys (rw_externalToLocalMap st))).
    { rewrite Hsame. apply (Hext cgr); [now exists i, j | congruence]. }
    rewrite (surjective_pairing
               (OrdMap.subscript 0 (to_local_int curIndex) (rw_externalToLocalMap st))).
    lazy beta iota. apply Hstore.
    + apply map_le_refl.
    + now rewrite map_subscript_present.
    + unfold local_index. rewrite map_subscript_fst, Hsame.
      destruct (Z.eqb_spec (rank geom) (getRankOfMatrixRow geom A curIndex));
        [contradiction | reflexivity].
    + intros Hown. congruence.
Qed.

Lemma rewritten_ext (i j i' j' : Z) (st : rewriting) :
  (forall i0 j0 row g, reference A i0 j0 row g ->
                       i0 < i' \/ (i0 = i' /\ j0 < j') -> i0 < i \/ (i0 = i /\ j0 < j)) ->
  rewritten to_local_int getRankOfMatrixRow geom A externalToLocalMap i j st ->
  rewritten to_local_int getRankOfMatrixRow geom A externalToLocalMap i' j' st.
Proof.
  intros Himp (Hshape & Hsame & Hle & Hrefs).
  unfold rewritten. do 3 (split; [assumption|]).
  intros i0 j0 row g Href Hbefore. apply (Hrefs i0 j0 row g Href).
  now apply (Himp i0 j0 row g).
Qed.

(** One round of the outer loop: row [i]. *)
Lemma rewrite_row_rewritten (i : Z) (st : rewriting) :
  0 <= i < localNumberOfRows A ->
  rewritten to_local_int getRankOfMatrixRow geom A externalToLocalMap i 0 st ->
  exists st',
    rewrite_row to_local_int getRankOfMatrixRow geom A i st = Done st' /\
    rewritten to_local_int getRankOfMatrixRow geom A externalToLocalMap (i + 1) 0 st'.
Proof.
  intros Hi Hinv.
  destruct (well_formed_row A i Hwf Hi)
    as (cgr & cur_nnz & rowG & rowL & Hcgr & Hnnz & HrowG & HrowL & HlenG & HlenL).
  unfold rewrite_row. rewrite Hnnz. cbn [bind].
  destruct (for_upto_rule
              (fun j s => rewritten to_local_int getRankOfMatrixRow geom A
                            externalToLocalMap i j s)
              (rewrite_entry to_local_int getRankOfMatrixRow geom A i)
              cur_nnz st Hinv) as (st' & Hrun & Hend).
  - intros j s Hj Hs. now apply rewrite_entry_rewritten with (cur_nnz := cur_nnz).
  - exists st'. split; [exact Hrun|].
    apply rewritten_ext with (i := i) (j := Z.max 0 cur_nnz); [|exact Hend].
    intros i0 j0 row g Href Hbefore.
    destruct Href as (_ & _ & c & rw & Hc & Hj & _).
    destruct (Z.eq_dec i0 i) as [->|Hne]; [right | left; lia].
    split; [reflexivity|]. rewrite Hnnz in Hc. injection Hc as <-. lia.
Qed.

(** The loop of line 141 ends; every reference then has its local index. *)
Lemma rewrite_indices_rewritten (st : rewriting) :
  rewritten to_local_int getRankOfMatrixRow geom A externalToLocalMap 0 0 st ->
  exists st',
    rewrite_indices to_local_int getRankOfMatrixRow geom A st = Done st' /\
    rewritten to_local_int getRankOfMatrixRow geom A externalToLocalMap
      (localNumberOfRows A) 0 st'.
Proof.
  intros Hinv. unfold rewrite_indices.
  destruct (for_upto_rule
              (fun i s => rewritten to_local_int getRankOfMatrixRow geom A
                            externalToLocalMap i 0 s)
              (rewrite_row to_local_int getRankOfMatrixRow geom A)
              (localNumberOfRows A) st Hinv) as (st' & Hrun & Hend).
  - intros i s Hi Hs. now apply rewrite_row_rewritten.
  - exists st'. split; [exact Hrun|].
    apply rewritten_ext with (i := Z.max 0 (localNumberOfRows A)) (j := 0); [|exact Hend].
    intros i0 j0 row g Href Hbefore. destruct Href as (Hi0 & _). lia.
Qed.

End Rewrite.

(** *** The whole function *)

Lemma get_In_walk (m : neighbor_sets) (r : Z) (g : global_int_t) :
  In g (OrdMap.get OrdSet.empty r m) -> In g (walk m).
Proof.
  unfold OrdMap.get. destruct (OrdMap.find r m) as [s|] eqn:E; [|contradiction].
  intros Hg. apply map_find_Some_In in E.
  unfold walk. apply in_concat. exists s. split; [|exact Hg].
  apply (in_map snd _ _ E).
Qed.

Lemma In_walk_get (m : neighbor_sets) (g : global_int_t) :
  OrdMap.ascending m -> In g (walk m) ->
  exists r, In g (OrdMap.get OrdSet.empty r m).
Proof.
  intros Hm Hg. unfold walk in Hg. apply in_concat in Hg.
  destruct Hg as (s & Hs & Hg). apply in_map_iff in Hs.
  destruct Hs as ([r s'] & E & Hin). simpl in E. subst s'.
  exists r. now rewrite (map_get_find OrdSet.empty r m s (map_In_find r s m Hm Hin)).
Qed.

Section Whole.

Variable to_local_int : global_int_t -> local_int_t.
Variable getRankOfMatrixRow : Geometry -> SparseMatrix -> global_int_t -> Z.

(** [SetupHalo] ends on a well-formed matrix, with the plan that
    [halo_plan] describes. *)
Lemma SetupHalo_locals_plan (DEBUG : bool) (geom : Geometry) (A : SparseMatrix) :
  well_formed A = true ->
  assertions_pass getRankOfMatrixRow DEBUG geom A = true ->
  exists sendList receiveList A' ext,
    dependency_scan getRankOfMatrixRow geom A = Done (sendList, receiveList) /\
    scanned (rank geom) (getRankOfMatrixRow geom A) (referenced A)
      (sendList, receiveList) /\
    SetupHalo_locals to_local_int getRankOfMatrixRow DEBUG geom A = Done (A', ext) /\
    halo_plan to_local_int getRankOfMatrixRow geom A sendList receiveList A' ext.
Proof.
  intros Hwf Hpass.
  destruct (dependency_scan_scanned getRankOfMatrixRow geom A Hwf)
    as ([sendList receiveList] & Hscan & Hscanned).
  pose proof Hscanned as (Hs & Hr & Hkeys & Hsets & Hrets & Hrecv & Hsend).
  destruct (assemble_assembling to_local_int A sendList receiveList
              (count_entries sendList) Hs Hr Hkeys eq_refl) as (asm & Hasm & Hinv).
  destruct (assembling_done to_local_int A sendList receiveList
              (count_entries sendList) Hs Hkeys eq_refl asm Hinv)
    as (Hasl & Hnb & Hrlen & Hslen & Hels & Hext & Hg2l).
  set (ext := fst (assign_walk to_local_int (localNumberOfRows A) (walk receiveList)
                     (OrdMap.empty, 0))) in *.
  destruct (rewrite_indices_rewritten to_local_int getRankOfMatrixRow geom A ext Hwf)
    with (st := {| rw_mtxIndL := mtxIndL A;
                   rw_globalToLocalMap := as_globalToLocalMap asm;
                   rw_externalToLocalMap := as_externalToLocalMap asm |})
    as (rw & Hrw & Hrinv).
  - intros row g Href Hown. apply assign_walk_keys. left. apply in_map.
    apply get_In_walk with (r := getRankOfMatrixRow geom A g).
    apply Hrecv. split; [exact Hown|]. split; [reflexivity|]. now exists row.
  - unfold rewritten. cbn [rw_mtxIndL rw_globalToLocalMap rw_externalToLocalMap].
    split; [reflexivity|]. split; [exact Hext|].
    split; [rewrite Hg2l; apply ensure_keys_le|].
    intros i' j' row g Href Hbefore. exfalso.
    destruct Href as (Hi & _ & c & rw & _ & Hj & _). lia.
  - pose proof Hrinv as (Hshape & Hsame & Hle & Hrefs).
    exists sendList, receiveList. eexists. exists ext.
    split; [exact Hscan|]. split; [exact Hscanned|]. split.
    + unfold SetupHalo_locals. rewrite Hscan. cbn [bind].
      replace (if DEBUG
               then assert (debug_assertions sendList receiveList
                              (count_entries sendList) (count_entries receiveList))
               else Done tt) with (Done tt).
      * cbn [bind]. rewrite Hasm. cbn [bind]. rewrite Hrw. cbn [bind].
        rewrite Hsame. reflexivity.
      * unfold assertions_pass in Hpass. rewrite Hscan in Hpass.
        destruct DEBUG; [|reflexivity]. simpl in Hpass. now rewrite Hpass.
    + unfold halo_plan.
      cbn [localNumberOfRows localNumberOfColumns nonzerosInRow mtxIndG mtxIndL
             globalToLocalMap localToGlobalMap numberOfExternalValues
             numberOfSendNeighbors totalToBeSent elementsToSend neighbors
             receiveLength sendLength sendBuffer].
      split; [reflexivity|].
      split; [destruct rw; cbn in *; subst; exact Hrinv|].
      rewrite Hasl, Hnb, Hrlen, Hslen, Hels, count_entries_walk.
      unfold new_array. rewrite Nat2Z.id.
      repeat split; reflexivity.
Qed.

End Whole.

(** *** The references as lists *)

Lemma reference_row_columns (A : SparseMatrix) (i j : Z) (row g : global_int_t) :
  reference A i j row g -> In g (row_columns A (Z.to_nat i)).
Proof.
  intros (Hi & _ & c & rw & Hc & Hj & Hrw & Hg).
  apply load_Done in Hc, Hrw, Hg. destruct Hc as [_ Hc], Hrw as [_ Hrw], Hg as [_ Hg].
  unfold row_columns.
  rewrite (nth_error_nth _ _ 0 Hc), (nth_error_nth _ _ [] Hrw).
  apply nth_error_In with (n := Z.to_nat j).
  rewrite nth_error_firstn.
  destruct (Nat.ltb_spec (Z.to_nat j) (Z.to_nat c)); [exact Hg | lia].
Qed.

Lemma referenced_remote_columns
  (getRankOfMatrixRow : Geometry -> SparseMatrix -> global_int_t -> Z)
  (geom : Geometry) (A : SparseMatrix) (row g : global_int_t) :
  referenced A row g -> getRankOfMatrixRow geom A g <> rank geom ->
  In g (remote_columns getRankOfMatrixRow geom A).
Proof.
  intros (i & j & Href) Hown. unfold remote_columns. apply filter_In. split.
  - apply in_concat. exists (row_columns A (Z.to_nat i)). split.
    + unfold local_rows. rewrite map_map. simpl.
      apply (in_map (row_columns A)). apply in_seq. destruct Href as (Hi & _). lia.
    + now apply reference_row_columns with (j := j) (row := row).
  - destruct (Z.eqb_spec (rank geom) (getRankOfMatrixRow geom A g)); [congruence | reflexivity].
Qed.

Lemma sum_cells_sizes (m : neighbor_sets) :
  sum_cells (map (fun curNeighbor => Some (OrdSet.size (snd curNeighbor))) m)
  = Z.of_nat (length (walk m)).
Proof.
  unfold walk, OrdSet.size. induction m as [|[r s] m IH]; simpl.
  - reflexivity.
  - rewrite IH, length_app. lia.
Qed.

(** The ids of the receive sets are the remote columns of the references,
    each once. *)
Lemma scanned_walk (me : Z) (owner : global_int_t -> Z)
  (seen : global_int_t -> global_int_t -> Prop) (sendList receiveList : neighbor_sets) :
  scanned me owner seen (sendList, receiveList) ->
  NoDup (walk receiveList) /\
  (forall g, In g (walk receiveList) <-> owner g <> me /\ exists row, seen row g).
Proof.
  intros (Hs & Hr & Hkeys & Hsets & Hrets & Hrecv & Hsend). split.
  - apply walk_NoDup with (owner := owner); [exact Hr|].
    intros r s Hin. split; [now apply (Hrets r s)|].
    intros g Hg. apply (Hrecv r g).
    now rewrite (map_get_find OrdSet.empty r receiveList s (map_In_find r s _ Hr Hin)).
  - intros g. split.
    + intros Hg. apply In_walk_get in Hg; [|exact Hr]. destruct Hg as (r & Hg).
      apply Hrecv in Hg. destruct Hg as (Hne & Hown & Hrow). split; [congruence | exact Hrow].
    + intros (Hne & Hrow). apply get_In_walk with (r := owner g). apply Hrecv. auto.
Qed.

(** ** The properties of the plan *)

Section Plan.

Variable to_local_int : global_int_t -> local_int_t.
Variable getRankOfMatrixRow : Geometry -> SparseMatrix -> global_int_t -> Z.

Lemma SetupHalo_plan (DEBUG : bool) (geom : Geometry) (A : SparseMatrix) :
  well_formed A = true ->
  assertions_pass getRankOfMatrixRow DEBUG geom A = true ->
  exists sendList receiveList A' ext,
    dependency_scan getRankOfMatrixRow geom A = Done (sendList, receiveList) /\
    scanned (rank geom) (getRankOfMatrixRow geom A) (referenced A)
      (sendList, receiveList) /\
    SetupHalo_locals to_local_int getRankOfMatrixRow DEBUG geom A = Done (A', ext) /\
    SetupHalo to_local_int getRankOfMatrixRow DEBUG geom A = Done A' /\
    halo_plan to_local_int getRankOfMatrixRow geom A sendList receiveList A' ext.
Proof.
  intros Hwf Hpass.
  destruct (SetupHalo_locals_plan to_local_int getRankOfMatrixRow DEBUG geom A Hwf Hpass)
    as (sendList & receiveList & A' & ext & Hscan & Hscanned & Hrun & Hplan).
  exists sendList, receiveList, A', ext.
  do 3 (split; [assumption|]). split; [|exact Hplan].
  unfold SetupHalo. now rewrite Hrun.
Qed.

(** C7: when [SetupHalo] has run, [localNumberOfColumns] is
    [localNumberOfRows] plus [numberOfExternalValues] (lines 155-156). *)
Theorem columns_are_rows_plus_externals (DEBUG : bool) (geom : Geometry) (A : SparseMatrix) :
  well_formed A = true ->
  assertions_pass getRankOfMatrixRow DEBUG geom A = true ->
  exists A',
    SetupHalo to_local_int getRankOfMatrixRow DEBUG geom A = Done A' /\
    localNumberOfColumns A' = localNumberOfRows A' + numberOfExternalValues A'.
Proof.
  intros Hwf Hpass.
  destruct (SetupHalo_plan DEBUG geom A Hwf Hpass)
    as (sendList & receiveList & A' & ext & _ & _ & _ & Hrun & Hplan).
  destruct Hplan as (_ & _ & Hrows & _ & _ & _ & Hnext & Hcols & _).
  exists A'. split; [exact Hrun|]. now rewrite Hcols, Hrows, Hnext.
Qed.

(** Without an empty set in the map, a rank has a set that is not empty
    exactly when it is a key. *)
Lemma get_not_empty (m : neighbor_sets) (r : Z) :
  (forall r s, In (r, s) m -> OrdSet.ascending s /\ s <> []) ->
  OrdMap.get OrdSet.empty r m <> [] <-> In r (OrdMap.keys m).
Proof.
  intros Hsets. unfold OrdMap.get. destruct (OrdMap.find r m) as [s|] eqn:E.
  - apply map_find_Some_In in E. split.
    + intros _. apply (in_map fst _ _ E).
    + intros _. now apply (Hsets r s).
  - apply map_find_None in E. split; [intros H; now contradiction H | contradiction].
Qed.

(** C4: what a round of the scan does to the two maps, and what the maps
    hold when the scan ends.  A column of this process changes nothing; a
    column of another rank joins the receive set of that rank, and the
    global id of the row its send set.  At the end the receive set of a
    rank holds the remote column ids it owns that some local row refers to,
    and its send set the global ids of the local rows that refer to one of
    its columns, each once (lines 76-90). *)
Theorem dependency_sets (geom : Geometry) (A : SparseMatrix) :
  well_formed A = true ->
  (forall row g lists,
      getRankOfMatrixRow geom A g = rank geom ->
      scan_entry getRankOfMatrixRow geom A row g lists = lists) /\
  (forall row g sendList receiveList sendList' receiveList',
      getRankOfMatrixRow geom A g <> rank geom ->
      scan_entry getRankOfMatrixRow geom A row g (sendList, receiveList)
      = (sendList', receiveList') ->
      forall r x,
        (In x (OrdMap.get OrdSet.empty r receiveList') <->
         (r = getRankOfMatrixRow geom A g /\ x = g)
         \/ In x (OrdMap.get OrdSet.empty r receiveList)) /\
        (In x (OrdMap.get OrdSet.empty r sendList') <->
         (r = getRankOfMatrixRow geom A g /\ x = row)
         \/ In x (OrdMap.get OrdSet.empty r sendList))) /\
  exists sendList receiveList,
    dependency_scan getRankOfMatrixRow geom A = Done (sendList, receiveList) /\
    (forall r g,
        In g (OrdMap.get OrdSet.empty r receiveList) <->
        r <> rank geom /\ getRankOfMatrixRow geom A g = r /\
        exists row, referenced A row g) /\
    (forall r row,
        In row (OrdMap.get OrdSet.empty r sendList) <->
        r <> rank geom /\
        exists g, getRankOfMatrixRow geom A g = r /\ referenced A row g) /\
    (forall r, NoDup (OrdMap.get OrdSet.empty r receiveList) /\
               NoDup (OrdMap.get OrdSet.empty r sendList)).
Proof.
  clear to_local_int. intros Hwf. split; [|split].
  - intros row g [sendList receiveList] Hown. unfold scan_entry.
    destruct (Z.eqb_spec (rank geom) (getRankOfMatrixRow geom A g));
      [reflexivity | congruence].
  - intros row g sendList receiveList sendList' receiveList' Hown Hstep r x.
    unfold scan_entry in Hstep.
    destruct (Z.eqb_spec (rank geom) (getRankOfMatrixRow geom A g)); [congruence|].
    simpl in Hstep. injection Hstep as <- <-.
    rewrite !insert_at_get.
    destruct (Z.eqb_spec r (getRankOfMatrixRow geom A g)) as [->|Hne].
    + rewrite !set_insert_In. tauto.
    + tauto.
  - destruct (dependency_scan_scanned getRankOfMatrixRow geom A Hwf)
      as ([sendList receiveList] & Hscan & Hscanned).
    destruct Hscanned as (Hs & Hr & Hkeys & Hsets & Hrets & Hrecv & Hsend).
    exists sendList, receiveList.
    split; [exact Hscan|]. split; [exact Hrecv|]. split; [exact Hsend|].
    intros r. split; apply ascending_NoDup; now apply scanned_get_ascending.
Qed.

(** C9: the two maps of the scan have the same ranks, a rank has a send set
    that is not empty exactly when its receive set is not empty, and every
    neighbor of the plan has at least one entry to send and one to receive
    (lines 85-88 and 117-127). *)
Theorem neighbors_send_and_receive (DEBUG : bool) (geom : Geometry) (A : SparseMatrix) :
  well_formed A = true ->
  assertions_pass getRankOfMatrixRow DEBUG geom A = true ->
  exists sendList receiveList A',
    dependency_scan getRankOfMatrixRow geom A = Done (sendList, receiveList) /\
    OrdMap.keys sendList = OrdMap.keys receiveList /\
    (forall r, OrdMap.get OrdSet.empty r sendList <> []
               <-> OrdMap.get OrdSet.empty r receiveList <> []) /\
    SetupHalo to_local_int getRankOfMatrixRow DEBUG geom A = Done A' /\
    forall i, 0 <= i < numberOfSendNeighbors A' ->
              exists r s l,
                load (neighbors A') i = Done (Some r) /\
                load (sendLength A') i = Done (Some s) /\
                load (receiveLength A') i = Done (Some l) /\
                1 <= s /\ 1 <= l.
Proof.
  intros Hwf Hpass.
  destruct (SetupHalo_plan DEBUG geom A Hwf Hpass)
    as (sendList & receiveList & A' & ext & Hscan & Hscanned & _ & Hrun & Hplan).
  destruct Hscanned as (Hs & Hr & Hkeys & Hsets & Hrets & Hrecv & Hsend).
  destruct Hplan as (_ & _ & _ & _ & _ & _ & _ & _ & Hnsend & _ & Hnb & Hrlen & Hslen & _).
  exists sendList, receiveList, A'.
  split; [exact Hscan|]. split; [exact Hkeys|]. split.
  { intros r. now rewrite !get_not_empty, Hkeys by assumption. }
  split; [exact Hrun|].
  intros i Hi. rewrite Hnsend in Hi. unfold OrdMap.size in Hi.
  assert (Hlen : length sendList = length receiveList).
  { rewrite <- (length_map fst sendList), <- (length_map fst receiveList).
    exact (f_equal (@length Z) Hkeys). }
  destruct (nth_error sendList (Z.to_nat i)) as [[r' s]|] eqn:Es;
    [|apply nth_error_None in Es; lia].
  destruct (nth_error receiveList (Z.to_nat i)) as [[r l]|] eqn:Er;
    [|apply nth_error_None in Er; lia].
  exists r, (OrdSet.size s), (OrdSet.size l).
  rewrite Hnb, Hslen, Hrlen.
  repeat split.
  - apply load_Done. split; [lia|]. now rewrite nth_error_map, Er.
  - apply load_Done. split; [lia|]. now rewrite nth_error_map, Es.
  - apply load_Done. split; [lia|]. now rewrite nth_error_map, Er.
  - apply nth_error_In in Es. apply Hsets in Es. destruct Es as [_ Hne].
    unfold OrdSet.size. destruct s; [contradiction | simpl; lia].
  - apply nth_error_In in Er. apply Hrets in Er. destruct Er as [_ Hne].
    unfold OrdSet.size. destruct l; [contradiction | simpl; lia].
Qed.

(** The ranks of the maps of the scan are the neighbor ranks. *)
Lemma scanned_keys (geom : Geometry) (A : SparseMatrix)
  (sendList receiveList : neighbor_sets) (r : Z) :
  scanned (rank geom) (getRankOfMatrixRow geom A) (referenced A)
    (sendList, receiveList) ->
  In r (OrdMap.keys receiveList) <-> neighbor_rank getRankOfMatrixRow geom A r.
Proof.
  intros (Hs & Hr & Hkeys & Hsets & Hrets & Hrecv & Hsend).
  rewrite <- (get_not_empty receiveList r Hrets). unfold neighbor_rank. split.
  - intros Hne. destruct (OrdMap.get OrdSet.empty r receiveList) as [|g s] eqn:E;
      [contradiction|].
    assert (Hg : In g (OrdMap.get OrdSet.empty r receiveList)) by (rewrite E; now left).
    apply Hrecv in Hg. destruct Hg as (Hme & Hown & row & Hrow).
    split; [exact Hme|]. now exists row, g.
  - intros (Hme & row & g & Hrow & Hown) Hempty.
    assert (Hg : In g (OrdMap.get OrdSet.empty r receiveList)).
    { apply Hrecv. split; [exact Hme|]. split; [exact Hown|]. now exists row. }
    rewrite Hempty in Hg. contradiction.
Qed.

(** C6: the array [neighbors] holds the neighbor ranks in strictly
    ascending order, each once; and a second run, on a matrix that has the
    same neighbor ranks, fills the array in the same way, whatever the
    order in which its references come (lines 117-125). *)
Theorem neighbors_ascending (DEBUG : bool) (geom : Geometry) (A : SparseMatrix)
  (DEBUG2 : bool) (geom2 : Geometry) (A2 : SparseMatrix) :
  well_formed A = true ->
  assertions_pass getRankOfMatrixRow DEBUG geom A = true ->
  well_formed A2 = true ->
  assertions_pass getRankOfMatrixRow DEBUG2 geom2 A2 = true ->
  exists ranks A',
    SetupHalo to_local_int getRankOfMatrixRow DEBUG geom A = Done A' /\
    neighbors A' = map Some ranks /\
    StronglySorted Z.lt ranks /\
    NoDup ranks /\
    (forall r, In r ranks <-> neighbor_rank getRankOfMatrixRow geom A r) /\
    ((forall r, neighbor_rank getRankOfMatrixRow geom A r
                <-> neighbor_rank getRankOfMatrixRow geom2 A2 r) ->
     exists A2',
       SetupHalo to_local_int getRankOfMatrixRow DEBUG2 geom2 A2 = Done A2' /\
       neighbors A2' = neighbors A').
Proof.
  intros Hwf Hpass Hwf2 Hpass2.
  destruct (SetupHalo_plan DEBUG geom A Hwf Hpass)
    as (sendList & receiveList & A' & ext & Hscan & Hscanned & _ & Hrun & Hplan).
  destruct (SetupHalo_plan DEBUG2 geom2 A2 Hwf2 Hpass2)
    as (sendList2 & receiveList2 & A2' & ext2 & Hscan2 & Hscanned2 & _ & Hrun2 & Hplan2).
  pose proof (fun r => scanned_keys geom A sendList receiveList r Hscanned) as Hranks.
  pose proof (fun r => scanned_keys geom2 A2 sendList2 receiveList2 r Hscanned2)
    as Hranks2.
  destruct Hscanned as (Hs & Hr & Hkeys & Hsets & Hrets & Hrecv & Hsend).
  destruct Hscanned2 as (Hs2 & Hr2 & Hkeys2 & Hsets2 & Hrets2 & Hrecv2 & Hsend2).
  destruct Hplan as (_ & _ & _ & _ & _ & _ & _ & _ & _ & _ & Hnb & _).
  destruct Hplan2 as (_ & _ & _ & _ & _ & _ & _ & _ & _ & _ & Hnb2 & _).
  assert (Hmap : forall m : neighbor_sets,
             map (fun curNeighbor => Some (fst curNeighbor)) m
             = map Some (OrdMap.keys m)).
  { intros m. unfold OrdMap.keys. now rewrite map_map. }
  exists (OrdMap.keys receiveList), A'.
  split; [exact Hrun|]. split; [now rewrite Hnb, Hmap|].
  split; [exact Hr|]. split; [now apply ascending_NoDup|].
  split; [exact Hranks|].
  intros Hsame. exists A2'. split; [exact Hrun2|].
  rewrite Hnb, Hnb2, !Hmap. f_equal.
  apply ascending_unique; [exact Hr2 | exact Hr |].
  intros r. rewrite Hranks, Hranks2. symmetry. apply Hsame.
Qed.

(** C5: [elementsToSend] has [totalToBeSent] cells, the sum of the send
    lengths; it lists the send sets neighbor by neighbor, in the order of
    [neighbors], that is by ascending rank, and inside a set by ascending
    global row id; a cell holds what [globalToLocalMap] gives for the row
    id.  [sendBuffer] has [totalToBeSent] cells, none of them written
    (lines 114-135). *)
Theorem elementsToSend_flattened (DEBUG : bool) (geom : Geometry) (A : SparseMatrix) :
  well_formed A = true ->
  assertions_pass getRankOfMatrixRow DEBUG geom A = true ->
  exists sendList receiveList A',
    dependency_scan getRankOfMatrixRow geom A = Done (sendList, receiveList) /\
    SetupHalo to_local_int getRankOfMatrixRow DEBUG geom A = Done A' /\
    neighbors A' = map (fun curNeighbor => Some (fst curNeighbor)) sendList /\
    sendLength A'
    = map (fun curNeighbor => Some (OrdSet.size (snd curNeighbor))) sendList /\
    OrdMap.ascending sendList /\
    (forall r s, In (r, s) sendList -> OrdSet.ascending s) /\
    elementsToSend A'
    = flat_map (fun curNeighbor =>
                  map (fun g => Some (OrdMap.get 0 g (globalToLocalMap A)))
                    (snd curNeighbor)) sendList /\
    Z.of_nat (length (elementsToSend A')) = totalToBeSent A' /\
    totalToBeSent A' = sum_cells (sendLength A') /\
    sendBuffer A' = new_array double (totalToBeSent A') /\
    (ownership_map_correct A ->
     forall c, In c (elementsToSend A') ->
               exists i row,
                 c = Some i /\ 0 <= i < localNumberOfRows A /\
                 load (localToGlobalMap A) i = Done row /\ In row (walk sendList)).
Proof.
  intros Hwf Hpass.
  destruct (SetupHalo_plan DEBUG geom A Hwf Hpass)
    as (sendList & receiveList & A' & ext & Hscan & Hscanned & _ & Hrun & Hplan).
  destruct Hscanned as (Hs & Hr & Hkeys & Hsets & Hrets & Hrecv & Hsend).
  destruct Hplan as (_ & _ & _ & _ & _ & _ & _ & _ & _ & Htotal & Hnb & _ & Hslen
                     & Hels & Hbuf).
  exists sendList, receiveList, A'.
  split; [exact Hscan|]. split; [exact Hrun|].
  split.
  { rewrite Hnb.
    rewrite <- (map_map fst Some sendList), <- (map_map fst Some receiveList).
    f_equal. symmetry. exact Hkeys. }
  split; [exact Hslen|]. split; [exact Hs|].
  split; [intros r s Hin; now apply (Hsets r s)|].
  split.
  { rewrite Hels. unfold walk. rewrite concat_map, map_map.
    now rewrite flat_map_concat_map. }
  split; [now rewrite Hels, length_map, Htotal|].
  split; [now rewrite Htotal, Hslen, sum_cells_sizes|].
  split; [rewrite Hbuf, Htotal; unfold new_array; now rewrite Nat2Z.id|].
  intros Hmap c Hc. rewrite Hels in Hc. apply in_map_iff in Hc.
  destruct Hc as (row & <- & Hrow).
  destruct (In_walk_get sendList row Hs Hrow) as (r & Hin).
  apply Hsend in Hin. destruct Hin as (_ & g & _ & i & j & Href).
  pose proof Href as (Hi & Hload & _).
  exists i, row. split; [|auto].
  f_equal. apply map_get_find. now apply Hmap.
Qed.

(** The map of the external indices when no two ids of the receive sets
    share a key. *)
Lemma external_map_indices (geom : Geometry) (A : SparseMatrix)
  (sendList receiveList : neighbor_sets) :
  scanned (rank geom) (getRankOfMatrixRow geom A) (referenced A)
    (sendList, receiveList) ->
  distinct_keys to_local_int (remote_columns getRankOfMatrixRow geom A) ->
  let ext := fst (assign_walk to_local_int (localNumberOfRows A) (walk receiveList)
                    (OrdMap.empty, 0)) in
  (forall k g, nth_error (walk receiveList) k = Some g ->
               OrdMap.find (to_local_int g) ext
               = Some (localNumberOfRows A + Z.of_nat k)) /\
  OrdMap.size ext = Z.of_nat (length (walk receiveList)) /\
  (forall key v, OrdMap.find key ext = Some v ->
                 exists k g, nth_error (walk receiveList) k = Some g /\
                             key = to_local_int g /\
                             v = localNumberOfRows A + Z.of_nat k).
Proof.
  intros Hscanned Hkeys ext.
  destruct (scanned_walk _ _ _ _ _ Hscanned) as [Hnd Hwalk].
  assert (Hndk : NoDup (map to_local_int (walk receiveList))).
  { apply Injective_map_NoDup_in; [|exact Hnd].
    intros g g' Hg Hg'. apply Hkeys.
    - apply Hwalk in Hg. destruct Hg as (Hown & row & Hrow).
      now apply referenced_remote_columns with (row := row).
    - apply Hwalk in Hg'. destruct Hg' as (Hown & row & Hrow).
      now apply referenced_remote_columns with (row := row). }
  assert (Hfind : forall k g, nth_error (walk receiveList) k = Some g ->
                              OrdMap.find (to_local_int g) ext
                              = Some (localNumberOfRows A + Z.of_nat k)).
  { intros k g Hk. unfold ext.
    rewrite (assign_walk_find to_local_int (localNumberOfRows A) (walk receiveList)
               OrdMap.empty 0 k g Hndk Hk).
    f_equal. lia. }
  split; [exact Hfind|]. split.
  - unfold OrdMap.size, ext. rewrite assign_walk_length; [reflexivity | exact Hndk |].
    intros g _ [].
  - intros key v Hv.
    assert (Hin : In key (OrdMap.keys ext)).
    { apply map_find_Some_In in Hv. apply (in_map fst _ _ Hv). }
    apply assign_walk_keys in Hin. destruct Hin as [Hin|[]].
    apply in_map_iff in Hin. destruct Hin as (g & <- & Hg).
    apply In_nth_error in Hg. destruct Hg as [k Hk].
    exists k, g. split; [exact Hk|]. split; [reflexivity|].
    rewrite (Hfind k g Hk) in Hv. congruence.
Qed.

(** The external indices when the keys are distinct.  The loop of lines
    123-130 walks the neighbor ranks in ascending order and, for each, the
    ids of its receive set in ascending order; the id met in position [k]
    of the whole walk gets the index [localNumberOfRows + k].  The indices
    given are the
    [numberOfExternalValues] integers from [localNumberOfRows] on, and two
    remote column ids never get the same one.  The ids are looked up by
    their [local_int_t] key: the statement is for the runs in which no two
    remote column ids share a key. *)
Theorem external_indices_contiguous (DEBUG : bool) (geom : Geometry) (A : SparseMatrix) :
  well_formed A = true ->
  assertions_pass getRankOfMatrixRow DEBUG geom A = true ->
  distinct_keys to_local_int (remote_columns getRankOfMatrixRow geom A) ->
  exists receiveList A' ext,
    (exists sendList,
        dependency_scan getRankOfMatrixRow geom A = Done (sendList, receiveList)) /\
    SetupHalo_locals to_local_int getRankOfMatrixRow DEBUG geom A = Done (A', ext) /\
    neighbors A' = map (fun curNeighbor => Some (fst curNeighbor)) receiveList /\
    OrdMap.ascending receiveList /\
    (forall r s, In (r, s) receiveList -> OrdSet.ascending s) /\
    (forall g, In g (walk receiveList) <->
               getRankOfMatrixRow geom A g <> rank geom /\
               exists row, referenced A row g) /\
    (forall k g, nth_error (walk receiveList) k = Some g ->
                 OrdMap.find (to_local_int g) ext
                 = Some (localNumberOfRows A + Z.of_nat k)) /\
    numberOfExternalValues A' = Z.of_nat (length (walk receiveList)) /\
    (forall v, (exists key, OrdMap.find key ext = Some v) <->
               localNumberOfRows A <= v
               < localNumberOfRows A + numberOfExternalValues A') /\
    (forall g g' v,
        In g (walk receiveList) -> In g' (walk receiveList) ->
        OrdMap.find (to_local_int g) ext = Some v ->
        OrdMap.find (to_local_int g') ext = Some v -> g = g').
Proof.
  intros Hwf Hpass Hkeys.
  destruct (SetupHalo_plan DEBUG geom A Hwf Hpass)
    as (sendList & receiveList & A' & ext & Hscan & Hscanned & Hrun & _ & Hplan).
  destruct (external_map_indices geom A sendList receiveList Hscanned Hkeys)
    as (Hfind & Hsize & Hinv).
  destruct (scanned_walk _ _ _ _ _ Hscanned) as [Hnd Hwalk].
  destruct Hscanned as (Hs & Hr & Hkeyseq & Hsets & Hrets & Hrecv & Hsend).
  destruct Hplan as (Hext & _ & _ & _ & _ & _ & Hnext & _ & _ & _ & Hnb & _).
  rewrite <- Hext in Hfind, Hsize, Hinv.
  exists receiveList, A', ext.
  split; [now exists sendList|]. split; [exact Hrun|]. split; [exact Hnb|].
  split; [exact Hr|]. split; [intros r s Hin; now apply (Hrets r s)|].
  split; [exact Hwalk|]. split; [exact Hfind|].
  split; [now rewrite Hnext, Hsize|]. split.
  - intros v. rewrite Hnext, Hsize. split.
    + intros (key & Hv). destruct (Hinv key v Hv) as (k & g & Hk & _ & ->).
      assert (k < length (walk receiveList))%nat by (apply nth_error_Some; congruence).
      lia.
    + intros Hv.
      destruct (nth_error (walk receiveList) (Z.to_nat (v - localNumberOfRows A)))
        as [g|] eqn:Eg; [|apply nth_error_None in Eg; lia].
      exists (to_local_int g). rewrite (Hfind _ g Eg). f_equal. lia.
  - intros g g' v Hg Hg' Hv Hv'.
    apply In_nth_error in Hg, Hg'. destruct Hg as [k Hk], Hg' as [k' Hk'].
    rewrite (Hfind k g Hk) in Hv. rewrite (Hfind k' g' Hk') in Hv'.
    injection Hv as Hv. injection Hv' as Hv'.
    assert (k = k') by lia. subst k'. congruence.
Qed.

(** The external values when the keys are distinct.  No column id is in
    the receive sets of two ranks, an id being in the set of the rank that
    owns it; and [numberOfExternalValues] is the
    sum of the receive lengths.  [numberOfExternalValues] counts the
    [local_int_t] keys of [externalToLocalMap]: the second part is for the
    runs in which no two remote column ids share a key (lines 97-100,
    128-130 and 155). *)
Theorem externals_are_received (DEBUG : bool) (geom : Geometry) (A : SparseMatrix) :
  well_formed A = true ->
  assertions_pass getRankOfMatrixRow DEBUG geom A = true ->
  distinct_keys to_local_int (remote_columns getRankOfMatrixRow geom A) ->
  exists sendList receiveList A',
    dependency_scan getRankOfMatrixRow geom A = Done (sendList, receiveList) /\
    SetupHalo to_local_int getRankOfMatrixRow DEBUG geom A = Done A' /\
    (forall r r' g,
        In g (OrdMap.get OrdSet.empty r receiveList) ->
        In g (OrdMap.get OrdSet.empty r' receiveList) -> r = r') /\
    NoDup (walk receiveList) /\
    numberOfExternalValues A' = sum_cells (receiveLength A').
Proof.
  intros Hwf Hpass Hkeys.
  destruct (SetupHalo_plan DEBUG geom A Hwf Hpass)
    as (sendList & receiveList & A' & ext & Hscan & Hscanned & _ & Hrun & Hplan).
  destruct (external_map_indices geom A sendList receiveList Hscanned Hkeys)
    as (_ & Hsize & _).
  destruct (scanned_walk _ _ _ _ _ Hscanned) as [Hnd _].
  destruct Hscanned as (Hs & Hr & Hkeyseq & Hsets & Hrets & Hrecv & Hsend).
  destruct Hplan as (Hext & _ & _ & _ & _ & _ & Hnext & _ & _ & _ & _ & Hrlen & _).
  rewrite <- Hext in Hsize.
  exists sendList, receiveList, A'.
  split; [exact Hscan|]. split; [exact Hrun|]. split.
  - intros r r' g Hg Hg'. apply Hrecv in Hg, Hg'.
    destruct Hg as (_ & Hown & _), Hg' as (_ & Hown' & _). congruence.
  - split; [exact Hnd|]. now rewrite Hnext, Hsize, Hrlen, sum_cells_sizes.
Qed.

Lemma map_keys_find {V : Type} (k : Z) (m : OrdMap.t V) :
  In k (OrdMap.keys m) -> exists v, OrdMap.find k m = Some v.
Proof.
  intros Hin. destruct (OrdMap.find k m) as [v|] eqn:E; [now exists v|].
  apply map_find_None in E. contradiction.
Qed.

(** C8: when every column that the rows refer to belongs to this process,
    as with a single participant, the plan has no neighbor, no external
    value and nothing to send, its arrays are empty, and every column
    reference is rewritten to what [globalToLocalMap] gives for it, the
    local row index of the column (lines 85-90 and 141-163). *)
Theorem all_local_identity (DEBUG : bool) (geom : Geometry) (A : SparseMatrix) :
  well_formed A = true ->
  (forall row g, referenced A row g -> getRankOfMatrixRow geom A g = rank geom) ->
  exists A',
    SetupHalo to_local_int getRankOfMatrixRow DEBUG geom A = Done A' /\
    numberOfSendNeighbors A' = 0 /\
    numberOfExternalValues A' = 0 /\
    totalToBeSent A' = 0 /\
    localNumberOfColumns A' = localNumberOfRows A /\
    neighbors A' = [] /\ receiveLength A' = [] /\ sendLength A' = [] /\
    elementsToSend A' = [] /\ sendBuffer A' = [] /\
    (forall i j row g,
        reference A i j row g ->
        exists rowL,
          load (mtxIndL A') i = Done rowL /\
          load rowL j = Done (OrdMap.get 0 g (globalToLocalMap A))) /\
    (ownership_map_correct A ->
     forall i j row g l,
       reference A i j row g ->
       0 <= l < localNumberOfRows A -> load (localToGlobalMap A) l = Done g ->
       exists rowL, load (mtxIndL A') i = Done rowL /\ load rowL j = Done l).
Proof.
  intros Hwf Hlocal.
  destruct (dependency_scan_scanned getRankOfMatrixRow geom A Hwf)
    as ([sendList receiveList] & Hscan & Hscanned).
  assert (Hnone : receiveList = []).
  { destruct receiveList as [|[r s] receiveList]; [reflexivity|]. exfalso.
    assert (Hr : neighbor_rank getRankOfMatrixRow geom A r).
    { apply (scanned_keys geom A sendList ((r, s) :: receiveList) r Hscanned). now left. }
    destruct Hr as (Hne & row & g & Hrow & Hown).
    apply Hne. rewrite <- Hown. now apply (Hlocal row). }
  subst receiveList.
  assert (Hnone : sendList = []).
  { destruct Hscanned as (_ & _ & Hkeys & _).
    destruct sendList; [reflexivity | discriminate]. }
  subst sendList.
  assert (Hpass : assertions_pass getRankOfMatrixRow DEBUG geom A = true).
  { unfold assertions_pass. rewrite Hscan. now destruct DEBUG. }
  destruct (SetupHalo_plan DEBUG geom A Hwf Hpass)
    as (sendList & receiveList & A' & ext & Hscan' & _ & _ & Hrun & Hplan).
  rewrite Hscan in Hscan'. injection Hscan' as <- <-.
  destruct Hplan as (Hext & Hrw & _ & _ & _ & _ & Hnext & Hcols & Hnsend & Htotal
                     & Hnb & Hrlen & Hslen & Hels & Hbuf).
  simpl in Hext. subst ext.
  exists A'. split; [exact Hrun|].
  do 9 (split; [assumption || (rewrite Hcols; unfold OrdMap.size; simpl; lia)|]).
  assert (Hidentity :
            forall i j row g,
              reference A i j row g ->
              exists rowL,
                load (mtxIndL A') i = Done rowL /\
                load rowL j = Done (OrdMap.get 0 g (globalToLocalMap A))).
  { intros i j row g Href.
    destruct Hrw as (_ & _ & _ & Hrefs).
    destruct (Hrefs i j row g Href) as [(rowL & HrowL & Hv) _].
    { destruct Href as (Hi & _). left. lia. }
    exists rowL. split; [exact HrowL|]. rewrite Hv. unfold local_index.
    rewrite (Hlocal row g) by (now exists i, j). now rewrite Z.eqb_refl. }
  split; [exact Hidentity|].
  intros Hmap i j row g l Href Hl Hg.
  destruct (Hidentity i j row g Href) as (rowL & HrowL & Hv).
  exists rowL. split; [exact HrowL|].
  now rewrite Hv, (map_get_find 0 g (globalToLocalMap A) l (Hmap l g Hl Hg)).
Qed.

(** C3, as the code has it: [SetupHalo] has no check of the partition.
    When the resolver gives this process a column that [globalToLocalMap]
    does not know, on a well-formed matrix and, in the build with [DEBUG],
    when the assertions on the send and receive counts hold (lines
    105-110), the function runs to its end and returns a plan:
    [globalToLocalMap[curIndex]] creates the entry with the value 0, and
    the reference is rewritten to the local index 0 (lines 141-152). *)
Theorem malformed_partition_unnoticed (DEBUG : bool) (geom : Geometry) (A : SparseMatrix)
  (i j : Z) (row g : global_int_t) :
  well_formed A = true ->
  assertions_pass getRankOfMatrixRow DEBUG geom A = true ->
  reference A i j row g ->
  getRankOfMatrixRow geom A g = rank geom ->
  OrdMap.find g (globalToLocalMap A) = None ->
  exists A',
    SetupHalo to_local_int getRankOfMatrixRow DEBUG geom A = Done A' /\
    (exists rowL, load (mtxIndL A') i = Done rowL /\ load rowL j = Done 0) /\
    OrdMap.find g (globalToLocalMap A') = Some 0.
Proof.
  intros Hwf Hpass Href Hown Habsent.
  destruct (SetupHalo_plan DEBUG geom A Hwf Hpass)
    as (sendList & receiveList & A' & ext & _ & _ & _ & Hrun & Hplan).
  destruct Hplan as (_ & Hrw & _).
  destruct Hrw as (_ & _ & [Hget _] & Hrefs).
  cbn [rw_mtxIndL rw_globalToLocalMap] in Hget, Hrefs.
  destruct (Hrefs i j row g Href) as [(rowL & HrowL & Hv) Hkey].
  { destruct Href as (Hi & _). left. lia. }
  assert (Hzero : OrdMap.get 0 g (globalToLocalMap A) = 0).
  { unfold OrdMap.get. now rewrite Habsent. }
  exists A'. split; [exact Hrun|]. split.
  - exists rowL. split; [exact HrowL|]. rewrite Hv. unfold local_index.
    rewrite Hown, Z.eqb_refl. now rewrite Hzero.
  - destruct (map_keys_find g (globalToLocalMap A') (Hkey Hown)) as [v Hfound].
    rewrite Hfound. f_equal.
    rewrite <- Hzero, <- (Hget g). unfold OrdMap.get. now rewrite Hfound.
Qed.

End Plan.

Lemma columns_are_rows_plus_externals_chain :
  exists A',
    SetupHalo (wrap 32) (fun _ _ => chain_owner) true {| rank := 1; size := 4 |}
      (local_matrix chain_owner 1 chain) = Done A' /\
    localNumberOfColumns A' = localNumberOfRows A' + numberOfExternalValues A'.
Proof.
  apply (columns_are_rows_plus_externals (wrap 32) (fun _ _ => chain_owner) true
           {| rank := 1; size := 4 |} (local_matrix chain_owner 1 chain));
    reflexivity.
Defined.

(** ** The plan of sample matrices *)

(** Process 1 of the chain: its remote column ids, 1 and 4, keep distinct
    keys when [local_int_t] has 32 bits. *)
Lemma chain_distinct_keys :
  distinct_keys (wrap 32)
    (remote_columns (fun _ _ => chain_owner) {| rank := 1; size := 4 |}
       (local_matrix chain_owner 1 chain)).
Proof.
  intros g g' Hg Hg' E. vm_compute in Hg, Hg'.
  destruct Hg as [<-|[<-|[]]]; destruct Hg' as [<-|[<-|[]]];
    try reflexivity; vm_compute in E; discriminate.
Qed.

Lemma external_indices_contiguous_chain :
  exists A' ext,
    SetupHalo_locals (wrap 32) (fun _ _ => chain_owner) true {| rank := 1; size := 4 |}
      (local_matrix chain_owner 1 chain) = Done (A', ext) /\
    OrdMap.find (wrap 32 1) ext = Some 2 /\
    OrdMap.find (wrap 32 4) ext = Some 3 /\
    numberOfExternalValues A' = 2.
Proof.
  destruct (external_indices_contiguous (wrap 32) (fun _ _ => chain_owner) true
              {| rank := 1; size := 4 |} (local_matrix chain_owner 1 chain)
              eq_refl eq_refl chain_distinct_keys)
    as (receiveList & A' & ext & (sendList & Hscan) & Hrun & _ & _ & _ & _ & Hfind
        & Hnext & _).
  vm_compute in Hscan. injection Hscan as <- <-.
  exists A', ext. split; [exact Hrun|].
  split; [exact (Hfind 0%nat 1 eq_refl)|].
  split; [exact (Hfind 1%nat 4 eq_refl)|].
  exact Hnext.
Defined.

Lemma externals_are_received_chain :
  exists A',
    SetupHalo (wrap 32) (fun _ _ => chain_owner) true {| rank := 1; size := 4 |}
      (local_matrix chain_owner 1 chain) = Done A' /\
    numberOfExternalValues A' = sum_cells (receiveLength A').
Proof.
  destruct (externals_are_received (wrap 32) (fun _ _ => chain_owner) true
              {| rank := 1; size := 4 |} (local_matrix chain_owner 1 chain)
              eq_refl eq_refl chain_distinct_keys)
    as (sendList & receiveList & A' & _ & Hrun & _ & _ & Hsum).
  exists A'. split; [exact Hrun | exact Hsum].
Defined.

Lemma dependency_sets_chain :
  exists sendList receiveList,
    dependency_scan (fun _ _ => chain_owner) {| rank := 1; size := 4 |}
      (local_matrix chain_owner 1 chain) = Done (sendList, receiveList) /\
    forall r, NoDup (OrdMap.get OrdSet.empty r receiveList) /\
              NoDup (OrdMap.get OrdSet.empty r sendList).
Proof.
  destruct (dependency_sets (fun _ _ => chain_owner) {| rank := 1; size := 4 |}
              (local_matrix chain_owner 1 chain) eq_refl)
    as (_ & _ & sendList & receiveList & Hscan & _ & _ & Hnodup).
  exists sendList, receiveList. split; [exact Hscan | exact Hnodup].
Defined.

(** Process 1 of the chain has a correct ownership map. *)
Lemma chain_ownership_map_correct :
  ownership_map_correct (local_matrix chain_owner 1 chain).
Proof.
  intros i row Hi Hrow. change (0 <= i < 2) in Hi.
  assert (Hcases : i = 0 \/ i = 1) by lia.
  destruct Hcases as [-> | ->]; vm_compute in Hrow; injection Hrow as <-; reflexivity.
Qed.

Lemma elementsToSend_flattened_chain :
  exists A',
    SetupHalo (wrap 32) (fun _ _ => chain_owner) true {| rank := 1; size := 4 |}
      (local_matrix chain_owner 1 chain) = Done A' /\
    elementsToSend A' = [Some 0; Some 1] /\
    sendBuffer A' = new_array double (totalToBeSent A') /\
    forall c, In c (elementsToSend A') -> exists i, c = Some i /\ 0 <= i < 2.
Proof.
  destruct (elementsToSend_flattened (wrap 32) (fun _ _ => chain_owner) true
              {| rank := 1; size := 4 |} (local_matrix chain_owner 1 chain)
              eq_refl eq_refl)
    as (sendList & receiveList & A' & Hscan & Hrun & _ & _ & _ & _ & Hels & _ & _ & Hbuf
        & Hlocal).
  vm_compute in Hscan. injection Hscan as <- <-.
  exists A'. split; [exact Hrun|]. split; [exact Hels|]. split; [exact Hbuf|].
  intros c Hc.
  destruct (Hlocal chain_ownership_map_correct c Hc) as (i & row & Hi & Hrange & _).
  exists i. split; [exact Hi | exact Hrange].
Defined.

Lemma neighbors_ascending_chain :
  exists A' A2',
    SetupHalo (wrap 32) (fun _ _ => chain_owner) true {| rank := 1; size := 4 |}
      (local_matrix chain_owner 1 chain) = Done A' /\
    SetupHalo (wrap 32) (fun _ _ => chain_owner) true {| rank := 1; size := 4 |}
      (local_matrix chain_owner 1 chain_descending) = Done A2' /\
    neighbors A' = [Some 0; Some 2] /\
    neighbors A2' = neighbors A'.
Proof.
  assert (Hwf : well_formed (local_matrix chain_owner 1 chain) = true)
    by (vm_compute; reflexivity).
  assert (Hpass : assertions_pass (fun _ _ => chain_owner) true {| rank := 1; size := 4 |}
                    (local_matrix chain_owner 1 chain) = true)
    by (vm_compute; reflexivity).
  assert (Hwf2 : well_formed (local_matrix chain_owner 1 chain_descending) = true)
    by (vm_compute; reflexivity).
  assert (Hpass2 : assertions_pass (fun _ _ => chain_owner) true {| rank := 1; size := 4 |}
                     (local_matrix chain_owner 1 chain_descending) = true)
    by (vm_compute; reflexivity).
  destruct (neighbors_ascending (wrap 32) (fun _ _ => chain_owner) true
              {| rank := 1; size := 4 |} (local_matrix chain_owner 1 chain)
              true {| rank := 1; size := 4 |} (local_matrix chain_owner 1 chain_descending)
              Hwf Hpass Hwf2 Hpass2)
    as (ranks & A' & Hrun & Hnb & _ & _ & Hin & Hsame).
  destruct (neighbors_ascending (wrap 32) (fun _ _ => chain_owner) true
              {| rank := 1; size := 4 |} (local_matrix chain_owner 1 chain_descending)
              true {| rank := 1; size := 4 |} (local_matrix chain_owner 1 chain)
              Hwf2 Hpass2 Hwf Hpass)
    as (ranks2 & A2 & Hrun2 & Hnb2 & _ & _ & Hin2 & _).
  assert (Hn : neighbors A' = [Some 0; Some 2]).
  { pose proof Hrun as Hrun'. vm_compute in Hrun'. injection Hrun' as Hrun'.
    rewrite <- Hrun'. reflexivity. }
  assert (Hn2 : neighbors A2 = [Some 0; Some 2]).
  { pose proof Hrun2 as Hrun'. vm_compute in Hrun'. injection Hrun' as Hrun'.
    rewrite <- Hrun'. reflexivity. }
  assert (Hranks : ranks = [0; 2]).
  { rewrite Hn in Hnb. destruct ranks as [|a [|b [|c ranks]]]; try discriminate Hnb.
    injection Hnb as <- <-. reflexivity. }
  assert (Hranks2 : ranks2 = [0; 2]).
  { rewrite Hn2 in Hnb2. destruct ranks2 as [|a [|b [|c ranks2]]]; try discriminate Hnb2.
    injection Hnb2 as <- <-. reflexivity. }
  destruct Hsame as (A2' & Hrun2' & Heq).
  { intros r. rewrite <- Hin, <- Hin2, Hranks, Hranks2. reflexivity. }
  exists A', A2'. split; [exact Hrun|]. split; [exact Hrun2'|].
  split; [exact Hn | exact Heq].
Defined.

Lemma neighbors_send_and_receive_chain :
  exists A',
    SetupHalo (wrap 32) (fun _ _ => chain_owner) true {| rank := 1; size := 4 |}
      (local_matrix chain_owner 1 chain) = Done A' /\
    forall i, 0 <= i < numberOfSendNeighbors A' ->
              exists r s l,
                load (neighbors A') i = Done (Some r) /\
                load (sendLength A') i = Done (Some s) /\
                load (receiveLength A') i = Done (Some l) /\
                1 <= s /\ 1 <= l.
Proof.
  destruct (neighbors_send_and_receive (wrap 32) (fun _ _ => chain_owner) true
              {| rank := 1; size := 4 |} (local_matrix chain_owner 1 chain)
              eq_refl eq_refl)
    as (sendList & receiveList & A' & _ & _ & _ & Hrun & Hlen).
  exists A'. split; [exact Hrun | exact Hlen].
Defined.

Lemma all_local_identity_single :
  exists A',
    SetupHalo (wrap 32) (fun _ _ _ => 0) true {| rank := 0; size := 1 |}
      (local_matrix (fun _ => 0) 0 fan) = Done A' /\
    numberOfSendNeighbors A' = 0 /\
    mtxIndL A' = [[0; 2]; [1; 2]; [0; 1; 2]].
Proof.
  destruct (all_local_identity (wrap 32) (fun _ _ _ => 0) true {| rank := 0; size := 1 |}
              (local_matrix (fun _ => 0) 0 fan) eq_refl (fun _ _ _ => eq_refl))
    as (A' & Hrun & Hnone & _).
  exists A'. split; [exact Hrun|]. split; [exact Hnone|].
  vm_compute in Hrun. injection Hrun as <-. reflexivity.
Defined.

(** Row 0 of [stray] refers to column 7. *)
Lemma stray_reference : reference stray 0 1 0 7.
Proof.
  unfold reference. split; [simpl; lia|]. split; [reflexivity|].
  exists 2, [0; 7]. repeat split; try reflexivity; lia.
Qed.

Lemma malformed_partition_unnoticed_stray :
  exists A',
    SetupHalo (wrap 32) (fun _ _ _ => 0) true {| rank := 0; size := 1 |} stray = Done A' /\
    (exists rowL, load (mtxIndL A') 0 = Done rowL /\ load rowL 1 = Done 0) /\
    OrdMap.find 7 (globalToLocalMap A') = Some 0.
Proof.
  exact (malformed_partition_unnoticed (wrap 32) (fun _ _ _ => 0) true
           {| rank := 0; size := 1 |} stray 0 1 0 7
           eq_refl eq_refl stray_reference eq_refl eq_refl).
Defined.

(** C3, as the claim has it, fails on [stray]: the partition is malformed,
    and both builds run to their end and leave a plan. *)
Lemma malformed_partition_leaves_a_plan :
  malformed_partition (fun _ _ _ => 0) {| rank := 0; size := 1 |} stray /\
  SetupHalo (wrap 32) (fun _ _ _ => 0) false {| rank := 0; size := 1 |} stray
  = Done stray_planned /\
  SetupHalo (wrap 32) (fun _ _ _ => 0) true {| rank := 0; size := 1 |} stray
  = Done stray_planned.
Proof.
  split; [|split; reflexivity].
  exists 0, 7. split; [|split; reflexivity].
  exists 0, 1. exact stray_reference.
Qed.

(** The pattern [fan] is symmetric, and two processes share its rows. *)
Lemma fan_symmetric : symmetric fan.
Proof.
  intros i j ci Hin Hj. simpl in Hin.
  destruct Hin as [E|[E|[E|[]]]]; injection E as <- <-; simpl in Hj;
    repeat (destruct Hj as [<-|Hj]); try contradiction.
  - exists [0; 2]. simpl. auto.
  - exists [0; 1; 2]. simpl. auto.
  - exists [1; 2]. simpl. auto.
  - exists [0; 1; 2]. simpl. auto 6.
  - exists [0; 2]. simpl. auto.
  - exists [1; 2]. simpl. auto.
  - exists [0; 1; 2]. simpl. auto 6.
Qed.

Lemma fan_partitioned : partitioned 2 fan_owner fan.
Proof.
  split; [|split].
  - simpl. repeat constructor; simpl; intuition lia.
  - intros i ci Hin. simpl in Hin.
    destruct Hin as [E|[E|[E|[]]]]; injection E as <- <-; unfold fan_owner; simpl; lia.
  - intros i ci j Hin Hj. simpl in Hin.
    destruct Hin as [E|[E|[E|[]]]]; injection E as <- <-; simpl in Hj; simpl; tauto.
Qed.

(** C2: a symmetric matrix on two processes, for which process 0 sends 2
    entries and receives 1.  Process 1 receives the 2 and sends the 1: the
    plans of the two processes agree.  The assertions of the [DEBUG] build
    (lines 105-110) require the two totals to be equal, and stop the run of
    process 0. *)
Theorem local_totals_differ :
  exists (P : Z) (owner : Z -> Z) (p : pattern),
    1 < P /\ symmetric p /\ partitioned P owner p /\
    let A0 := local_matrix owner 0 p in
    let A1 := local_matrix owner 1 p in
    well_formed A0 = true /\ well_formed A1 = true /\
    exists A0' A1',
      SetupHalo (wrap 32) (fun _ _ => owner) false {| rank := 0; size := P |} A0
      = Done A0' /\
      SetupHalo (wrap 32) (fun _ _ => owner) false {| rank := 1; size := P |} A1
      = Done A1' /\
      sum_cells (sendLength A0') = 2 /\ sum_cells (receiveLength A0') = 1 /\
      sum_cells (sendLength A0') <> sum_cells (receiveLength A0') /\
      neighbors A0' = [Some 1] /\ neighbors A1' = [Some 0] /\
      sendLength A0' = receiveLength A1' /\ receiveLength A0' = sendLength A1' /\
      SetupHalo (wrap 32) (fun _ _ => owner) true {| rank := 0; size := P |} A0
      = Aborted.
Proof.
  exists 2, fan_owner, fan.
  split; [lia|]. split; [exact fan_symmetric|]. split; [exact fan_partitioned|].
  cbv zeta. split; [reflexivity|]. split; [reflexivity|].
  eexists. eexists.
  split; [vm_compute; reflexivity|]. split; [vm_compute; reflexivity|].
  cbn [sendLength receiveLength neighbors].
  repeat split; try reflexivity. discriminate.
Qed.

(** What [distinct_keys] rules out.  With a [local_int_t] of 32 bits, the
    two remote columns of [twin] have the key 5: the second assignment of
    line 129 replaces the first, the map has one entry for a receive
    length of 2, and both references get the local index 2. *)
Example keys_of_32_bits_collide :
  exists A' ext,
    SetupHalo_locals (wrap 32) (fun _ _ => twin_owner) false {| rank := 0; size := 2 |} twin
    = Done (A', ext) /\
    ext = [(5, 2)] /\
    receiveLength A' = [Some 2] /\
    numberOfExternalValues A' = 1 /\
    mtxIndL A' = [[0; 2; 2]].
Proof.
  eexists. eexists. split; [vm_compute; reflexivity|].
  repeat split; reflexivity.
Qed.

(** ** Further properties of the function *)

Lemma bind_Done {T U : Type} (c : outcome T) (k : T -> outcome U) (y : U) :
  bind c k = Done y -> exists x, c = Done x /\ k x = Done y.
Proof.
  destruct c as [x| |]; simpl; intros H; [|discriminate H|discriminate H].
  exists x. split; [reflexivity | exact H].
Qed.

(** What every round that ends keeps, the loop keeps when it ends. *)
Lemma for_loop_keeps {S : Type} (I : S -> Prop) (body : Z -> S -> outcome S) :
  forall (count : nat) (i0 : Z) (s s' : S),
    (forall i s s1, i0 <= i < i0 + Z.of_nat count -> I s -> body i s = Done s1 -> I s1) ->
    I s -> for_loop count i0 body s = Done s' -> I s'.
Proof.
  induction count as [|count IH]; intros i0 s s' Hstep Hs Hrun.
  - simpl in Hrun. injection Hrun as <-. exact Hs.
  - cbn [for_loop] in Hrun. apply bind_Done in Hrun. destruct Hrun as (s1 & Hbody & Hrest).
    apply (IH (i0 + 1) s1 s'); [|apply (Hstep i0 s s1); [lia | exact Hs | exact Hbody] | exact Hrest].
    intros i s0 s2 Hi. apply Hstep. lia.
Qed.

Lemma for_upto_keeps {S : Type} (I : S -> Prop) (body : Z -> S -> outcome S)
  (n : Z) (s s' : S) :
  (forall i s s1, 0 <= i < n -> I s -> body i s = Done s1 -> I s1) ->
  I s -> for_upto n body s = Done s' -> I s'.
Proof.
  intros Hstep. apply for_loop_keeps. intros i s0 s1 Hi. apply Hstep. lia.
Qed.

(** The build with [DEBUG] differs from the other by the assertions. *)
Lemma SetupHalo_locals_DEBUG (to_local_int : global_int_t -> local_int_t)
  (getRankOfMatrixRow : Geometry -> SparseMatrix -> global_int_t -> Z)
  (geom : Geometry) (A : SparseMatrix) (sendList receiveList : neighbor_sets) :
  dependency_scan getRankOfMatrixRow geom A = Done (sendList, receiveList) ->
  SetupHalo_locals to_local_int getRankOfMatrixRow true geom A
  = if debug_assertions sendList receiveList
         (count_entries sendList) (count_entries receiveList)
    then SetupHalo_locals to_local_int getRankOfMatrixRow false geom A
    else Aborted.
Proof.
  intros Hscan. unfold SetupHalo_locals. rewrite Hscan. cbn [bind].
  destruct (debug_assertions sendList receiveList
              (count_entries sendList) (count_entries receiveList)); reflexivity.
Qed.

Lemma count_entries_sizes (m : neighbor_sets) :
  count_entries m
  = fold_left Z.add (map (fun curNeighbor => OrdSet.size (snd curNeighbor)) m) 0.
Proof.
  unfold count_entries. generalize 0. induction m as [|e m IH]; intros total; simpl.
  - reflexivity.
  - apply IH.
Qed.

(** With the same ranks in both maps, the assertions of lines 105-110 hold
    exactly when every rank has as many entries to send as to receive. *)
Lemma debug_assertions_sizes (sendList receiveList : neighbor_sets) :
  OrdMap.ascending sendList -> OrdMap.ascending receiveList ->
  OrdMap.keys sendList = OrdMap.keys receiveList ->
  debug_assertions sendList receiveList
    (count_entries sendList) (count_entries receiveList) = true
  <-> map (fun curNeighbor => OrdSet.size (snd curNeighbor)) sendList
      = map (fun curNeighbor => OrdSet.size (snd curNeighbor)) receiveList.
Proof.
  intros Hs Hr Hkeys.
  assert (Hlen : length sendList = length receiveList).
  { rewrite <- (length_map fst sendList), <- (length_map fst receiveList).
    exact (f_equal (@length Z) Hkeys). }
  assert (Haligned :
            map (fun curNeighbor => OrdSet.size (snd curNeighbor)) sendList
            = map (fun curNeighbor =>
                     OrdSet.size (OrdMap.get OrdSet.empty (fst curNeighbor) sendList))
                receiveList).
  { rewrite <- (map_map snd OrdSet.size sendList).
    rewrite <- (send_sets_aligned sendList receiveList Hs Hkeys).
    now rewrite map_map. }
  assert (Hfound : forall e, In e receiveList ->
                             OrdMap.find (fst e) sendList
                             = Some (OrdMap.get OrdSet.empty (fst e) sendList)).
  { intros e He.
    destruct (map_keys_find (fst e) sendList) as [s Hfind].
    - rewrite Hkeys. now apply in_map.
    - now rewrite (map_get_find OrdSet.empty (fst e) sendList s Hfind). }
  assert (Hown : forall e, In e receiveList ->
                           OrdMap.get OrdSet.empty (fst e) receiveList = snd e).
  { intros [r s] He. apply map_get_find. now apply map_In_find. }
  rewrite Haligned, map_ext_in_iff. unfold debug_assertions. split.
  - intros Hassert e He.
    apply andb_true_iff in Hassert. destruct Hassert as [_ Hall].
    rewrite forallb_forall in Hall. specialize (Hall e He).
    rewrite (Hfound e He), (Hown e He) in Hall. now apply Z.eqb_eq.
  - intros Hsizes.
    assert (Hmaps : map (fun curNeighbor => OrdSet.size (snd curNeighbor)) sendList
                    = map (fun curNeighbor => OrdSet.size (snd curNeighbor)) receiveList).
    { rewrite Haligned. now apply map_ext_in_iff. }
    apply andb_true_iff. split; [apply andb_true_iff; split|].
    + apply Z.eqb_eq. now rewrite !count_entries_sizes, Hmaps.
    + apply Z.eqb_eq. unfold OrdMap.size. now rewrite Hlen.
    + apply forallb_forall. intros e He.
      rewrite (Hfound e He), (Hown e He). apply Z.eqb_eq. now apply Hsizes.
Qed.

Section Builds.

Variable to_local_int : global_int_t -> local_int_t.
Variable getRankOfMatrixRow : Geometry -> SparseMatrix -> global_int_t -> Z.

(** On a well-formed matrix the function runs to its end, in the build
    with [DEBUG] when the assertions hold: no array of the matrix or of the
    plan is accessed outside its extent.  The four index arrays of the plan
    then have the extents that the matrix records, [numberOfSendNeighbors]
    and [totalToBeSent], and no cell of them is left unwritten (lines
    115-135 and 155-163). *)
Theorem plan_arrays_written (DEBUG : bool) (geom : Geometry) (A : SparseMatrix) :
  well_formed A = true ->
  assertions_pass getRankOfMatrixRow DEBUG geom A = true ->
  exists A',
    SetupHalo to_local_int getRankOfMatrixRow DEBUG geom A = Done A' /\
    Z.of_nat (length (neighbors A')) = numberOfSendNeighbors A' /\
    Z.of_nat (length (receiveLength A')) = numberOfSendNeighbors A' /\
    Z.of_nat (length (sendLength A')) = numberOfSendNeighbors A' /\
    Z.of_nat (length (elementsToSend A')) = totalToBeSent A' /\
    Z.of_nat (length (sendBuffer A')) = totalToBeSent A' /\
    ~ In None (neighbors A') /\ ~ In None (receiveLength A') /\
    ~ In None (sendLength A') /\ ~ In None (elementsToSend A').
Proof.
  intros Hwf Hpass.
  destruct (SetupHalo_plan to_local_int getRankOfMatrixRow DEBUG geom A Hwf Hpass)
    as (sendList & receiveList & A' & ext & _ & Hscanned & _ & Hrun & Hplan).
  destruct Hscanned as (_ & _ & Hkeys & _).
  destruct Hplan as (_ & _ & _ & _ & _ & _ & _ & _ & Hnsend & Htotal & Hnb & Hrlen
                     & Hslen & Hels & Hbuf).
  assert (Hlen : length receiveList = length sendList).
  { rewrite <- (length_map fst sendList), <- (length_map fst receiveList).
    exact (f_equal (@length Z) (eq_sym Hkeys)). }
  assert (Hnone : forall (T U : Type) (f : T -> U) (l : list T),
             ~ In None (map (fun x => Some (f x)) l)).
  { intros T U f l Hin. apply in_map_iff in Hin. destruct Hin as (x & Hx & _).
    discriminate Hx. }
  exists A'. split; [exact Hrun|].
  rewrite Hnb, Hrlen, Hslen, Hels, Hbuf, Hnsend, Htotal.
  rewrite !length_map, repeat_length, Hlen. unfold OrdMap.size.
  repeat split; try reflexivity; apply Hnone.
Qed.

(** The build with [DEBUG] returns what the other build returns when, for
    every neighbor, the plan has as many entries to send as to receive,
    and stops on an assertion otherwise.  The assertions of lines 106 and
    109 never fail: the two maps always have the same ranks. *)
Theorem debug_build_accepts (geom : Geometry) (A : SparseMatrix) :
  well_formed A = true ->
  exists sendList receiveList A',
    dependency_scan getRankOfMatrixRow geom A = Done (sendList, receiveList) /\
    SetupHalo to_local_int getRankOfMatrixRow false geom A = Done A' /\
    OrdMap.size sendList = OrdMap.size receiveList /\
    (forall curNeighbor, In curNeighbor receiveList ->
                         OrdMap.find (fst curNeighbor) sendList <> None) /\
    (sendLength A' = receiveLength A' ->
     SetupHalo to_local_int getRankOfMatrixRow true geom A = Done A') /\
    (sendLength A' <> receiveLength A' ->
     SetupHalo to_local_int getRankOfMatrixRow true geom A = Aborted).
Proof.
  intros Hwf.
  destruct (SetupHalo_plan to_local_int getRankOfMatrixRow false geom A Hwf eq_refl)
    as (sendList & receiveList & A' & ext & Hscan & Hscanned & Hlocals & Hrun & Hplan).
  destruct Hscanned as (Hs & Hr & Hkeys & _).
  destruct Hplan as (_ & _ & _ & _ & _ & _ & _ & _ & _ & _ & _ & Hrlen & Hslen & _).
  pose proof (debug_assertions_sizes sendList receiveList Hs Hr Hkeys) as Hassert.
  assert (Hsome : sendLength A' = receiveLength A'
                  <-> map (fun curNeighbor => OrdSet.size (snd curNeighbor)) sendList
                      = map (fun curNeighbor => OrdSet.size (snd curNeighbor)) receiveList).
  { rewrite Hslen, Hrlen.
    rewrite <- (map_map (fun e : Z * OrdSet.t => OrdSet.size (snd e)) Some sendList).
    rewrite <- (map_map (fun e : Z * OrdSet.t => OrdSet.size (snd e)) Some receiveList).
    split; [|now intros ->].
    intros Heq. apply (f_equal (map (fun c => match c with Some v => v | None => 0 end))) in Heq.
    rewrite !map_map in Heq. exact Heq. }
  exists sendList, receiveList, A'.
  split; [exact Hscan|]. split; [exact Hrun|]. split.
  { unfold OrdMap.size. rewrite <- (length_map fst sendList), <- (length_map fst receiveList).
    exact (f_equal (fun l => Z.of_nat (length l)) Hkeys). }
  split.
  { intros e He Hnone. apply map_find_None in Hnone. apply Hnone.
    rewrite Hkeys. now apply in_map. }
  unfold SetupHalo.
  rewrite (SetupHalo_locals_DEBUG to_local_int getRankOfMatrixRow geom A
             sendList receiveList Hscan).
  split.
  - intros Heq. apply Hsome, Hassert in Heq. rewrite Heq, Hlocals. reflexivity.
  - intros Hne.
    destruct (debug_assertions sendList receiveList
                (count_entries sendList) (count_entries receiveList)) eqn:E;
      [|reflexivity].
    exfalso. apply Hne, Hsome, Hassert. reflexivity.
Qed.

End Builds.

Lemma plan_arrays_written_chain :
  exists A',
    SetupHalo (wrap 32) (fun _ _ => chain_owner) true {| rank := 1; size := 4 |}
      (local_matrix chain_owner 1 chain) = Done A' /\
    Z.of_nat (length (elementsToSend A')) = totalToBeSent A' /\
    ~ In None (elementsToSend A').
Proof.
  destruct (plan_arrays_written (wrap 32) (fun _ _ => chain_owner) true
              {| rank := 1; size := 4 |} (local_matrix chain_owner 1 chain)
              eq_refl eq_refl)
    as (A' & Hrun & _ & _ & _ & Hlen & _ & _ & _ & _ & Hwritten).
  exists A'. split; [exact Hrun|]. split; [exact Hlen | exact Hwritten].
Defined.

(** Process 0 of [fan] sends its two rows and receives one: the build with
    [DEBUG] stops. *)
Lemma debug_build_accepts_fan :
  SetupHalo (wrap 32) (fun _ _ => fan_owner) true {| rank := 0; size := 2 |}
    (local_matrix fan_owner 0 fan) = Aborted.
Proof.
  destruct (debug_build_accepts (wrap 32) (fun _ _ => fan_owner)
              {| rank := 0; size := 2 |} (local_matrix fan_owner 0 fan) eq_refl)
    as (sendList & receiveList & A' & _ & Hrun & _ & _ & _ & Habort).
  apply Habort. vm_compute in Hrun. injection Hrun as <-.
  intros Heq. discriminate Heq.
Defined.

Lemma assign_walk_ascending (to_local_int : global_int_t -> local_int_t)
  (n : local_int_t) (ids : list global_int_t) :
  forall (ext : OrdMap.t local_int_t) (c : local_int_t),
    OrdMap.ascending ext ->
    OrdMap.ascending (fst (assign_walk to_local_int n ids (ext, c))).
Proof.
  induction ids as [|g ids IH]; intros ext c Hext.
  - exact Hext.
  - rewrite assign_walk_cons. apply IH. now apply map_put_ascending.
Qed.

(** Two elements of a list with one image: the images of the list are
    fewer than its elements. *)
Lemma shared_image_length {T : Type} (f : T -> Z) (w : list T) (l : list Z) (x y : T) :
  NoDup l -> incl l (map f w) -> In x w -> In y w -> x <> y -> f x = f y ->
  (length l < length w)%nat.
Proof.
  intros Hnd Hincl Hx Hy Hne Heq.
  apply in_split in Hx. destruct Hx as (w1 & w2 & ->).
  assert (Hy' : In y (w1 ++ w2)).
  { apply in_app_or in Hy. apply in_or_app.
    destruct Hy as [Hy|[Hy|Hy]]; [now left | congruence | now right]. }
  assert (Hincl' : incl l (map f (w1 ++ w2))).
  { intros k Hk. apply Hincl, in_map_iff in Hk. destruct Hk as (z & <- & Hz).
    apply in_app_or in Hz. destruct Hz as [Hz|[<-|Hz]].
    - apply in_map, in_or_app. now left.
    - rewrite Heq. now apply in_map.
    - apply in_map, in_or_app. now right. }
  apply (NoDup_incl_length Hnd) in Hincl'.
  rewrite length_map in Hincl'. rewrite !length_app in *. simpl. lia.
Qed.

Section Renumbering.

Variable to_local_int : global_int_t -> local_int_t.
Variable getRankOfMatrixRow : Geometry -> SparseMatrix -> global_int_t -> Z.

(** What lines 141-152 leave in [mtxIndL] at a reference to the column
    [g], in terms of the maps of the scan. *)
Lemma rewritten_reference (DEBUG : bool) (geom : Geometry) (A : SparseMatrix) :
  well_formed A = true ->
  assertions_pass getRankOfMatrixRow DEBUG geom A = true ->
  exists sendList receiveList A' ext,
    dependency_scan getRankOfMatrixRow geom A = Done (sendList, receiveList) /\
    scanned (rank geom) (getRankOfMatrixRow geom A) (referenced A)
      (sendList, receiveList) /\
    SetupHalo to_local_int getRankOfMatrixRow DEBUG geom A = Done A' /\
    halo_plan to_local_int getRankOfMatrixRow geom A sendList receiveList A' ext /\
    forall i j row g,
      reference A i j row g ->
      exists rowL,
        load (mtxIndL A') i = Done rowL /\
        load rowL j
        = Done (local_index to_local_int getRankOfMatrixRow geom A
                  (globalToLocalMap A) ext g).
Proof.
  intros Hwf Hpass.
  destruct (SetupHalo_plan to_local_int getRankOfMatrixRow DEBUG geom A Hwf Hpass)
    as (sendList & receiveList & A' & ext & Hscan & Hscanned & _ & Hrun & Hplan).
  exists sendList, receiveList, A', ext.
  do 4 (split; [assumption|]).
  destruct Hplan as (_ & (_ & _ & _ & Hcells) & _).
  intros i j row g Href.
  destruct (Hcells i j row g Href) as [Hcell _]; [|exact Hcell].
  left. destruct Href as (Hi & _). lia.
Qed.

(** Lines 141-152 renumber the columns faithfully when no two remote ids
    share a key and the ownership map knows the columns of this process.
    Every reference gets an index of [0 .. localNumberOfColumns - 1]; an
    index below [localNumberOfRows] is the local row of the column, and
    [localToGlobalMap] gives the column back; an index from
    [localNumberOfRows] on is the place of the column in the receive sets,
    walked by ascending rank and id, and the walk gives the column back.
    Two references have the same index only when they are to the same
    column. *)
Theorem rewriting_is_a_renumbering (DEBUG : bool) (geom : Geometry) (A : SparseMatrix) :
  well_formed A = true ->
  assertions_pass getRankOfMatrixRow DEBUG geom A = true ->
  distinct_keys to_local_int (remote_columns getRankOfMatrixRow geom A) ->
  partition_consistent getRankOfMatrixRow geom A ->
  exists receiveList A',
    (exists sendList,
        dependency_scan getRankOfMatrixRow geom A = Done (sendList, receiveList)) /\
    SetupHalo to_local_int getRankOfMatrixRow DEBUG geom A = Done A' /\
    (forall i j row g,
        reference A i j row g ->
        exists rowL v,
          load (mtxIndL A') i = Done rowL /\ load rowL j = Done v /\
          0 <= v < localNumberOfColumns A' /\
          (getRankOfMatrixRow geom A g = rank geom ->
           v < localNumberOfRows A' /\ load (localToGlobalMap A') v = Done g) /\
          (getRankOfMatrixRow geom A g <> rank geom ->
           localNumberOfRows A' <= v /\
           nth_error (walk receiveList) (Z.to_nat (v - localNumberOfRows A')) = Some g)) /\
    (forall i j row g i' j' row' g' rowL rowL' v,
        reference A i j row g -> reference A i' j' row' g' ->
        load (mtxIndL A') i = Done rowL -> load rowL j = Done v ->
        load (mtxIndL A') i' = Done rowL' -> load rowL' j' = Done v ->
        g = g').
Proof.
  intros Hwf Hpass Hkeys Hknown.
  destruct (rewritten_reference DEBUG geom A Hwf Hpass)
    as (sendList & receiveList & A' & ext & Hscan & Hscanned & Hrun & Hplan & Hcells).
  destruct (external_map_indices to_local_int getRankOfMatrixRow geom A
              sendList receiveList Hscanned Hkeys) as (Hfind & Hsize & _).
  destruct (scanned_walk _ _ _ _ _ Hscanned) as [_ Hwalk].
  destruct Hplan as (Hext & _ & Hrows & _ & _ & Hl2g & _ & Hcols & _).
  rewrite <- Hext in Hfind, Hsize.
  assert (Hcell : forall i j row g,
             reference A i j row g ->
             exists rowL v,
               load (mtxIndL A') i = Done rowL /\ load rowL j = Done v /\
               0 <= v < localNumberOfColumns A' /\
               (getRankOfMatrixRow geom A g = rank geom ->
                v < localNumberOfRows A' /\ load (localToGlobalMap A') v = Done g) /\
               (getRankOfMatrixRow geom A g <> rank geom ->
                localNumberOfRows A' <= v /\
                nth_error (walk receiveList) (Z.to_nat (v - localNumberOfRows A'))
                = Some g)).
  { intros i j row g Href.
    destruct (Hcells i j row g Href) as (rowL & HrowL & Hv).
    exists rowL. unfold local_index in Hv. rewrite Hcols, Hrows, Hl2g, Hsize.
    destruct (Z.eqb_spec (rank geom) (getRankOfMatrixRow geom A g)) as [Hown|Hown].
    - destruct (Hknown row g) as (l & Hl & Hmap & Hback);
        [now exists i, j | now symmetry |].
      rewrite (map_get_find 0 g _ l Hmap) in Hv.
      exists l. split; [exact HrowL|]. split; [exact Hv|]. split; [lia|].
      split; [intros _; split; [lia | exact Hback]|].
      intros Hne. exfalso. apply Hne. now symmetry.
    - assert (Hin : In g (walk receiveList)).
      { apply Hwalk. split; [intros E; apply Hown; now symmetry | now exists row, i, j]. }
      apply In_nth_error in Hin. destruct Hin as [k Hk].
      rewrite (map_get_find 0 _ _ _ (Hfind k g Hk)) in Hv.
      assert (Hlt : (k < length (walk receiveList))%nat)
        by (apply nth_error_Some; congruence).
      exists (localNumberOfRows A + Z.of_nat k).
      split; [exact HrowL|]. split; [exact Hv|].
      destruct Href as (Hi & _). split; [lia|].
      split; [intros E; exfalso; apply Hown; now symmetry|].
      intros _. split; [lia|].
      replace (Z.to_nat (localNumberOfRows A + Z.of_nat k - localNumberOfRows A))
        with k by lia.
      exact Hk. }
  exists receiveList, A'.
  split; [now exists sendList|]. split; [exact Hrun|]. split; [exact Hcell|].
  intros i j row g i' j' row' g' rowL rowL' v Href Href' HrowL Hv HrowL' Hv'.
  destruct (Hcell i j row g Href) as (rowL1 & v1 & H1 & H2 & _ & Hloc & Hrem).
  destruct (Hcell i' j' row' g' Href') as (rowL2 & v2 & H1' & H2' & _ & Hloc' & Hrem').
  assert (v1 = v) by congruence. assert (v2 = v) by congruence. subst v1 v2.
  destruct (Z.eq_dec (getRankOfMatrixRow geom A g) (rank geom)) as [Hg|Hg];
    destruct (Z.eq_dec (getRankOfMatrixRow geom A g') (rank geom)) as [Hg'|Hg'].
  - destruct (Hloc Hg) as [_ Hb]. destruct (Hloc' Hg') as [_ Hb']. congruence.
  - destruct (Hloc Hg) as [Hlt _]. destruct (Hrem' Hg') as [Hge _]. lia.
  - destruct (Hrem Hg) as [Hge _]. destruct (Hloc' Hg') as [Hlt _]. lia.
  - destruct (Hrem Hg) as [_ Hb]. destruct (Hrem' Hg') as [_ Hb']. congruence.
Qed.

(** Two remote columns with one [local_int_t] key: the second assignment of
    line 129 replaces the first.  The plan then counts fewer external
    values than it receives, and the references to the two columns are
    rewritten to one local index. *)
Theorem shared_key_merges_externals (DEBUG : bool) (geom : Geometry) (A : SparseMatrix)
  (g g' : global_int_t) :
  well_formed A = true ->
  assertions_pass getRankOfMatrixRow DEBUG geom A = true ->
  (exists row, referenced A row g) -> (exists row', referenced A row' g') ->
  getRankOfMatrixRow geom A g <> rank geom ->
  getRankOfMatrixRow geom A g' <> rank geom ->
  g <> g' -> to_local_int g = to_local_int g' ->
  exists A',
    SetupHalo to_local_int getRankOfMatrixRow DEBUG geom A = Done A' /\
    numberOfExternalValues A' < sum_cells (receiveLength A') /\
    forall i j row i' j' row',
      reference A i j row g -> reference A i' j' row' g' ->
      exists rowL rowL' v,
        load (mtxIndL A') i = Done rowL /\ load rowL j = Done v /\
        load (mtxIndL A') i' = Done rowL' /\ load rowL' j' = Done v.
Proof.
  intros Hwf Hpass Hg Hg' Hown Hown' Hne Hkey.
  destruct (rewritten_reference DEBUG geom A Hwf Hpass)
    as (sendList & receiveList & A' & ext & Hscan & Hscanned & Hrun & Hplan & Hcells).
  destruct (scanned_walk _ _ _ _ _ Hscanned) as [Hnd Hwalk].
  destruct Hplan as (Hext & _ & _ & _ & _ & _ & Hnext & _ & _ & _ & _ & Hrlen & _).
  exists A'. split; [exact Hrun|]. split.
  - rewrite Hnext, Hrlen, sum_cells_sizes. unfold OrdMap.size.
    apply inj_lt.
    rewrite <- (length_map fst ext).
    apply (shared_image_length to_local_int (walk receiveList) (map fst ext) g g').
    + apply ascending_NoDup. rewrite Hext. apply assign_walk_ascending. constructor.
    + intros k Hk. rewrite Hext in Hk.
      apply (assign_walk_keys to_local_int (localNumberOfRows A)) in Hk.
      destruct Hk as [Hk|[]]. exact Hk.
    + apply Hwalk. split; [exact Hown | exact Hg].
    + apply Hwalk. split; [exact Hown' | exact Hg'].
    + exact Hne.
    + exact Hkey.
  - intros i j row i' j' row' Href Href'.
    destruct (Hcells i j row g Href) as (rowL & HrowL & Hv).
    destruct (Hcells i' j' row' g' Href') as (rowL' & HrowL' & Hv').
    exists rowL, rowL', (OrdMap.get 0 (to_local_int g) ext).
    unfold local_index in Hv, Hv'.
    destruct (Z.eqb_spec (rank geom) (getRankOfMatrixRow geom A g)) as [E|_];
      [exfalso; apply Hown; now symmetry|].
    destruct (Z.eqb_spec (rank geom) (getRankOfMatrixRow geom A g')) as [E|_];
      [exfalso; apply Hown'; now symmetry|].
    rewrite <- Hkey in Hv'. auto.
Qed.

End Renumbering.

Lemma chain_partition_consistent :
  partition_consistent (fun _ _ => chain_owner) {| rank := 1; size := 4 |}
    (local_matrix chain_owner 1 chain).
Proof.
  intros row g (i & j & Href) Hown.
  pose proof (reference_row_columns _ i j row g Href) as Hin.
  destruct Href as (Hi & _). change (0 <= i < 2) in Hi.
  assert (Hcases : i = 0 \/ i = 1) by lia.
  destruct Hcases as [-> | ->]; vm_compute in Hin;
    destruct Hin as [<-|[<-|[<-|[]]]]; try discriminate Hown.
  - exists 0. split; [simpl; lia|]. split; reflexivity.
  - exists 1. split; [simpl; lia|]. split; reflexivity.
  - exists 0. split; [simpl; lia|]. split; reflexivity.
  - exists 1. split; [simpl; lia|]. split; reflexivity.
Qed.

Lemma chain_reference_1_2 : reference (local_matrix chain_owner 1 chain) 1 2 3 4.
Proof.
  unfold reference. split; [simpl; lia|]. split; [reflexivity|].
  exists 3, [2; 3; 4]. repeat split; try reflexivity; lia.
Qed.

(** Process 1 of the chain: the reference of its row 3 to the column 4, of
    process 2, gets the index 3, the second place after the two rows. *)
Lemma rewriting_is_a_renumbering_chain :
  exists A' rowL,
    SetupHalo (wrap 32) (fun _ _ => chain_owner) true {| rank := 1; size := 4 |}
      (local_matrix chain_owner 1 chain) = Done A' /\
    load (mtxIndL A') 1 = Done rowL /\ load rowL 2 = Done 3.
Proof.
  destruct (rewriting_is_a_renumbering (wrap 32) (fun _ _ => chain_owner) true
              {| rank := 1; size := 4 |} (local_matrix chain_owner 1 chain)
              eq_refl eq_refl chain_distinct_keys chain_partition_consistent)
    as (receiveList & A' & (sendList & Hscan) & Hrun & Hcell & _).
  vm_compute in Hscan. injection Hscan as <- <-.
  destruct (Hcell 1 2 3 4 chain_reference_1_2)
    as (rowL & v & HrowL & Hv & Hrange & _ & Hremote).
  assert (Hown : chain_owner 4 <> 1) by (intros E; discriminate E).
  destruct (Hremote Hown) as [Hge Hnth].
  assert (Hrows : localNumberOfRows A' = 2).
  { vm_compute in Hrun. injection Hrun as <-. reflexivity. }
  rewrite Hrows in Hge, Hnth.
  assert (Hv3 : v = 3).
  { assert (Hcases : v - 2 = 0 \/ v - 2 = 1 \/ 2 <= v - 2) by lia.
    destruct Hcases as [E|[E|E]].
    - rewrite E in Hnth. vm_compute in Hnth. discriminate Hnth.
    - lia.
    - exfalso. assert (Hlt : (Z.to_nat (v - 2) < 2)%nat).
      { apply (nth_error_Some [1; 4]). cbn [walk concat map snd app] in Hnth.
        rewrite Hnth. intros E'. discriminate E'. }
      lia. }
  exists A', rowL. split; [exact Hrun|]. split; [exact HrowL|]. now rewrite <- Hv3.
Defined.

Lemma twin_reference_5 : reference twin 0 1 0 5.
Proof.
  unfold reference. split; [simpl; lia|]. split; [reflexivity|].
  exists 3, [0; 5; 4294967301]. repeat split; try reflexivity; lia.
Qed.

Lemma twin_reference_far : reference twin 0 2 0 4294967301.
Proof.
  unfold reference. split; [simpl; lia|]. split; [reflexivity|].
  exists 3, [0; 5; 4294967301]. repeat split; try reflexivity; lia.
Qed.

(** The two remote columns of [twin] have the key 5 when [local_int_t] has
    32 bits. *)
Lemma shared_key_merges_externals_twin :
  exists A',
    SetupHalo (wrap 32) (fun _ _ => twin_owner) false {| rank := 0; size := 2 |} twin
    = Done A' /\
    numberOfExternalValues A' < sum_cells (receiveLength A').
Proof.
  assert (Hown : twin_owner 5 <> 0) by (intros E; discriminate E).
  assert (Hown' : twin_owner 4294967301 <> 0) by (intros E; discriminate E).
  assert (Hne : 5 <> 4294967301) by lia.
  assert (Hkey : wrap 32 5 = wrap 32 4294967301) by (vm_compute; reflexivity).
  destruct (shared_key_merges_externals (wrap 32) (fun _ _ => twin_owner) false
              {| rank := 0; size := 2 |} twin 5 4294967301 eq_refl eq_refl
              (ex_intro _ 0 (ex_intro _ 0 (ex_intro _ 1 twin_reference_5)))
              (ex_intro _ 0 (ex_intro _ 0 (ex_intro _ 2 twin_reference_far)))
              Hown Hown' Hne Hkey)
    as (A' & Hrun & Hless & _).
  exists A'. split; [exact Hrun | exact Hless].
Defined.

(** ** What the rewriting leaves alone *)

Lemma store_inv {T : Type} (a : list T) (i : Z) (x : T) (a' : list T) :
  store a i x = Done a' ->
  0 <= i < Z.of_nat (length a) /\ a' = list_set a (Z.to_nat i) x.
Proof.
  unfold store. destruct (Z.leb_spec 0 i) as [Hlo|Hlo]; [|discriminate].
  destruct (Z.ltb_spec i (Z.of_nat (length a))) as [Hhi|Hhi]; [|discriminate].
  simpl. intros Heq. injection Heq as <-. split; [lia | reflexivity].
Qed.

(** [mtxIndL[i][j] = v] changes the cell [(i, j)] and no other. *)
Lemma store2_cell (a : list (list local_int_t)) (i j : Z) (v : local_int_t)
  (a' : list (list local_int_t)) :
  store2 a i j v = Done a' ->
  0 <= i /\ 0 <= j /\
  map (@length Z) a' = map (@length Z) a /\
  forall i' j',
    cell a' i' j'
    = if (i' =? Z.to_nat i)%nat && (j' =? Z.to_nat j)%nat then Some v else cell a i' j'.
Proof.
  unfold store2. intros H.
  apply bind_Done in H. destruct H as (row & Hrow & H).
  apply bind_Done in H. destruct H as (row' & Hrow' & H).
  apply store_inv in Hrow', H. destruct Hrow' as [Hj ->], H as [Hi ->].
  apply load_Done in Hrow. destruct Hrow as [_ Hrow].
  split; [lia|]. split; [lia|]. split.
  - rewrite map_list_set, length_list_set. apply list_set_same.
    now rewrite nth_error_map, Hrow.
  - intros i' j'. unfold cell.
    destruct (Nat.eqb_spec i' (Z.to_nat i)) as [->|Hne]; cbn [andb].
    + rewrite nth_error_list_set_same by lia. rewrite Hrow.
      destruct (Nat.eqb_spec j' (Z.to_nat j)) as [->|Hnej].
      * apply nth_error_list_set_same. lia.
      * apply nth_error_list_set_other. auto.
    + rewrite nth_error_list_set_other by auto. reflexivity.
Qed.

Lemma ensure_keys_present (ids : list global_int_t) (m : OrdMap.t local_int_t) :
  (forall g, In g ids -> In g (OrdMap.keys m)) -> ensure_keys ids m = m.
Proof.
  unfold ensure_keys. induction ids as [|g ids IH]; intros Hin; simpl.
  - reflexivity.
  - rewrite map_subscript_present by (apply Hin; now left).
    apply IH. intros g' Hg'. apply Hin. now right.
Qed.

Lemma ensure_keys_keys (ids : list global_int_t) :
  forall (m : OrdMap.t local_int_t) (k : Z),
    In k (OrdMap.keys (ensure_keys ids m)) <-> In k ids \/ In k (OrdMap.keys m).
Proof.
  unfold ensure_keys. induction ids as [|g ids IH]; intros m k; simpl.
  - tauto.
  - rewrite IH, map_subscript_keys. intuition.
Qed.

Section Untouched.

Variable to_local_int : global_int_t -> local_int_t.
Variable getRankOfMatrixRow : Geometry -> SparseMatrix -> global_int_t -> Z.
Variable geom : Geometry.
Variable A : SparseMatrix.
Hypothesis Hwf : well_formed A = true.

(** What one round of lines 143-150 reads and writes. *)
Lemma rewrite_entry_inv (i j : Z) (st st1 : rewriting) :
  rewrite_entry to_local_int getRankOfMatrixRow geom A i j st = Done st1 ->
  exists row curIndex l,
    load (mtxIndG A) i = Done row /\ load row j = Done curIndex /\
    store2 (rw_mtxIndL st) i j l = Done (rw_mtxIndL st1) /\
    ((getRankOfMatrixRow geom A curIndex = rank geom /\
      rw_globalToLocalMap st1
      = snd (OrdMap.subscript 0 curIndex (rw_globalToLocalMap st)) /\
      rw_externalToLocalMap st1 = rw_externalToLocalMap st) \/
     (getRankOfMatrixRow geom A curIndex <> rank geom /\
      rw_globalToLocalMap st1 = rw_globalToLocalMap st /\
      rw_externalToLocalMap st1
      = snd (OrdMap.subscript 0 (to_local_int curIndex) (rw_externalToLocalMap st)))).
Proof.
  unfold rewrite_entry. intros H.
  apply bind_Done in H. destruct H as (row & Hrow & H).
  apply bind_Done in H. destruct H as (curIndex & Hcur & H).
  exists row, curIndex.
  destruct (Z.eqb_spec (rank geom) (getRankOfMatrixRow geom A curIndex)) as [Hme|Hother].
  - rewrite (surjective_pairing (OrdMap.subscript 0 curIndex (rw_globalToLocalMap st)))
      in H.
    lazy beta iota in H. apply bind_Done in H. destruct H as (a' & Hstore & H).
    injection H as <-. eexists. split; [exact Hrow|]. split; [exact Hcur|].
    split; [exact Hstore|]. left. split; [now symmetry|]. split; reflexivity.
  - rewrite (surjective_pairing
               (OrdMap.subscript 0 (to_local_int curIndex) (rw_externalToLocalMap st)))
      in H.
    lazy beta iota in H. apply bind_Done in H. destruct H as (a' & Hstore & H).
    injection H as <-. eexists. split; [exact Hrow|]. split; [exact Hcur|].
    split; [exact Hstore|]. right.
    split; [intros E; apply Hother; now symmetry|]. split; reflexivity.
Qed.

(** What every round of lines 143-150 keeps, the loops of line 141 keep. *)
Lemma rewrite_indices_keeps (I : rewriting -> Prop) (st st' : rewriting) :
  (forall i j row g s s1,
      reference A i j row g -> I s ->
      rewrite_entry to_local_int getRankOfMatrixRow geom A i j s = Done s1 -> I s1) ->
  I st ->
  rewrite_indices to_local_int getRankOfMatrixRow geom A st = Done st' -> I st'.
Proof.
  intros Hstep. unfold rewrite_indices. apply for_upto_keeps.
  intros i s s1 Hi Hs Hrow.
  destruct (well_formed_row A i Hwf Hi)
    as (cgr & cur_nnz & rowG & rowL & Hcgr & Hnnz & HrowG & _ & HlenG & _).
  unfold rewrite_row in Hrow. rewrite Hnnz in Hrow. cbn [bind] in Hrow.
  revert Hs Hrow. apply for_upto_keeps.
  intros j s2 s3 Hj Hs2 Hentry.
  destruct (load_in_range rowG j) as [curIndex Hcur]; [lia|].
  apply (Hstep i j cgr curIndex s2 s3); [|exact Hs2 | exact Hentry].
  split; [exact Hi|]. split; [exact Hcgr|]. exists cur_nnz, rowG. auto.
Qed.

(** The cells of [mtxIndL] that are no reference keep their content. *)
Lemma rewrite_indices_frame (st st' : rewriting) :
  rewrite_indices to_local_int getRankOfMatrixRow geom A st = Done st' ->
  forall i j, ~ visited A (Z.of_nat i) (Z.of_nat j) ->
              cell (rw_mtxIndL st') i j = cell (rw_mtxIndL st) i j.
Proof.
  apply (rewrite_indices_keeps
           (fun s => forall i j, ~ visited A (Z.of_nat i) (Z.of_nat j) ->
                                 cell (rw_mtxIndL s) i j = cell (rw_mtxIndL st) i j)).
  - intros i j row g s s1 Href Hs Hentry i' j' Hfree.
    destruct (rewrite_entry_inv i j s s1 Hentry)
      as (rw & curIndex & l & _ & _ & Hstore & _).
    destruct (store2_cell _ _ _ _ _ Hstore) as (Hi & Hj & _ & Hcell).
    rewrite Hcell.
    destruct (Nat.eqb_spec i' (Z.to_nat i)) as [->|Hne]; cbn [andb]; [|now apply Hs].
    destruct (Nat.eqb_spec j' (Z.to_nat j)) as [->|Hnej]; [|now apply Hs].
    exfalso. apply Hfree. rewrite !Z2Nat.id by assumption. now exists row, g.
  - reflexivity.
Qed.


(** [globalToLocalMap] is not changed when it knows the columns of this
    process. *)
Lemma rewrite_indices_known (st st' : rewriting) :
  (forall row g, referenced A row g -> getRankOfMatrixRow geom A g = rank geom ->
                 In g (OrdMap.keys (rw_globalToLocalMap st))) ->
  rewrite_indices to_local_int getRankOfMatrixRow geom A st = Done st' ->
  rw_globalToLocalMap st' = rw_globalToLocalMap st.
Proof.
  intros Hknown.
  apply (rewrite_indices_keeps
           (fun s => rw_globalToLocalMap s = rw_globalToLocalMap st)).
  - intros i j row g s s1 Href Hs Hentry.
    destruct (rewrite_entry_inv i j s s1 Hentry)
      as (rw & curIndex & l & Hrw & Hcur & _ & [(Hown & Hmap & _)|(_ & Hmap & _)]).
    + rewrite Hmap, Hs. rewrite map_subscript_present; [reflexivity|].
      apply (Hknown row); [|exact Hown]. exists i, j.
      destruct Href as (Hi & Hcgr & c & rw' & Hc & Hj & Hrw' & Hg).
      rewrite Hrw in Hrw'. injection Hrw' as <-.
      split; [exact Hi|]. split; [exact Hcgr|]. exists c, rw. auto.
    + now rewrite Hmap.
  - reflexivity.
Qed.

End Untouched.

Section SideEffects.

Variable to_local_int : global_int_t -> local_int_t.
Variable getRankOfMatrixRow : Geometry -> SparseMatrix -> global_int_t -> Z.

(** The run of lines 141-152 inside a run of the function. *)
Lemma SetupHalo_locals_rewrite (DEBUG : bool) (geom : Geometry) (A : SparseMatrix) :
  well_formed A = true ->
  assertions_pass getRankOfMatrixRow DEBUG geom A = true ->
  exists sendList receiveList A' ext rw,
    dependency_scan getRankOfMatrixRow geom A = Done (sendList, receiveList) /\
    scanned (rank geom) (getRankOfMatrixRow geom A) (referenced A)
      (sendList, receiveList) /\
    SetupHalo to_local_int getRankOfMatrixRow DEBUG geom A = Done A' /\
    halo_plan to_local_int getRankOfMatrixRow geom A sendList receiveList A' ext /\
    rewrite_indices to_local_int getRankOfMatrixRow geom A
      {| rw_mtxIndL := mtxIndL A;
         rw_globalToLocalMap := ensure_keys (walk sendList) (globalToLocalMap A);
         rw_externalToLocalMap := ext |} = Done rw /\
    mtxIndL A' = rw_mtxIndL rw /\
    globalToLocalMap A' = rw_globalToLocalMap rw.
Proof.
  intros Hwf Hpass.
  destruct (SetupHalo_plan to_local_int getRankOfMatrixRow DEBUG geom A Hwf Hpass)
    as (sendList & receiveList & A' & ext & Hscan & Hscanned & Hlocals & Hrun & Hplan).
  pose proof Hscanned as (Hs & Hr & Hkeys & _).
  destruct (assemble_assembling to_local_int A sendList receiveList
              (count_entries sendList) Hs Hr Hkeys eq_refl) as (asm & Hasm & Hinv).
  destruct (assembling_done to_local_int A sendList receiveList
              (count_entries sendList) Hs Hkeys eq_refl asm Hinv)
    as (_ & _ & _ & _ & _ & Hext & Hg2l).
  destruct Hplan as (Hext' & Hplan).
  unfold SetupHalo_locals in Hlocals. rewrite Hscan in Hlocals. cbn [bind] in Hlocals.
  apply bind_Done in Hlocals. destruct Hlocals as (u & _ & Hlocals).
  rewrite Hasm in Hlocals. cbn [bind] in Hlocals.
  apply bind_Done in Hlocals. destruct Hlocals as (rw & Hrw & Hlocals).
  injection Hlocals as HA' Hrwext.
  rewrite Hg2l, Hext, <- Hext' in Hrw.
  exists sendList, receiveList, A', ext, rw.
  split; [exact Hscan|]. split; [exact Hscanned|]. split; [exact Hrun|].
  split; [split; [exact Hext' | exact Hplan]|]. split; [exact Hrw|].
  rewrite <- HA'. split; reflexivity.
Qed.

(** What the function leaves of the members that are not the plan.  The
    number of rows, the nonzero counts, the global indices and
    [localToGlobalMap] are as they were; every row of [mtxIndL] has the
    extent that it had, and a cell beyond the nonzeros of its row keeps its
    content; [globalToLocalMap] keeps every entry that it had, and what it
    gives for any key, and is the one such member that can grow (lines
    131-134, 141-152 and 155-163). *)
Theorem rewriting_spares_the_rest (DEBUG : bool) (geom : Geometry) (A : SparseMatrix) :
  well_formed A = true ->
  assertions_pass getRankOfMatrixRow DEBUG geom A = true ->
  exists A',
    SetupHalo to_local_int getRankOfMatrixRow DEBUG geom A = Done A' /\
    localNumberOfRows A' = localNumberOfRows A /\
    nonzerosInRow A' = nonzerosInRow A /\
    mtxIndG A' = mtxIndG A /\
    localToGlobalMap A' = localToGlobalMap A /\
    map (@length Z) (mtxIndL A') = map (@length Z) (mtxIndL A) /\
    (forall i j, ~ visited A (Z.of_nat i) (Z.of_nat j) ->
                 cell (mtxIndL A') i j = cell (mtxIndL A) i j) /\
    (forall k v, OrdMap.find k (globalToLocalMap A) = Some v ->
                 OrdMap.find k (globalToLocalMap A') = Some v) /\
    (forall k, OrdMap.get 0 k (globalToLocalMap A')
               = OrdMap.get 0 k (globalToLocalMap A)).
Proof.
  intros Hwf Hpass.
  destruct (SetupHalo_locals_rewrite DEBUG geom A Hwf Hpass)
    as (sendList & receiveList & A' & ext & rw & _ & _ & Hrun & Hplan & Hrw & HL & _).
  destruct Hplan as (_ & (Hshape & _ & [Hget Hkeep] & _) & Hrows & Hnnz & HG & Hl2g & _).
  cbn [rw_globalToLocalMap] in Hget, Hkeep.
  exists A'. do 5 (split; [assumption|]). split; [exact Hshape|].
  split; [|split; [|exact Hget]].
  - intros i j Hfree. rewrite HL.
    apply (rewrite_indices_frame to_local_int getRankOfMatrixRow geom A Hwf _ rw Hrw
             i j Hfree).
  - intros k v Hv.
    assert (Hin : In k (OrdMap.keys (globalToLocalMap A'))).
    { apply Hkeep. apply map_find_Some_In in Hv. apply (in_map fst _ _ Hv). }
    destruct (map_keys_find k _ Hin) as [v' Hv'].
    rewrite Hv'. f_equal.
    rewrite <- (map_get_find 0 k _ v' Hv'), Hget.
    now apply map_get_find.
Qed.


End SideEffects.

Lemma padded_spare_cell : ~ visited padded (Z.of_nat 0) (Z.of_nat 1).
Proof.
  intros (row & g & _ & _ & c & rw & Hc & Hj & _).
  injection Hc as <-. simpl in Hj. lia.
Qed.

(** The second cell of the row of [padded] is beyond its one nonzero. *)
Lemma rewriting_spares_the_rest_padded :
  exists A',
    SetupHalo (wrap 32) (fun _ _ _ => 0) true {| rank := 0; size := 1 |} padded = Done A' /\
    cell (mtxIndL A') 0 1 = Some 7.
Proof.
  destruct (rewriting_spares_the_rest (wrap 32) (fun _ _ _ => 0) true
              {| rank := 0; size := 1 |} padded eq_refl eq_refl)
    as (A' & Hrun & _ & _ & _ & _ & _ & Hspare & _).
  exists A'. split; [exact Hrun|].
  rewrite (Hspare 0%nat 1%nat padded_spare_cell). reflexivity.
Defined.


(** ** The build without MPI *)

Lemma cell_load {T : Type} (a : list (list T)) (i j : Z) (v : T) :
  0 <= i -> 0 <= j ->
  cell a (Z.to_nat i) (Z.to_nat j) = Some v <->
  exists row, load a i = Done row /\ load row j = Done v.
Proof.
  intros Hi Hj. unfold cell. split.
  - destruct (nth_error a (Z.to_nat i)) as [row|] eqn:E; [|discriminate].
    intros Hv. exists row. split; apply load_Done; auto.
  - intros (row & Hrow & Hv). apply load_Done in Hrow, Hv.
    destruct Hrow as [_ ->]. now destruct Hv.
Qed.

(** Two arrays with rows of the same extents and with the same cells. *)
Lemma cells_ext {T : Type} (a b : list (list T)) :
  map (@length T) a = map (@length T) b ->
  (forall i j, cell a i j = cell b i j) -> a = b.
Proof.
  intros Hshape Hcells. apply nth_error_ext. intros i.
  pose proof (f_equal (fun l => nth_error l i) Hshape) as Hi.
  cbn beta in Hi. rewrite !nth_error_map in Hi.
  specialize (Hcells i). unfold cell in Hcells.
  destruct (nth_error a i) as [ra|], (nth_error b i) as [rb|];
    try discriminate Hi; [|reflexivity].
  f_equal. apply nth_error_ext. exact Hcells.
Qed.

(** On a well-formed matrix, the loops visit [(i, j)] or they do not. *)
Lemma visited_dec (A : SparseMatrix) (i j : Z) :
  well_formed A = true -> visited A i j \/ ~ visited A i j.
Proof.
  intros Hwf.
  destruct (Z_lt_dec i 0) as [Hneg|Hpos];
    [right; intros (row & g & Hi & _); lia|].
  destruct (Z_lt_dec i (localNumberOfRows A)) as [Hi|Hi];
    [|right; intros (row & g & Hi' & _); lia].
  destruct (well_formed_row A i Hwf (conj (proj1 (Z.nlt_ge _ _) Hpos) Hi))
    as (cgr & cur_nnz & rowG & rowL & Hcgr & Hnnz & HrowG & _ & HlenG & _).
  destruct (Z_lt_dec j 0) as [Hjneg|Hjpos];
    [right; intros (row & g & _ & _ & c & rw & _ & Hj & _); lia|].
  destruct (Z_lt_dec j cur_nnz) as [Hj|Hj].
  - left. destruct (load_in_range rowG j) as [curIndex Hcur]; [lia|].
    exists cgr, curIndex. split; [lia|]. split; [exact Hcgr|].
    exists cur_nnz, rowG. repeat split; auto; lia.
  - right. intros (row & g & _ & _ & c & rw & Hc & Hj' & _).
    rewrite Hnnz in Hc. injection Hc as <-. lia.
Qed.

Section WithoutMPI.

Variable to_local_int : global_int_t -> local_int_t.
Variable A : SparseMatrix.
Hypothesis Hwf : well_formed A = true.

(** One round of the inner loop of line 59. *)
Lemma copy_entry_copied (i j cur_nnz : Z) (mtxIndL' : list (list local_int_t)) :
  0 <= i < localNumberOfRows A ->
  load (nonzerosInRow A) i = Done cur_nnz -> 0 <= j < cur_nnz ->
  copied to_local_int A i j mtxIndL' ->
  exists mtxIndL'',
    copy_entry to_local_int A i j mtxIndL' = Done mtxIndL'' /\
    copied to_local_int A i (j + 1) mtxIndL''.
Proof.
  intros Hi Hnnz Hj (Hshape & Hrefs & Hfree).
  destruct (well_formed_row A i Hwf Hi)
    as (cgr & cur_nnz' & rowG & rowL & Hcgr & Hnnz' & HrowG & HrowL & HlenG & HlenL).
  rewrite Hnnz in Hnnz'. injection Hnnz' as <-.
  destruct (load_in_range rowG j) as [curIndex Hcur]; [lia|].
  assert (Href : reference A i j cgr curIndex).
  { split; [exact Hi|]. split; [exact Hcgr|]. exists cur_nnz, rowG. auto. }
  destruct (same_extents mtxIndL' (mtxIndL A) i rowL Hshape HrowL)
    as (rowL' & HrowL' & Hlen').
  destruct (store2_Done mtxIndL' i j (to_local_int curIndex) rowL' HrowL')
    as (a' & Hrun & _); [lia|].
  destruct (store2_cell _ _ _ _ _ Hrun) as (_ & _ & Hshape' & Hcell).
  exists a'. split.
  { unfold copy_entry. rewrite HrowG. cbn [bind]. rewrite Hcur. cbn [bind]. exact Hrun. }
  split; [now rewrite Hshape'|]. split.
  - intros i' j' row g Href' Hbefore. rewrite Hcell.
    pose proof Href' as (Hi' & _ & c' & rw' & _ & Hj' & _).
    destruct (Nat.eqb_spec (Z.to_nat i') (Z.to_nat i)) as [Ei|Ei]; cbn [andb].
    + assert (i' = i) by lia. subst i'.
      destruct (Nat.eqb_spec (Z.to_nat j') (Z.to_nat j)) as [Ej|Ej].
      * assert (j' = j) by lia. subst j'.
        destruct (reference_functional A _ _ _ _ _ _ Href' Href) as [_ ->]. reflexivity.
      * apply (Hrefs i j' row g Href'). right. split; [reflexivity|].
        assert (j' <> j) by (intros ->; now apply Ej). lia.
    + apply (Hrefs i' j' row g Href'). left.
      assert (i' <> i) by (intros ->; now apply Ei). lia.
  - intros i' j' Hspare. rewrite Hcell.
    destruct (Nat.eqb_spec i' (Z.to_nat i)) as [->|Ei]; cbn [andb]; [|now apply Hfree].
    destruct (Nat.eqb_spec j' (Z.to_nat j)) as [->|Ej]; [|now apply Hfree].
    exfalso. apply Hspare. rewrite !Z2Nat.id by lia. now exists cgr, curIndex.
Qed.

Lemma copied_ext (i j i' j' : Z) (mtxIndL' : list (list local_int_t)) :
  (forall i0 j0 row g, reference A i0 j0 row g ->
                       i0 < i' \/ (i0 = i' /\ j0 < j') -> i0 < i \/ (i0 = i /\ j0 < j)) ->
  copied to_local_int A i j mtxIndL' -> copied to_local_int A i' j' mtxIndL'.
Proof.
  intros Himp (Hshape & Hrefs & Hfree).
  split; [exact Hshape|]. split; [|exact Hfree].
  intros i0 j0 row g Href Hbefore. apply (Hrefs i0 j0 row g Href).
  now apply (Himp i0 j0 row g).
Qed.

(** One round of the outer loop of line 56. *)
Lemma copy_row_copied (i : Z) (mtxIndL' : list (list local_int_t)) :
  0 <= i < localNumberOfRows A ->
  copied to_local_int A i 0 mtxIndL' ->
  exists mtxIndL'',
    copy_row to_local_int A i mtxIndL' = Done mtxIndL'' /\
    copied to_local_int A (i + 1) 0 mtxIndL''.
Proof.
  intros Hi Hinv.
  destruct (well_formed_row A i Hwf Hi)
    as (cgr & cur_nnz & rowG & rowL & Hcgr & Hnnz & HrowG & HrowL & HlenG & HlenL).
  unfold copy_row. rewrite Hnnz. cbn [bind].
  destruct (for_upto_rule (fun j s => copied to_local_int A i j s)
              (copy_entry to_local_int A i) cur_nnz mtxIndL' Hinv)
    as (a' & Hrun & Hend).
  - intros j s Hj Hs. now apply copy_entry_copied with (cur_nnz := cur_nnz).
  - exists a'. split; [exact Hrun|].
    apply copied_ext with (i := i) (j := Z.max 0 cur_nnz); [|exact Hend].
    intros i0 j0 row g Href Hbefore.
    destruct Href as (_ & _ & c & rw & Hc & Hj & _).
    destruct (Z.eq_dec i0 i) as [->|Hne]; [right | left; lia].
    split; [reflexivity|]. rewrite Hnnz in Hc. injection Hc as <-. lia.
Qed.

(** Lines 56-61 end; every reference then holds its converted global
    index. *)
Lemma SetupHalo_NOMPI_copied :
  exists A',
    SetupHalo_NOMPI to_local_int A = Done A' /\
    copied to_local_int A (localNumberOfRows A) 0 (mtxIndL A') /\
    localNumberOfRows A' = localNumberOfRows A /\
    localNumberOfColumns A' = localNumberOfColumns A /\
    nonzerosInRow A' = nonzerosInRow A /\
    mtxIndG A' = mtxIndG A /\
    globalToLocalMap A' = globalToLocalMap A /\
    localToGlobalMap A' = localToGlobalMap A /\
    numberOfExternalValues A' = numberOfExternalValues A /\
    numberOfSendNeighbors A' = numberOfSendNeighbors A /\
    totalToBeSent A' = totalToBeSent A /\
    elementsToSend A' = elementsToSend A /\
    neighbors A' = neighbors A /\
    receiveLength A' = receiveLength A /\
    sendLength A' = sendLength A /\
    sendBuffer A' = sendBuffer A.
Proof.
  destruct (for_upto_rule (fun i s => copied to_local_int A i 0 s)
              (copy_row to_local_int A) (localNumberOfRows A) (mtxIndL A))
    as (a' & Hrun & Hend).
  - split; [reflexivity|]. split; [|reflexivity].
    intros i' j' row g (Hi & _ & c & rw & _ & Hj & _) Hbefore. lia.
  - intros i s Hi Hs. now apply copy_row_copied.
  - eexists. split; [unfold SetupHalo_NOMPI; rewrite Hrun; reflexivity|].
    cbn [localNumberOfRows localNumberOfColumns nonzerosInRow mtxIndG mtxIndL
           globalToLocalMap localToGlobalMap numberOfExternalValues
           numberOfSendNeighbors totalToBeSent elementsToSend neighbors
           receiveLength sendLength sendBuffer].
    split; [|repeat split; reflexivity].
    apply copied_ext with (i := Z.max 0 (localNumberOfRows A)) (j := 0); [|exact Hend].
    intros i0 j0 row g Href Hbefore. destruct Href as (Hi0 & _). lia.
Qed.

End WithoutMPI.

(** Without MPI (lines 54-61), on a well-formed matrix, the function runs
    to its end; every column reference of [mtxIndL] then holds the global
    index of [mtxIndG], converted to [local_int_t]; the other cells of
    [mtxIndL] and the other members of the matrix are as they were: no
    plan is made. *)
Theorem without_MPI_indices_are_copied
  (to_local_int : global_int_t -> local_int_t) (A : SparseMatrix) :
  well_formed A = true ->
  exists A',
    SetupHalo_NOMPI to_local_int A = Done A' /\
    (forall i j row g,
        reference A i j row g ->
        exists rowL, load (mtxIndL A') i = Done rowL /\
                     load rowL j = Done (to_local_int g)) /\
    map (@length Z) (mtxIndL A') = map (@length Z) (mtxIndL A) /\
    (forall i j, ~ visited A (Z.of_nat i) (Z.of_nat j) ->
                 cell (mtxIndL A') i j = cell (mtxIndL A) i j) /\
    localNumberOfRows A' = localNumberOfRows A /\
    localNumberOfColumns A' = localNumberOfColumns A /\
    nonzerosInRow A' = nonzerosInRow A /\
    mtxIndG A' = mtxIndG A /\
    globalToLocalMap A' = globalToLocalMap A /\
    localToGlobalMap A' = localToGlobalMap A /\
    numberOfExternalValues A' = numberOfExternalValues A /\
    numberOfSendNeighbors A' = numberOfSendNeighbors A /\
    totalToBeSent A' = totalToBeSent A /\
    elementsToSend A' = elementsToSend A /\
    neighbors A' = neighbors A /\
    receiveLength A' = receiveLength A /\
    sendLength A' = sendLength A /\
    sendBuffer A' = sendBuffer A.
Proof.
  intros Hwf.
  destruct (SetupHalo_NOMPI_copied to_local_int A Hwf)
    as (A' & Hrun & (Hshape & Hrefs & Hfree) & Hrest).
  exists A'. split; [exact Hrun|]. split; [|split; [exact Hshape|split; [exact Hfree|exact Hrest]]].
  intros i j row g Href.
  pose proof Href as (Hi & _ & c & rw & _ & Hj & _).
  apply cell_load; [lia | lia |].
  apply (Hrefs i j row g Href). left. lia.
Qed.

(** On one process whose ownership map gives to every column its converted
    global index, as the identity numbering of a single participant does,
    the build with MPI leaves the [mtxIndL] of the build without. *)
Theorem builds_agree_on_one_process
  (to_local_int : global_int_t -> local_int_t)
  (getRankOfMatrixRow : Geometry -> SparseMatrix -> global_int_t -> Z)
  (DEBUG : bool) (geom : Geometry) (A : SparseMatrix) :
  well_formed A = true ->
  (forall row g, referenced A row g -> getRankOfMatrixRow geom A g = rank geom) ->
  (forall row g, referenced A row g ->
                 OrdMap.get 0 g (globalToLocalMap A) = to_local_int g) ->
  exists A' A'',
    SetupHalo to_local_int getRankOfMatrixRow DEBUG geom A = Done A' /\
    SetupHalo_NOMPI to_local_int A = Done A'' /\
    mtxIndL A' = mtxIndL A''.
Proof.
  intros Hwf Hlocal Hidentity.
  destruct (dependency_scan_scanned getRankOfMatrixRow geom A Hwf)
    as ([sendList receiveList] & Hscan & Hscanned).
  assert (Hempty : receiveList = []).
  { destruct (scanned_walk _ _ _ _ _ Hscanned) as [_ Hwalk].
    destruct Hscanned as (_ & _ & _ & _ & Hrets & _).
    destruct receiveList as [|[r s] receiveList]; [reflexivity|]. exfalso.
    destruct (Hrets r s (or_introl eq_refl)) as [_ Hne].
    destruct s as [|g s]; [now apply Hne|].
    destruct (proj1 (Hwalk g)) as (Hown & row & Href); [now left|].
    apply Hown. now apply (Hlocal row). }
  assert (Hpass : assertions_pass getRankOfMatrixRow DEBUG geom A = true).
  { unfold assertions_pass. rewrite Hscan. destruct DEBUG; [|reflexivity].
    cbn [negb orb].
    destruct Hscanned as (Hs & Hr & Hkeys & _).
    apply (debug_assertions_sizes sendList receiveList Hs Hr Hkeys).
    subst receiveList. destruct sendList; [reflexivity | discriminate Hkeys]. }
  destruct (rewritten_reference to_local_int getRankOfMatrixRow DEBUG geom A Hwf Hpass)
    as (sendList' & receiveList' & A' & ext & _ & _ & Hrun & Hplan & Hcells).
  destruct (SetupHalo_locals_rewrite to_local_int getRankOfMatrixRow DEBUG geom A Hwf Hpass)
    as (sendList2 & receiveList2 & A2 & ext2 & rw & _ & _ & Hrun2 & _ & Hrw & HL & _).
  rewrite Hrun in Hrun2. injection Hrun2 as <-.
  destruct Hplan as (_ & (Hshape & _) & _).
  cbn [rw_mtxIndL] in Hshape.
  destruct (SetupHalo_NOMPI_copied to_local_int A Hwf)
    as (A'' & Hrun'' & (Hshape'' & Hrefs'' & Hfree'') & _).
  exists A', A''. split; [exact Hrun|]. split; [exact Hrun''|].
  apply cells_ext; [now rewrite Hshape, Hshape''|].
  intros i j.
  destruct (visited_dec A (Z.of_nat i) (Z.of_nat j) Hwf) as [(row & g & Href)|Hspare].
  - rewrite <- (Nat2Z.id i), <- (Nat2Z.id j).
    rewrite (Hrefs'' _ _ row g Href) by (left; destruct Href as (Hi & _); lia).
    apply cell_load; [lia | lia |].
    destruct (Hcells _ _ row g Href) as (rowL & HrowL & Hv).
    exists rowL. split; [exact HrowL|]. rewrite Hv. f_equal.
    unfold local_index.
    destruct (Z.eqb_spec (rank geom) (getRankOfMatrixRow geom A g)) as [_|Hne].
    + apply (Hidentity row). now exists (Z.of_nat i), (Z.of_nat j).
    + exfalso. apply Hne. symmetry. apply (Hlocal row).
      now exists (Z.of_nat i), (Z.of_nat j).
  - rewrite (Hfree'' i j Hspare), HL.
    apply (rewrite_indices_frame to_local_int getRankOfMatrixRow geom A Hwf _ rw Hrw
             i j Hspare).
Qed.

Lemma padded_reference : reference padded 0 0 0 0.
Proof.
  unfold reference. split; [simpl; lia|]. split; [reflexivity|].
  exists 1, [0; 9]. repeat split; try reflexivity; lia.
Qed.

Lemma without_MPI_indices_are_copied_padded :
  exists A',
    SetupHalo_NOMPI (wrap 32) padded = Done A' /\
    (exists rowL, load (mtxIndL A') 0 = Done rowL /\ load rowL 0 = Done 0) /\
    cell (mtxIndL A') 0 1 = Some 7.
Proof.
  destruct (without_MPI_indices_are_copied (wrap 32) padded eq_refl)
    as (A' & Hrun & Hrefs & _ & Hspare & _).
  exists A'. split; [exact Hrun|]. split.
  - exact (Hrefs 0 0 0 0 padded_reference).
  - rewrite (Hspare 0%nat 1%nat padded_spare_cell). reflexivity.
Defined.

(** The one process that has all of [fan] numbers its rows as the matrix
    does. *)
Lemma fan_identity_numbering (row g : global_int_t) :
  referenced (local_matrix (fun _ => 0) 0 fan) row g ->
  OrdMap.get 0 g (globalToLocalMap (local_matrix (fun _ => 0) 0 fan)) = wrap 32 g.
Proof.
  intros (i & j & Href).
  pose proof (reference_row_columns _ i j row g Href) as Hin.
  destruct Href as (Hi & _). change (0 <= i < 3) in Hi.
  assert (Hcases : i = 0 \/ i = 1 \/ i = 2) by lia.
  destruct Hcases as [-> | [-> | ->]]; vm_compute in Hin;
    repeat (destruct Hin as [<-|Hin]; [reflexivity|]); destruct Hin.
Qed.

Lemma builds_agree_on_one_process_fan :
  exists A' A'',
    SetupHalo (wrap 32) (fun _ _ _ => 0) true {| rank := 0; size := 1 |}
      (local_matrix (fun _ => 0) 0 fan) = Done A' /\
    SetupHalo_NOMPI (wrap 32) (local_matrix (fun _ => 0) 0 fan) = Done A'' /\
    mtxIndL A' = mtxIndL A''.
Proof.
  exact (builds_agree_on_one_process (wrap 32) (fun _ _ _ => 0) true
           {| rank := 0; size := 1 |} (local_matrix (fun _ => 0) 0 fan)
           eq_refl (fun _ _ _ => eq_refl) fan_identity_numbering).
Defined.

(** ** The plans of two processes *)

(** The length that the plan records for the neighbor [r]. *)
Lemma plan_length_at (m m' : neighbor_sets) (k : Z) (r : Z) :
  OrdMap.ascending m -> OrdMap.keys m = OrdMap.keys m' ->
  load (map (fun curNeighbor : Z * OrdSet.t => Some (fst curNeighbor)) m') k
  = Done (Some r) ->
  load (map (fun curNeighbor : Z * OrdSet.t => Some (OrdSet.size (snd curNeighbor))) m) k
  = Done (Some (OrdSet.size (OrdMap.get OrdSet.empty r m))).
Proof.
  intros Hm Hkeys Hload. apply load_Done in Hload. destruct Hload as [Hk Hnth].
  apply load_Done. split; [exact Hk|].
  rewrite nth_error_map in Hnth.
  destruct (nth_error m' (Z.to_nat k)) as [e'|] eqn:E'; [|discriminate Hnth].
  injection Hnth as Hr.
  assert (Hkey : nth_error (OrdMap.keys m) (Z.to_nat k) = Some r).
  { rewrite Hkeys. unfold OrdMap.keys. rewrite nth_error_map, E'. simpl. now rewrite Hr. }
  unfold OrdMap.keys in Hkey. rewrite nth_error_map in Hkey.
  rewrite nth_error_map.
  destruct (nth_error m (Z.to_nat k)) as [[r0 s]|] eqn:E; [|discriminate Hkey].
  simpl in Hkey. injection Hkey as ->. simpl. do 3 f_equal.
  symmetry. apply map_get_find. apply map_In_find; [exact Hm|].
  now apply nth_error_In with (n := Z.to_nat k).
Qed.

Section TwoProcesses.

Variable to_local_int : global_int_t -> local_int_t.
Variable owner : global_int_t -> Z.

(** What one process sends to another is what the other expects from it,
    when the references of the two are mirrored. *)
Lemma mirrored_sets (a b : Z) (A B : SparseMatrix)
  (sendA receiveA sendB receiveB : neighbor_sets) :
  a <> b ->
  (forall row g, referenced A row g -> owner row = a) ->
  (forall row g, referenced B row g -> owner row = b) ->
  (forall row g, owner row = a -> owner g = b ->
                 (referenced A row g <-> referenced B g row)) ->
  scanned a owner (referenced A) (sendA, receiveA) ->
  scanned b owner (referenced B) (sendB, receiveB) ->
  OrdMap.get OrdSet.empty b sendA = OrdMap.get OrdSet.empty a receiveB /\
  OrdMap.get OrdSet.empty b receiveA = OrdMap.get OrdSet.empty a sendB.
Proof.
  intros Hab HrowsA HrowsB Hmirror
    (_ & _ & _ & HsetsA & HretsA & HrecvA & HsendA)
    (_ & _ & _ & HsetsB & HretsB & HrecvB & HsendB).
  split; apply ascending_unique; try (now apply scanned_get_ascending).
  - intros x. rewrite HsendA, HrecvB. split.
    + intros (_ & g & Hg & Href). split; [exact Hab|].
      pose proof (HrowsA x g Href) as Hx. split; [exact Hx|].
      exists g. now apply (Hmirror x g Hx Hg).
    + intros (_ & Hx & row & Href). split; [auto|].
      pose proof (HrowsB row x Href) as Hrow.
      exists row. split; [exact Hrow|]. now apply (Hmirror x row Hx Hrow).
  - intros x. rewrite HrecvA, HsendB. split.
    + intros (_ & Hx & row & Href). split; [exact Hab|].
      pose proof (HrowsA row x Href) as Hrow.
      exists row. split; [exact Hrow|]. now apply (Hmirror row x Hrow Hx).
    + intros (_ & g & Hg & Href). split; [auto|].
      pose proof (HrowsB x g Href) as Hx. split; [exact Hx|].
      exists g. now apply (Hmirror g x Hg Hx).
Qed.

(** Two processes [a] and [b] whose matrices mirror each other, as the
    parts of a matrix with a symmetric pattern do: [a] refers to the column
    [g] of [b] from its row [row] exactly when [b] refers to the column
    [row] from its row [g].  Then the plans fit: the set of rows that [a]
    sends to [b] is the set of columns that [b] receives from [a], and
    back; each is a neighbor of the other or neither is; and the lengths
    that [a] records for [b] are those that [b] records for [a], swapped
    (lines 85-88 and 123-127). *)
Theorem plans_of_two_processes_fit
  (DEBUG : bool) (geomA geomB : Geometry) (A B : SparseMatrix) :
  well_formed A = true -> well_formed B = true ->
  assertions_pass (fun _ _ => owner) DEBUG geomA A = true ->
  assertions_pass (fun _ _ => owner) DEBUG geomB B = true ->
  rank geomA <> rank geomB ->
  (forall row g, referenced A row g -> owner row = rank geomA) ->
  (forall row g, referenced B row g -> owner row = rank geomB) ->
  (forall row g, owner row = rank geomA -> owner g = rank geomB ->
                 (referenced A row g <-> referenced B g row)) ->
  exists sendA receiveA sendB receiveB A' B',
    dependency_scan (fun _ _ => owner) geomA A = Done (sendA, receiveA) /\
    dependency_scan (fun _ _ => owner) geomB B = Done (sendB, receiveB) /\
    SetupHalo to_local_int (fun _ _ => owner) DEBUG geomA A = Done A' /\
    SetupHalo to_local_int (fun _ _ => owner) DEBUG geomB B = Done B' /\
    OrdMap.get OrdSet.empty (rank geomB) sendA
    = OrdMap.get OrdSet.empty (rank geomA) receiveB /\
    OrdMap.get OrdSet.empty (rank geomB) receiveA
    = OrdMap.get OrdSet.empty (rank geomA) sendB /\
    (In (Some (rank geomB)) (neighbors A') <-> In (Some (rank geomA)) (neighbors B')) /\
    (forall ka kb,
        load (neighbors A') ka = Done (Some (rank geomB)) ->
        load (neighbors B') kb = Done (Some (rank geomA)) ->
        load (sendLength A') ka = load (receiveLength B') kb /\
        load (receiveLength A') ka = load (sendLength B') kb).
Proof.
  intros HwfA HwfB HpassA HpassB Hab HrowsA HrowsB Hmirror.
  destruct (SetupHalo_plan to_local_int (fun _ _ => owner) DEBUG geomA A HwfA HpassA)
    as (sendA & receiveA & A' & extA & HscanA & HscannedA & _ & HrunA & HplanA).
  destruct (SetupHalo_plan to_local_int (fun _ _ => owner) DEBUG geomB B HwfB HpassB)
    as (sendB & receiveB & B' & extB & HscanB & HscannedB & _ & HrunB & HplanB).
  destruct (mirrored_sets (rank geomA) (rank geomB) A B sendA receiveA sendB receiveB
              Hab HrowsA HrowsB Hmirror HscannedA HscannedB) as [Hsend Hrecv].
  destruct HscannedA as (HsA & HrA & HkeysA & HsetsA & HretsA & _).
  destruct HscannedB as (HsB & HrB & HkeysB & HsetsB & HretsB & _).
  destruct HplanA as (_ & _ & _ & _ & _ & _ & _ & _ & _ & _ & HnbA & HrlenA & HslenA & _).
  destruct HplanB as (_ & _ & _ & _ & _ & _ & _ & _ & _ & _ & HnbB & HrlenB & HslenB & _).
  exists sendA, receiveA, sendB, receiveB, A', B'.
  do 6 (split; [assumption|]).
  assert (Hnb : forall (m : neighbor_sets) (r : Z),
             In (Some r) (map (fun curNeighbor : Z * OrdSet.t => Some (fst curNeighbor)) m)
             <-> In r (OrdMap.keys m)).
  { intros m r. unfold OrdMap.keys. rewrite !in_map_iff. split.
    - intros (e & He & Hin). injection He as <-. now exists e.
    - intros (e & <- & Hin). now exists e. }
  split.
  - rewrite HnbA, HnbB, !Hnb.
    rewrite <- (get_not_empty receiveA (rank geomB) HretsA).
    rewrite <- HkeysB, <- (get_not_empty sendB (rank geomA) HsetsB).
    now rewrite Hrecv.
  - intros ka kb Hka Hkb. rewrite HnbA in Hka. rewrite HnbB in Hkb.
    rewrite HslenA, HrlenA, HslenB, HrlenB.
    rewrite (plan_length_at sendA receiveA ka (rank geomB) HsA HkeysA Hka).
    rewrite (plan_length_at receiveA receiveA ka (rank geomB) HrA eq_refl Hka).
    rewrite (plan_length_at sendB receiveB kb (rank geomA) HsB HkeysB Hkb).
    rewrite (plan_length_at receiveB receiveB kb (rank geomA) HrB eq_refl Hkb).
    now rewrite Hsend, Hrecv.
Qed.

End TwoProcesses.

(** The references of the part that a process holds of a matrix. *)
Lemma local_matrix_referenced (owner : Z -> Z) (me : Z) (p : pattern)
  (row g : global_int_t) :
  referenced (local_matrix owner me p) row g <->
  owner row = me /\ exists ci, In (row, ci) p /\ In g ci.
Proof.
  unfold referenced, reference, local_matrix.
  cbn [localNumberOfRows localToGlobalMap nonzerosInRow mtxIndG]. split.
  - intros (i & j & Hi & Hrow & c & rw & Hc & Hj & Hrw & Hg).
    apply load_Done in Hrow, Hrw, Hg.
    destruct Hrow as [_ Hrow], Hrw as [_ Hrw], Hg as [_ Hg].
    rewrite nth_error_map in Hrow, Hrw.
    destruct (nth_error (local_part owner me p) (Z.to_nat i)) as [[r ci]|] eqn:E;
      [|discriminate Hrow].
    simpl in Hrow, Hrw. injection Hrow as ->. injection Hrw as ->.
    apply nth_error_In in E, Hg. unfold local_part in E. apply filter_In in E.
    destruct E as [Hin Hown]. simpl in Hown. apply Z.eqb_eq in Hown.
    split; [exact Hown|]. now exists rw.
  - intros (Hown & ci & Hin & Hg).
    assert (Hmine : In (row, ci) (local_part owner me p)).
    { unfold local_part. apply filter_In. split; [exact Hin|]. simpl. now apply Z.eqb_eq. }
    apply In_nth_error in Hmine, Hg. destruct Hmine as [n Hn], Hg as [k Hk].
    assert (Hlt : (n < length (local_part owner me p))%nat)
      by (apply nth_error_Some; congruence).
    assert (Hltk : (k < length ci)%nat) by (apply nth_error_Some; congruence).
    exists (Z.of_nat n), (Z.of_nat k). split; [lia|]. split.
    { apply load_Done. split; [lia|]. now rewrite Nat2Z.id, nth_error_map, Hn. }
    exists (Z.of_nat (length ci)), ci. split.
    { apply load_Done. split; [lia|]. now rewrite Nat2Z.id, nth_error_map, Hn. }
    split; [lia|]. split.
    { apply load_Done. split; [lia|]. now rewrite Nat2Z.id, nth_error_map, Hn. }
    apply load_Done. split; [lia|]. now rewrite Nat2Z.id.
Qed.

(** The parts that two processes hold of a matrix with a symmetric pattern
    mirror each other. *)
Lemma symmetric_parts_mirror (owner : Z -> Z) (a b : Z) (p : pattern)
  (row g : global_int_t) :
  symmetric p -> owner row = a -> owner g = b ->
  referenced (local_matrix owner a p) row g <-> referenced (local_matrix owner b p) g row.
Proof.
  intros Hsym Hrow Hg. rewrite !local_matrix_referenced. split.
  - intros (_ & ci & Hin & Hci). split; [exact Hg|]. now apply (Hsym row g ci).
  - intros (_ & cj & Hin & Hcj). split; [exact Hrow|]. now apply (Hsym g row cj).
Qed.

(** The two processes of [fan]: process 0 sends its rows 0 and 1 to
    process 1, that expects the columns 0 and 1 from it. *)
Lemma plans_of_two_processes_fit_fan :
  exists sendA receiveB,
    (exists receiveA,
        dependency_scan (fun _ _ => fan_owner) {| rank := 0; size := 2 |}
          (local_matrix fan_owner 0 fan) = Done (sendA, receiveA)) /\
    (exists sendB,
        dependency_scan (fun _ _ => fan_owner) {| rank := 1; size := 2 |}
          (local_matrix fan_owner 1 fan) = Done (sendB, receiveB)) /\
    OrdMap.get OrdSet.empty 1 sendA = OrdMap.get OrdSet.empty 0 receiveB.
Proof.
  assert (Hab : rank {| rank := 0; size := 2 |} <> rank {| rank := 1; size := 2 |})
    by (intros E; discriminate E).
  destruct (plans_of_two_processes_fit (wrap 32) fan_owner false
              {| rank := 0; size := 2 |} {| rank := 1; size := 2 |}
              (local_matrix fan_owner 0 fan) (local_matrix fan_owner 1 fan)
              eq_refl eq_refl eq_refl eq_refl Hab
              (fun row g H => proj1 (proj1 (local_matrix_referenced _ _ _ _ _) H))
              (fun row g H => proj1 (proj1 (local_matrix_referenced _ _ _ _ _) H))
              (fun row g => symmetric_parts_mirror fan_owner 0 1 fan row g fan_symmetric))
    as (sendA & receiveA & sendB & receiveB & A' & B' & HscanA & HscanB & _ & _ & Hfit & _).
  exists sendA, receiveB.
  split; [now exists receiveA|]. split; [now exists sendB | exact Hfit].
Defined.

(** ** Counting the external values *)

Lemma NoDup_map_injective {T : Type} (f : T -> Z) (l : list T) :
  NoDup (map f l) -> forall x y, In x l -> In y l -> f x = f y -> x = y.
Proof.
  induction l as [|z l IH]; intros Hnd x y Hx Hy Heq; [contradiction|].
  simpl in Hnd. apply NoDup_cons_iff in Hnd. destruct Hnd as [Hz Hnd].
  destruct Hx as [<-|Hx], Hy as [<-|Hy].
  - reflexivity.
  - exfalso. apply Hz. rewrite Heq. now apply in_map.
  - exfalso. apply Hz. rewrite <- Heq. now apply in_map.
  - now apply IH.
Qed.

Section Counting.

Variable to_local_int : global_int_t -> local_int_t.
Variable getRankOfMatrixRow : Geometry -> SparseMatrix -> global_int_t -> Z.

(** [numberOfExternalValues] is the number of keys of [externalToLocalMap]
    (line 155), and the receive lengths count the remote column ids: the
    first is never more than the sum of the second, and it is that sum
    exactly when no two remote column ids are converted to the same
    key. *)
Theorem externals_counted_by_keys (DEBUG : bool) (geom : Geometry) (A : SparseMatrix) :
  well_formed A = true ->
  assertions_pass getRankOfMatrixRow DEBUG geom A = true ->
  exists receiveList A',
    (exists sendList,
        dependency_scan getRankOfMatrixRow geom A = Done (sendList, receiveList)) /\
    SetupHalo to_local_int getRankOfMatrixRow DEBUG geom A = Done A' /\
    0 <= numberOfExternalValues A' <= sum_cells (receiveLength A') /\
    (numberOfExternalValues A' = sum_cells (receiveLength A') <->
     distinct_keys to_local_int (walk receiveList)).
Proof.
  intros Hwf Hpass.
  destruct (SetupHalo_plan to_local_int getRankOfMatrixRow DEBUG geom A Hwf Hpass)
    as (sendList & receiveList & A' & ext & Hscan & Hscanned & _ & Hrun & Hplan).
  destruct (scanned_walk _ _ _ _ _ Hscanned) as [Hnd _].
  destruct Hplan as (Hext & _ & _ & _ & _ & _ & Hnext & _ & _ & _ & _ & Hrlen & _).
  assert (Hkeys : NoDup (OrdMap.keys ext)).
  { apply ascending_NoDup. rewrite Hext. apply assign_walk_ascending. constructor. }
  assert (Hincl : incl (OrdMap.keys ext) (map to_local_int (walk receiveList))).
  { intros k Hk. rewrite Hext in Hk.
    apply (assign_walk_keys to_local_int (localNumberOfRows A)) in Hk.
    destruct Hk as [Hk|[]]. exact Hk. }
  pose proof (NoDup_incl_length Hkeys Hincl) as Hle.
  unfold OrdMap.keys in Hle. rewrite !length_map in Hle.
  exists receiveList, A'. split; [now exists sendList|]. split; [exact Hrun|].
  rewrite Hnext, Hrlen, sum_cells_sizes. unfold OrdMap.size.
  split; [lia|]. split.
  - intros Heq. apply Nat2Z.inj in Heq.
    unfold distinct_keys.
    apply (NoDup_map_injective to_local_int (walk receiveList)).
    apply (NoDup_incl_NoDup Hkeys); [|exact Hincl].
    unfold OrdMap.keys. rewrite !length_map. lia.
  - intros Hdistinct. f_equal. rewrite Hext.
    rewrite assign_walk_length; [reflexivity | | intros g _ []].
    apply Injective_map_NoDup_in; [|exact Hnd].
    intros g g' Hg Hg'. now apply Hdistinct.
Qed.

End Counting.

(** Process 1 of the chain: its two remote columns have two keys. *)
Lemma externals_counted_by_keys_chain :
  exists A',
    SetupHalo (wrap 32) (fun _ _ => chain_owner) true {| rank := 1; size := 4 |}
      (local_matrix chain_owner 1 chain) = Done A' /\
    numberOfExternalValues A' = sum_cells (receiveLength A').
Proof.
  destruct (externals_counted_by_keys (wrap 32) (fun _ _ => chain_owner) true
              {| rank := 1; size := 4 |} (local_matrix chain_owner 1 chain)
              eq_refl eq_refl)
    as (receiveList & A' & (sendList & Hscan) & Hrun & _ & Hiff).
  vm_compute in Hscan. injection Hscan as <- <-.
  exists A'. split; [exact Hrun|]. apply Hiff.
  intros g g' Hg Hg' E. cbn [walk concat map snd app] in Hg, Hg'.
  destruct Hg as [<-|[<-|[]]]; destruct Hg' as [<-|[<-|[]]];
    try reflexivity; vm_compute in E; discriminate E.
Defined.

(** ** The plan and the order of the references *)

(** A [std::map] is determined by its keys and what [m[k]] gives. *)
Lemma maps_ext {V : Type} (d : V) (m m' : OrdMap.t V) :
  OrdMap.ascending m -> OrdMap.keys m = OrdMap.keys m' ->
  (forall k, OrdMap.get d k m = OrdMap.get d k m') -> m = m'.
Proof.
  revert m'. induction m as [|[k v] m IH]; intros [|[k' v'] m'] Hm Hkeys Hget;
    try discriminate Hkeys; [reflexivity|].
  simpl in Hkeys. injection Hkeys as <- Hkeys.
  unfold OrdMap.ascending in Hm. simpl in Hm.
  pose proof (ascending_NoDup _ Hm) as Hnd. apply NoDup_cons_iff in Hnd.
  destruct Hnd as [Hk _]. apply StronglySorted_inv in Hm. destruct Hm as [Hm _].
  pose proof (Hget k) as Hv. unfold OrdMap.get in Hv. simpl in Hv.
  rewrite Z.eqb_refl in Hv. subst v'. f_equal.
  apply IH; [exact Hm | exact Hkeys |].
  intros r. destruct (Z.eq_dec r k) as [->|Hne].
  - unfold OrdMap.get.
    rewrite (proj2 (map_find_None k m) Hk).
    rewrite Hkeys in Hk. now rewrite (proj2 (map_find_None k m') Hk).
  - specialize (Hget r). unfold OrdMap.get in *. simpl in Hget.
    destruct (Z.eqb_spec r k); [contradiction | exact Hget].
Qed.

(** The maps of the scan are determined by the references. *)
Lemma scanned_unique (me : Z) (owner owner' : global_int_t -> Z)
  (seen seen' : global_int_t -> global_int_t -> Prop)
  (sendList receiveList sendList' receiveList' : neighbor_sets) :
  (forall g, owner g = owner' g) ->
  (forall row g, seen row g <-> seen' row g) ->
  scanned me owner seen (sendList, receiveList) ->
  scanned me owner' seen' (sendList', receiveList') ->
  sendList = sendList' /\ receiveList = receiveList'.
Proof.
  intros Howner Hseen (Hs & Hr & Hkeys & Hsets & Hrets & Hrecv & Hsend)
    (Hs' & Hr' & Hkeys' & Hsets' & Hrets' & Hrecv' & Hsend').
  assert (Hgr : forall r, OrdMap.get OrdSet.empty r receiveList
                          = OrdMap.get OrdSet.empty r receiveList').
  { intros r. apply ascending_unique; try (now apply scanned_get_ascending).
    intros g. rewrite Hrecv, Hrecv', Howner.
    split; intros (Hme & Hown & row & Hrow); (split; [exact Hme|]; split; [exact Hown|]);
      exists row; now apply Hseen. }
  assert (Hgs : forall r, OrdMap.get OrdSet.empty r sendList
                          = OrdMap.get OrdSet.empty r sendList').
  { intros r. apply ascending_unique; try (now apply scanned_get_ascending).
    intros row. rewrite Hsend, Hsend'.
    split; intros (Hme & g & Hown & Hrow); (split; [exact Hme|]); exists g;
      (split; [now rewrite Howner in * | now apply Hseen]). }
  assert (Hkr : OrdMap.keys receiveList = OrdMap.keys receiveList').
  { apply ascending_unique; [exact Hr | exact Hr' |].
    intros r. rewrite <- (get_not_empty receiveList r Hrets).
    rewrite <- (get_not_empty receiveList' r Hrets'). now rewrite Hgr. }
  split.
  - apply (maps_ext OrdSet.empty); [exact Hs | | exact Hgs].
    now rewrite Hkeys, Hkeys', Hkr.
  - now apply (maps_ext OrdSet.empty).
Qed.

Section Order.

Variable to_local_int : global_int_t -> local_int_t.
Variable getRankOfMatrixRow : Geometry -> SparseMatrix -> global_int_t -> Z.

(** The plan is a function of the set of the references: two matrices
    with the same number of rows, whose rows refer to the same columns, in
    whatever order and however often, and whose ownership maps give the
    same indices, get the same plan on the same process. *)
Theorem plan_from_the_set_of_references
  (DEBUG : bool) (geom : Geometry) (A : SparseMatrix)
  (DEBUG2 : bool) (geom2 : Geometry) (A2 : SparseMatrix) :
  well_formed A = true ->
  assertions_pass getRankOfMatrixRow DEBUG geom A = true ->
  well_formed A2 = true ->
  assertions_pass getRankOfMatrixRow DEBUG2 geom2 A2 = true ->
  rank geom = rank geom2 ->
  localNumberOfRows A = localNumberOfRows A2 ->
  (forall g, getRankOfMatrixRow geom A g = getRankOfMatrixRow geom2 A2 g) ->
  (forall row g, referenced A row g <-> referenced A2 row g) ->
  (forall g, OrdMap.get 0 g (globalToLocalMap A) = OrdMap.get 0 g (globalToLocalMap A2)) ->
  exists A' A2',
    SetupHalo to_local_int getRankOfMatrixRow DEBUG geom A = Done A' /\
    SetupHalo to_local_int getRankOfMatrixRow DEBUG2 geom2 A2 = Done A2' /\
    neighbors A' = neighbors A2' /\
    receiveLength A' = receiveLength A2' /\
    sendLength A' = sendLength A2' /\
    elementsToSend A' = elementsToSend A2' /\
    sendBuffer A' = sendBuffer A2' /\
    numberOfSendNeighbors A' = numberOfSendNeighbors A2' /\
    totalToBeSent A' = totalToBeSent A2' /\
    numberOfExternalValues A' = numberOfExternalValues A2' /\
    localNumberOfColumns A' = localNumberOfColumns A2'.
Proof.
  intros Hwf Hpass Hwf2 Hpass2 Hrank Hrows Howner Hrefs Hmap.
  destruct (SetupHalo_plan to_local_int getRankOfMatrixRow DEBUG geom A Hwf Hpass)
    as (sendList & receiveList & A' & ext & _ & Hscanned & _ & Hrun & Hplan).
  destruct (SetupHalo_plan to_local_int getRankOfMatrixRow DEBUG2 geom2 A2 Hwf2 Hpass2)
    as (sendList2 & receiveList2 & A2' & ext2 & _ & Hscanned2 & _ & Hrun2 & Hplan2).
  rewrite <- Hrank in Hscanned2.
  destruct (scanned_unique _ _ _ _ _ _ _ _ _ Howner Hrefs Hscanned Hscanned2)
    as [<- <-].
  destruct Hplan as (Hext & _ & _ & _ & _ & _ & Hnext & Hcols & Hnsend & Htotal & Hnb
                     & Hrlen & Hslen & Hels & Hbuf).
  destruct Hplan2 as (Hext2 & _ & _ & _ & _ & _ & Hnext2 & Hcols2 & Hnsend2 & Htotal2
                      & Hnb2 & Hrlen2 & Hslen2 & Hels2 & Hbuf2).
  rewrite <- Hrows in Hext2, Hcols2. rewrite <- Hext in Hext2. subst ext2.
  exists A', A2'. split; [exact Hrun|]. split; [exact Hrun2|].
  rewrite Hnb, Hnb2, Hrlen, Hrlen2, Hslen, Hslen2, Hels, Hels2, Hbuf, Hbuf2,
    Hnsend, Hnsend2, Htotal, Htotal2, Hnext, Hnext2, Hcols, Hcols2.
  repeat split; try reflexivity.
  apply map_ext. intros g. now rewrite Hmap.
Qed.

End Order.

(** The chain and the chain with descending rows have the same
    references. *)
Lemma chain_descending_referenced (row g : global_int_t) :
  referenced (local_matrix chain_owner 1 chain) row g <->
  referenced (local_matrix chain_owner 1 chain_descending) row g.
Proof.
  rewrite !local_matrix_referenced. unfold chain_descending. split.
  - intros (Hown & ci & Hin & Hg). split; [exact Hown|]. exists (rev ci). split.
    + apply in_map_iff. now exists (row, ci).
    + now apply in_rev in Hg.
  - intros (Hown & ci & Hin & Hg). split; [exact Hown|].
    apply in_map_iff in Hin. destruct Hin as ([row0 ci0] & Heq & Hin).
    simpl in Heq. injection Heq as -> <-. exists ci0. split; [exact Hin|].
    now apply in_rev.
Qed.

Lemma plan_from_the_set_of_references_chain :
  exists A' A2',
    SetupHalo (wrap 32) (fun _ _ => chain_owner) true {| rank := 1; size := 4 |}
      (local_matrix chain_owner 1 chain) = Done A' /\
    SetupHalo (wrap 32) (fun _ _ => chain_owner) true {| rank := 1; size := 4 |}
      (local_matrix chain_owner 1 chain_descending) = Done A2' /\
    elementsToSend A' = elementsToSend A2'.
Proof.
  assert (Hwf : well_formed (local_matrix chain_owner 1 chain) = true)
    by (vm_compute; reflexivity).
  assert (Hpass : assertions_pass (fun _ _ => chain_owner) true {| rank := 1; size := 4 |}
                    (local_matrix chain_owner 1 chain) = true)
    by (vm_compute; reflexivity).
  assert (Hwf2 : well_formed (local_matrix chain_owner 1 chain_descending) = true)
    by (vm_compute; reflexivity).
  assert (Hpass2 : assertions_pass (fun _ _ => chain_owner) true {| rank := 1; size := 4 |}
                     (local_matrix chain_owner 1 chain_descending) = true)
    by (vm_compute; reflexivity).
  destruct (plan_from_the_set_of_references (wrap 32) (fun _ _ => chain_owner)
              true {| rank := 1; size := 4 |} (local_matrix chain_owner 1 chain)
              true {| rank := 1; size := 4 |} (local_matrix chain_owner 1 chain_descending)
              Hwf Hpass Hwf2 Hpass2 eq_refl eq_refl (fun _ => eq_refl)
              chain_descending_referenced (fun _ => eq_refl))
    as (A' & A2' & Hrun & Hrun2 & _ & _ & _ & Hels & _).
  exists A', A2'. split; [exact Hrun|]. split; [exact Hrun2 | exact Hels].
Defined.

(** ** What a run that ends has read *)

(** A loop that ends has run each of its rounds to its end. *)
Lemma for_loop_visits {S : Type} (I : S -> Prop) (body : Z -> S -> outcome S) :
  forall (count : nat) (i0 : Z) (s s' : S),
    (forall i s s1, i0 <= i < i0 + Z.of_nat count -> I s -> body i s = Done s1 -> I s1) ->
    I s -> for_loop count i0 body s = Done s' ->
    forall i, i0 <= i < i0 + Z.of_nat count ->
              exists s1 s2, I s1 /\ body i s1 = Done s2.
Proof.
  induction count as [|count IH]; intros i0 s s' Hstep Hs Hrun i Hi; [lia|].
  cbn [for_loop] in Hrun. apply bind_Done in Hrun. destruct Hrun as (s1 & Hbody & Hrest).
  destruct (Z.eq_dec i i0) as [->|Hne]; [now exists s, s1|].
  apply (IH (i0 + 1) s1 s'); [| |exact Hrest | lia].
  - intros i' s0 s2 Hi'. apply Hstep. lia.
  - apply (Hstep i0 s s1); [lia | exact Hs | exact Hbody].
Qed.

Lemma for_upto_visits {S : Type} (I : S -> Prop) (body : Z -> S -> outcome S)
  (n : Z) (s s' : S) :
  (forall i s s1, 0 <= i < n -> I s -> body i s = Done s1 -> I s1) ->
  I s -> for_upto n body s = Done s' ->
  forall i, 0 <= i < n -> exists s1 s2, I s1 /\ body i s1 = Done s2.
Proof.
  intros Hstep Hs Hrun i Hi.
  apply (for_loop_visits I body (Z.to_nat n) 0 s s'); [|exact Hs | exact Hrun | lia].
  intros i' s0 s1 Hi'. apply Hstep. lia.
Qed.

Lemma store2_inv (a : list (list local_int_t)) (i j : Z) (v : local_int_t)
  (a' : list (list local_int_t)) :
  store2 a i j v = Done a' ->
  exists row, load a i = Done row /\ 0 <= j < Z.of_nat (length row).
Proof.
  unfold store2. intros H.
  apply bind_Done in H. destruct H as (row & Hrow & H).
  apply bind_Done in H. destruct H as (row' & Hrow' & _).
  apply store_inv in Hrow'. exists row. split; [exact Hrow | apply Hrow'].
Qed.

Section Needed.

Variable to_local_int : global_int_t -> local_int_t.
Variable getRankOfMatrixRow : Geometry -> SparseMatrix -> global_int_t -> Z.
Variable geom : Geometry.
Variable A : SparseMatrix.

(** The scan reads [localToGlobalMap[i]] and [nonzerosInRow[i]] of every
    row, and the [nonzerosInRow[i]] first cells of [mtxIndG[i]]. *)
Lemma dependency_scan_reads (lists : neighbor_sets * neighbor_sets) (i : Z) :
  dependency_scan getRankOfMatrixRow geom A = Done lists ->
  0 <= i < localNumberOfRows A ->
  exists currentGlobalRow cur_nnz,
    load (localToGlobalMap A) i = Done currentGlobalRow /\
    load (nonzerosInRow A) i = Done cur_nnz /\
    (1 <= cur_nnz ->
     exists rowG, load (mtxIndG A) i = Done rowG /\ cur_nnz <= Z.of_nat (length rowG)).
Proof.
  unfold dependency_scan. intros Hrun Hi.
  destruct (for_upto_visits (fun _ => True) _ _ _ _ (fun _ _ _ _ _ _ => I) I Hrun i Hi)
    as (s1 & s2 & _ & Hrow).
  unfold scan_row in Hrow.
  apply bind_Done in Hrow. destruct Hrow as (cgr & Hcgr & Hrow).
  apply bind_Done in Hrow. destruct Hrow as (c & Hc & Hrow).
  exists cgr, c. split; [exact Hcgr|]. split; [exact Hc|]. intros Hpos.
  destruct (for_upto_visits (fun _ => True) _ _ _ _ (fun _ _ _ _ _ _ => I) I Hrow (c - 1))
    as (s3 & s4 & _ & Hentry); [lia|].
  apply bind_Done in Hentry. destruct Hentry as (rowG & HrowG & Hentry).
  apply bind_Done in Hentry. destruct Hentry as (curIndex & Hcur & _).
  exists rowG. split; [exact HrowG|].
  apply load_Done_range in Hcur. lia.
Qed.

(** The rewriting writes the [nonzerosInRow[i]] first cells of
    [mtxIndL[i]]. *)
Lemma rewrite_indices_writes (st st' : rewriting) (i cur_nnz : Z) :
  rewrite_indices to_local_int getRankOfMatrixRow geom A st = Done st' ->
  map (@length Z) (rw_mtxIndL st) = map (@length Z) (mtxIndL A) ->
  0 <= i < localNumberOfRows A ->
  load (nonzerosInRow A) i = Done cur_nnz -> 1 <= cur_nnz ->
  exists rowL, load (mtxIndL A) i = Done rowL /\ cur_nnz <= Z.of_nat (length rowL).
Proof.
  unfold rewrite_indices. intros Hrun Hshape Hi Hnnz Hpos.
  assert (Hentry : forall i j s s1,
             map (@length Z) (rw_mtxIndL s) = map (@length Z) (mtxIndL A) ->
             rewrite_entry to_local_int getRankOfMatrixRow geom A i j s = Done s1 ->
             map (@length Z) (rw_mtxIndL s1) = map (@length Z) (mtxIndL A)).
  { intros i0 j s s1 Hs Hstep.
    destruct (rewrite_entry_inv to_local_int getRankOfMatrixRow geom A i0 j s s1 Hstep)
      as (rw & curIndex & l & _ & _ & Hstore & _).
    destruct (store2_cell _ _ _ _ _ Hstore) as (_ & _ & Hshape' & _).
    now rewrite Hshape'. }
  assert (Hrowstep : forall i0 s s1,
             0 <= i0 < localNumberOfRows A ->
             map (@length Z) (rw_mtxIndL s) = map (@length Z) (mtxIndL A) ->
             rewrite_row to_local_int getRankOfMatrixRow geom A i0 s = Done s1 ->
             map (@length Z) (rw_mtxIndL s1) = map (@length Z) (mtxIndL A)).
  { intros i0 s s1 _ Hs Hrow. unfold rewrite_row in Hrow.
    apply bind_Done in Hrow. destruct Hrow as (c & _ & Hrow).
    revert Hs Hrow.
    apply (for_upto_keeps
             (fun s => map (@length Z) (rw_mtxIndL s) = map (@length Z) (mtxIndL A))).
    intros j s3 s4 _. apply Hentry. }
  destruct (for_upto_visits _ _ _ _ _ Hrowstep Hshape Hrun i Hi)
    as (s1 & s2 & Hs1 & Hrow).
  unfold rewrite_row in Hrow. rewrite Hnnz in Hrow. cbn [bind] in Hrow.
  assert (Hlaststep : forall j s s1,
             0 <= j < cur_nnz ->
             map (@length Z) (rw_mtxIndL s) = map (@length Z) (mtxIndL A) ->
             rewrite_entry to_local_int getRankOfMatrixRow geom A i j s = Done s1 ->
             map (@length Z) (rw_mtxIndL s1) = map (@length Z) (mtxIndL A)).
  { intros j s5 s6 _. apply Hentry. }
  destruct (for_upto_visits _ _ _ _ _ Hlaststep Hs1 Hrow (cur_nnz - 1))
    as (s3 & s4 & Hs3 & Hlast); [lia|].
  destruct (rewrite_entry_inv to_local_int getRankOfMatrixRow geom A _ _ _ _ Hlast)
    as (rw & curIndex & l & _ & _ & Hstore & _).
  destruct (store2_inv _ _ _ _ _ Hstore) as (rowL' & HrowL' & Hj).
  destruct (same_extents (mtxIndL A) (rw_mtxIndL s3) i rowL' (eq_sym Hs3) HrowL')
    as (rowL & HrowL & Hlen).
  exists rowL. split; [exact HrowL | lia].
Qed.

(** A run that ends has found the arrays that it reads and writes: for
    every local row, [localToGlobalMap[i]] and [nonzerosInRow[i]], and,
    when the row has a nonzero, rows [mtxIndG[i]] and [mtxIndL[i]] of at
    least [nonzerosInRow[i]] cells.  A matrix whose rows all have a nonzero
    is therefore well formed when the function returns; on any other such
    matrix an access is out of bounds. *)
Theorem completion_needs_the_arrays (DEBUG : bool) (A' : SparseMatrix) :
  SetupHalo to_local_int getRankOfMatrixRow DEBUG geom A = Done A' ->
  (forall i, 0 <= i < localNumberOfRows A ->
             exists currentGlobalRow cur_nnz,
               load (localToGlobalMap A) i = Done currentGlobalRow /\
               load (nonzerosInRow A) i = Done cur_nnz /\
               (1 <= cur_nnz ->
                exists rowG rowL,
                  load (mtxIndG A) i = Done rowG /\
                  load (mtxIndL A) i = Done rowL /\
                  cur_nnz <= Z.of_nat (length rowG) /\
                  cur_nnz <= Z.of_nat (length rowL))) /\
  ((forall i cur_nnz, load (nonzerosInRow A) i = Done cur_nnz -> 1 <= cur_nnz) ->
   well_formed A = true).
Proof.
  intros Hrun. unfold SetupHalo in Hrun.
  apply bind_Done in Hrun. destruct Hrun as ([A0 ext] & Hlocals & _).
  unfold SetupHalo_locals in Hlocals.
  apply bind_Done in Hlocals. destruct Hlocals as ([sendList receiveList] & Hscan & Hlocals).
  lazy beta iota in Hlocals.
  apply bind_Done in Hlocals. destruct Hlocals as (u & _ & Hlocals).
  apply bind_Done in Hlocals. destruct Hlocals as (asm & _ & Hlocals).
  apply bind_Done in Hlocals. destruct Hlocals as (rw & Hrw & _).
  assert (Hrows : forall i, 0 <= i < localNumberOfRows A ->
             exists currentGlobalRow cur_nnz,
               load (localToGlobalMap A) i = Done currentGlobalRow /\
               load (nonzerosInRow A) i = Done cur_nnz /\
               (1 <= cur_nnz ->
                exists rowG rowL,
                  load (mtxIndG A) i = Done rowG /\
                  load (mtxIndL A) i = Done rowL /\
                  cur_nnz <= Z.of_nat (length rowG) /\
                  cur_nnz <= Z.of_nat (length rowL))).
  { intros i Hi.
    destruct (dependency_scan_reads _ i Hscan Hi) as (cgr & c & Hcgr & Hc & HG).
    exists cgr, c. split; [exact Hcgr|]. split; [exact Hc|]. intros Hpos.
    destruct (HG Hpos) as (rowG & HrowG & HlenG).
    destruct (rewrite_indices_writes _ _ i c Hrw eq_refl Hi Hc Hpos)
      as (rowL & HrowL & HlenL).
    now exists rowG, rowL. }
  split; [exact Hrows|].
  intros Hnonzero. unfold well_formed. apply forallb_forall. intros k Hk.
  apply in_seq in Hk.
  destruct (Hrows (Z.of_nat k)) as (cgr & c & Hcgr & Hc & Hrest); [lia|].
  destruct (Hrest (Hnonzero _ _ Hc)) as (rowG & rowL & HrowG & HrowL & HlenG & HlenL).
  apply load_Done in Hcgr, Hc, HrowG, HrowL. rewrite Nat2Z.id in *.
  unfold row_ok.
  destruct Hcgr as [_ ->], Hc as [_ ->], HrowG as [_ ->], HrowL as [_ ->].
  apply andb_true_iff. split; now apply Z.leb_le.
Qed.

End Needed.

Lemma completion_needs_the_arrays_stray : well_formed stray = true.
Proof.
  assert (Hrun : SetupHalo (wrap 32) (fun _ _ _ => 0) true {| rank := 0; size := 1 |} stray
                 = Done stray_planned) by (vm_compute; reflexivity).
  apply (completion_needs_the_arrays (wrap 32) (fun _ _ _ => 0) {| rank := 0; size := 1 |}
           stray true stray_planned Hrun).
  intros i cur_nnz Hload. apply load_Done in Hload. destruct Hload as [Hi Hnth].
  assert (Hcases : Z.to_nat i = 0%nat \/ (1 <= Z.to_nat i)%nat) by lia.
  destruct Hcases as [E|E].
  - rewrite E in Hnth. injection Hnth as <-. lia.
  - exfalso. assert (Hlt : (Z.to_nat i < 1)%nat).
    { apply (nth_error_Some (nonzerosInRow stray)). rewrite Hnth. intros E'. discriminate E'. }
    lia.
Defined.

(** ** A second run *)

Lemma SparseMatrix_ext (A B : SparseMatrix) :
  localNumberOfRows A = localNumberOfRows B ->
  localNumberOfColumns A = localNumberOfColumns B ->
  nonzerosInRow A = nonzerosInRow B ->
  mtxIndG A = mtxIndG B ->
  mtxIndL A = mtxIndL B ->
  globalToLocalMap A = globalToLocalMap B ->
  localToGlobalMap A = localToGlobalMap B ->
  numberOfExternalValues A = numberOfExternalValues B ->
  numberOfSendNeighbors A = numberOfSendNeighbors B ->
  totalToBeSent A = totalToBeSent B ->
  elementsToSend A = elementsToSend B ->
  neighbors A = neighbors B ->
  receiveLength A = receiveLength B ->
  sendLength A = sendLength B ->
  sendBuffer A = sendBuffer B ->
  A = B.
Proof.
  destruct A, B. cbn. intros. subst. reflexivity.
Qed.

(** The references are read from [localNumberOfRows], [localToGlobalMap],
    [nonzerosInRow] and [mtxIndG]. *)
Lemma reference_same_structure (A B : SparseMatrix) (i j : Z) (row g : global_int_t) :
  localNumberOfRows B = localNumberOfRows A ->
  nonzerosInRow B = nonzerosInRow A ->
  mtxIndG B = mtxIndG A ->
  localToGlobalMap B = localToGlobalMap A ->
  reference B i j row g <-> reference A i j row g.
Proof.
  intros Hrows Hnnz HG Hl2g. unfold reference. now rewrite Hrows, Hnnz, HG, Hl2g.
Qed.

Lemma well_formed_same_structure (A B : SparseMatrix) :
  localNumberOfRows B = localNumberOfRows A ->
  nonzerosInRow B = nonzerosInRow A ->
  mtxIndG B = mtxIndG A ->
  localToGlobalMap B = localToGlobalMap A ->
  map (@length Z) (mtxIndL B) = map (@length Z) (mtxIndL A) ->
  well_formed A = true -> well_formed B = true.
Proof.
  intros Hrows Hnnz HG Hl2g Hshape. unfold well_formed. rewrite Hrows, !forallb_forall.
  intros Hwf k Hk. specialize (Hwf k Hk). unfold row_ok in *.
  rewrite Hnnz, HG, Hl2g.
  pose proof (f_equal (fun l => nth_error l k) Hshape) as Hrow. cbn beta in Hrow.
  rewrite !nth_error_map in Hrow.
  destruct (nth_error (localToGlobalMap A) k); [|discriminate Hwf].
  destruct (nth_error (nonzerosInRow A) k); [|discriminate Hwf].
  destruct (nth_error (mtxIndG A) k); [|discriminate Hwf].
  destruct (nth_error (mtxIndL A) k) as [rowL|]; [|discriminate Hwf].
  destruct (nth_error (mtxIndL B) k) as [rowL'|]; [|discriminate Hrow].
  simpl in Hrow. injection Hrow as ->. exact Hwf.
Qed.

Section Again.

Variable to_local_int : global_int_t -> local_int_t.
Variable getRankOfMatrixRow : Geometry -> SparseMatrix -> global_int_t -> Z.

(** The ownership map that a run leaves knows the rows to send and the
    columns of this process. *)
Lemma planned_map_knows (DEBUG : bool) (geom : Geometry) (A : SparseMatrix) :
  well_formed A = true ->
  assertions_pass getRankOfMatrixRow DEBUG geom A = true ->
  exists sendList receiveList A' ext rw,
    dependency_scan getRankOfMatrixRow geom A = Done (sendList, receiveList) /\
    scanned (rank geom) (getRankOfMatrixRow geom A) (referenced A)
      (sendList, receiveList) /\
    SetupHalo to_local_int getRankOfMatrixRow DEBUG geom A = Done A' /\
    halo_plan to_local_int getRankOfMatrixRow geom A sendList receiveList A' ext /\
    rewrite_indices to_local_int getRankOfMatrixRow geom A
      {| rw_mtxIndL := mtxIndL A;
         rw_globalToLocalMap := ensure_keys (walk sendList) (globalToLocalMap A);
         rw_externalToLocalMap := ext |} = Done rw /\
    mtxIndL A' = rw_mtxIndL rw /\
    (forall k, In k (walk sendList) -> In k (OrdMap.keys (globalToLocalMap A'))) /\
    (forall row g, referenced A row g -> getRankOfMatrixRow geom A g = rank geom ->
                   In g (OrdMap.keys (globalToLocalMap A'))).
Proof.
  intros Hwf Hpass.
  destruct (SetupHalo_locals_rewrite to_local_int getRankOfMatrixRow DEBUG geom A
              Hwf Hpass)
    as (sendList & receiveList & A' & ext & rw & Hscan & Hscanned & Hrun & Hplan & Hrw
        & HL & Hg2l).
  exists sendList, receiveList, A', ext, rw.
  do 6 (split; [assumption|]). split.
  - intros k Hk. rewrite Hg2l.
    assert (Hin : In k (OrdMap.keys (ensure_keys (walk sendList) (globalToLocalMap A))))
      by (apply ensure_keys_keys; now left).
    set (st := {| rw_mtxIndL := mtxIndL A;
                  rw_globalToLocalMap :=
                    ensure_keys (walk sendList) (globalToLocalMap A);
                  rw_externalToLocalMap := ext |}) in Hrw.
    apply (rewrite_indices_keeps to_local_int getRankOfMatrixRow geom A Hwf
             (fun s => In k (OrdMap.keys (rw_globalToLocalMap s))) st rw);
      [|exact Hin | exact Hrw].
    intros i j row g s s1 _ Hs Hentry.
    destruct (rewrite_entry_inv to_local_int getRankOfMatrixRow geom A i j s s1 Hentry)
      as (rw0 & curIndex & l & _ & _ & _ & [(_ & Hmap & _)|(_ & Hmap & _)]);
      rewrite Hmap; [apply map_subscript_keys; now right | exact Hs].
  - intros row g (i & j & Href) Hown.
    destruct Hplan as (_ & (_ & _ & _ & Hcells) & _).
    cbn [rw_globalToLocalMap] in Hcells.
    destruct (Hcells i j row g Href) as [_ Hpresent]; [|now apply Hpresent].
    left. destruct Href as (Hi & _). lia.
Qed.

(** The function is idempotent: run on the matrix that it has left, with
    a resolver that gives the ranks that it gave, it leaves the same
    matrix again, the plan, the local indices and the ownership map
    included. *)
Theorem second_run_changes_nothing (DEBUG : bool) (geom : Geometry) (A : SparseMatrix) :
  well_formed A = true ->
  assertions_pass getRankOfMatrixRow DEBUG geom A = true ->
  exists A',
    SetupHalo to_local_int getRankOfMatrixRow DEBUG geom A = Done A' /\
    ((forall g, getRankOfMatrixRow geom A' g = getRankOfMatrixRow geom A g) ->
     SetupHalo to_local_int getRankOfMatrixRow DEBUG geom A' = Done A').
Proof.
  intros Hwf Hpass.
  destruct (planned_map_knows DEBUG geom A Hwf Hpass)
    as (sendList & receiveList & A' & ext & rw & Hscan & Hscanned & Hrun & Hplan & Hrw
        & HL & Hsends & Hlocals).
  exists A'. split; [exact Hrun|]. intros Howner.
  pose proof Hplan as (Hext & (Hshape & _ & [Hget _] & Hcells) & Hrows & Hnnz & HG & Hl2g
                       & Hnext & Hcols & Hnsend & Htotal & Hnb & Hrlen & Hslen & Hels
                       & Hbuf).
  cbn [rw_mtxIndL rw_globalToLocalMap] in Hshape, Hget, Hcells.
  assert (Href : forall i j row g, reference A' i j row g <-> reference A i j row g).
  { intros i j row g. now apply reference_same_structure. }
  assert (Hrefd : forall row g, referenced A' row g <-> referenced A row g).
  { intros row g. unfold referenced.
    split; intros (i & j & H); exists i, j; now apply Href. }
  assert (Hwf' : well_formed A' = true)
    by (now apply (well_formed_same_structure A A')).
  destruct (dependency_scan_scanned getRankOfMatrixRow geom A' Hwf')
    as ([sendList' receiveList'] & Hscan' & Hscanned').
  destruct (scanned_unique _ _ _ _ _ _ _ _ _ Howner Hrefd Hscanned' Hscanned)
    as [-> ->].
  assert (Hpass' : assertions_pass getRankOfMatrixRow DEBUG geom A' = true).
  { unfold assertions_pass in *. now rewrite Hscan in Hpass; rewrite Hscan'. }
  destruct (planned_map_knows DEBUG geom A' Hwf' Hpass')
    as (sendList2 & receiveList2 & A2 & ext2 & rw2 & Hscan2 & _ & Hrun2 & Hplan2 & Hrw2
        & HL2 & _).
  rewrite Hscan' in Hscan2. injection Hscan2 as <- <-.
  destruct (SetupHalo_locals_rewrite to_local_int getRankOfMatrixRow DEBUG geom A'
              Hwf' Hpass')
    as (sendList3 & receiveList3 & A3 & ext3 & rw3 & Hscan3 & _ & Hrun3 & Hplan3 & Hrw3
        & _ & Hg2l3).
  rewrite Hscan' in Hscan3. injection Hscan3 as <- <-.
  rewrite Hrun2 in Hrun3. injection Hrun3 as <-.
  assert (Hexts : ext2 = ext).
  { destruct Hplan2 as (Hext2 & _). now rewrite Hext2, Hext, Hrows. }
  assert (Hexts3 : ext3 = ext).
  { destruct Hplan3 as (Hext3 & _). now rewrite Hext3, Hext, Hrows. }
  subst ext2 ext3.
  pose proof Hplan2 as (_ & (Hshape2 & _ & _ & Hcells2) & Hrows2 & Hnnz2 & HG2 & Hl2g2
                        & Hnext2 & Hcols2 & Hnsend2 & Htotal2 & Hnb2 & Hrlen2 & Hslen2
                        & Hels2 & Hbuf2).
  cbn [rw_mtxIndL rw_globalToLocalMap] in Hshape2, Hcells2.
  rewrite Hrun2. f_equal. apply SparseMatrix_ext.
  - exact Hrows2.
  - now rewrite Hcols2, Hcols, Hrows.
  - exact Hnnz2.
  - exact HG2.
  - apply cells_ext; [exact Hshape2|].
    intros i j.
    destruct (visited_dec A (Z.of_nat i) (Z.of_nat j) Hwf) as [(row & g & Hij)|Hspare].
    + assert (Hbefore : Z.of_nat i < localNumberOfRows A \/
                        (Z.of_nat i = localNumberOfRows A /\ Z.of_nat j < 0))
        by (left; destruct Hij as (Hi & _); lia).
      destruct (Hcells _ _ row g Hij Hbefore) as [Hcell _].
      assert (Hbefore' : Z.of_nat i < localNumberOfRows A' \/
                         (Z.of_nat i = localNumberOfRows A' /\ Z.of_nat j < 0))
        by (rewrite Hrows; exact Hbefore).
      destruct (Hcells2 _ _ row g (proj2 (Href _ _ row g) Hij) Hbefore') as [Hcell2 _].
      apply cell_load in Hcell, Hcell2; try lia.
      rewrite Nat2Z.id in Hcell, Hcell2. rewrite Nat2Z.id in Hcell, Hcell2.
      rewrite Hcell, Hcell2. f_equal. unfold local_index.
      rewrite Howner, Hget. reflexivity.
    + rewrite HL2.
      apply (rewrite_indices_frame to_local_int getRankOfMatrixRow geom A' Hwf' _ rw2 Hrw2).
      intros (row & g & Hij). apply Hspare. exists row, g. now apply Href.
  - rewrite Hg2l3.
    assert (Hknown : ensure_keys (walk sendList) (globalToLocalMap A')
                     = globalToLocalMap A')
      by (apply ensure_keys_present; exact Hsends).
    set (st := {| rw_mtxIndL := mtxIndL A';
                  rw_globalToLocalMap :=
                    ensure_keys (walk sendList) (globalToLocalMap A');
                  rw_externalToLocalMap := ext |}) in Hrw3.
    rewrite (rewrite_indices_known to_local_int getRankOfMatrixRow geom A' Hwf' st rw3);
      cbn [st rw_globalToLocalMap]; [exact Hknown | | exact Hrw3].
    intros row g Hrg Hown. rewrite Hknown.
    apply (Hlocals row); [now apply Hrefd | now rewrite <- Howner].
  - exact Hl2g2.
  - now rewrite Hnext2, Hnext.
  - now rewrite Hnsend2, Hnsend.
  - now rewrite Htotal2, Htotal.
  - rewrite Hels2, Hels. apply map_ext. intros g. now rewrite Hget.
  - now rewrite Hnb2, Hnb.
  - now rewrite Hrlen2, Hrlen.
  - now rewrite Hslen2, Hslen.
  - now rewrite Hbuf2, Hbuf.
Qed.

End Again.

Lemma second_run_changes_nothing_chain :
  exists A',
    SetupHalo (wrap 32) (fun _ _ => chain_owner) true {| rank := 1; size := 4 |}
      (local_matrix chain_owner 1 chain) = Done A' /\
    SetupHalo (wrap 32) (fun _ _ => chain_owner) true {| rank := 1; size := 4 |} A'
    = Done A'.
Proof.
  destruct (second_run_changes_nothing (wrap 32) (fun _ _ => chain_owner) true
              {| rank := 1; size := 4 |} (local_matrix chain_owner 1 chain)
              eq_refl eq_refl)
    as (A' & Hrun & Hagain).
  exists A'. split; [exact Hrun|]. apply Hagain. intros g. reflexivity.
Defined.

(** ** The sizes of the plan *)

Lemma length_walk_le (m : neighbor_sets) (n : nat) :
  (forall r s, In (r, s) m -> (length s <= n)%nat) ->
  (length (walk m) <= length m * n)%nat.
Proof.
  unfold walk. induction m as [|[r s] m IH]; intros Hm; simpl; [lia|].
  rewrite length_app.
  pose proof (Hm r s (or_introl eq_refl)).
  assert (length (concat (map snd m)) <= length m * n)%nat
    by (apply IH; intros r' s' Hin; apply (Hm r' s'); now right).
  lia.
Qed.

Section Sizes.

Variable to_local_int : global_int_t -> local_int_t.
Variable getRankOfMatrixRow : Geometry -> SparseMatrix -> global_int_t -> Z.

(** Bounds for the buffers of the exchange: a neighbor is sent at least one
    row and at most all the local rows, each once; [totalToBeSent] is at
    most the number of neighbors times the number of local rows; and what
    is received is at most one value for each column reference of the
    local rows. *)
Theorem plan_sizes_bounded (DEBUG : bool) (geom : Geometry) (A : SparseMatrix) :
  well_formed A = true ->
  assertions_pass getRankOfMatrixRow DEBUG geom A = true ->
  exists A',
    SetupHalo to_local_int getRankOfMatrixRow DEBUG geom A = Done A' /\
    (forall v, In (Some v) (sendLength A') -> 1 <= v <= localNumberOfRows A') /\
    0 <= totalToBeSent A' <= numberOfSendNeighbors A' * localNumberOfRows A' /\
    sum_cells (receiveLength A')
    <= Z.of_nat (length (concat (map snd (local_rows A)))).
Proof.
  intros Hwf Hpass.
  destruct (SetupHalo_plan to_local_int getRankOfMatrixRow DEBUG geom A Hwf Hpass)
    as (sendList & receiveList & A' & ext & _ & Hscanned & _ & Hrun & Hplan).
  destruct (scanned_walk _ _ _ _ _ Hscanned) as [Hnd Hwalk].
  destruct Hscanned as (Hs & _ & _ & Hsets & _ & _ & Hsend).
  destruct Hplan as (_ & _ & Hrows & _ & _ & _ & _ & _ & Hnsend & Htotal & _ & Hrlen
                     & Hslen & _).
  assert (Hbound : forall r s, In (r, s) sendList ->
                               (1 <= length s <= Z.to_nat (localNumberOfRows A))%nat).
  { intros r s Hin. destruct (Hsets r s Hin) as [Hasc Hne]. split.
    - destruct s; [contradiction | simpl; lia].
    - apply Nat.le_trans
        with (length (map (fun i => nth i (localToGlobalMap A) 0)
                        (seq 0 (Z.to_nat (localNumberOfRows A)))));
        [|now rewrite length_map, length_seq].
      apply NoDup_incl_length; [now apply ascending_NoDup|].
      intros row Hrow.
      assert (Hget : In row (OrdMap.get OrdSet.empty r sendList)).
      { now rewrite (map_get_find OrdSet.empty r sendList s (map_In_find r s _ Hs Hin)). }
      apply Hsend in Hget. destruct Hget as (_ & g & _ & i & j & Hi & Hload & _).
      apply load_Done in Hload. destruct Hload as [_ Hnth].
      apply in_map_iff. exists (Z.to_nat i). split.
      + now apply nth_error_nth.
      + apply in_seq. lia. }
  exists A'. split; [exact Hrun|]. split; [|split].
  - intros v Hv. rewrite Hslen in Hv. apply in_map_iff in Hv.
    destruct Hv as ([r s] & Hv & Hin). injection Hv as <-. simpl.
    destruct (Hbound r s Hin). unfold OrdSet.size. rewrite Hrows. lia.
  - rewrite Htotal, Hnsend, Hrows. unfold OrdMap.size. split; [lia|].
    pose proof (length_walk_le sendList (Z.to_nat (localNumberOfRows A))
                  (fun r s Hin => proj2 (Hbound r s Hin))) as Hle.
    destruct sendList as [|e sendList]; [simpl; lia|].
    destruct e as [r s]. destruct (Hbound r s (or_introl eq_refl)). nia.
  - rewrite Hrlen, sum_cells_sizes. apply inj_le.
    apply NoDup_incl_length; [exact Hnd|].
    intros g Hg. apply Hwalk in Hg. destruct Hg as (Hown & row & Href).
    pose proof (referenced_remote_columns getRankOfMatrixRow geom A row g Href Hown) as Hin.
    unfold remote_columns in Hin. apply filter_In in Hin. apply Hin.
Qed.

End Sizes.

Lemma plan_sizes_bounded_chain :
  exists A',
    SetupHalo (wrap 32) (fun _ _ => chain_owner) true {| rank := 1; size := 4 |}
      (local_matrix chain_owner 1 chain) = Done A' /\
    0 <= totalToBeSent A' <= numberOfSendNeighbors A' * localNumberOfRows A'.
Proof.
  destruct (plan_sizes_bounded (wrap 32) (fun _ _ => chain_owner) true
              {| rank := 1; size := 4 |} (local_matrix chain_owner 1 chain)
              eq_refl eq_refl)
    as (A' & Hrun & _ & Htotal & _).
  exists A'. split; [exact Hrun | exact Htotal].
Defined.

(** ** The exchange between two processes *)

(** The entry of the neighbor [r] in a map of the scan, at the place that
    the plan gives to [r]. *)
Lemma plan_slice (m m' : neighbor_sets) (k : Z) (r : Z) :
  OrdMap.ascending m -> OrdMap.keys m = OrdMap.keys m' ->
  load (map (fun curNeighbor : Z * OrdSet.t => Some (fst curNeighbor)) m') k
  = Done (Some r) ->
  exists m1 m2,
    m = m1 ++ (r, OrdMap.get OrdSet.empty r m) :: m2 /\ length m1 = Z.to_nat k.
Proof.
  intros Hm Hkeys Hload. apply load_Done in Hload. destruct Hload as [Hk Hnth].
  rewrite nth_error_map in Hnth.
  destruct (nth_error m' (Z.to_nat k)) as [e'|] eqn:E'; [|discriminate Hnth].
  injection Hnth as Hr.
  assert (Hkey : nth_error (OrdMap.keys m) (Z.to_nat k) = Some r).
  { rewrite Hkeys. unfold OrdMap.keys. rewrite nth_error_map, E'. simpl. now rewrite Hr. }
  unfold OrdMap.keys in Hkey. rewrite nth_error_map in Hkey.
  destruct (nth_error m (Z.to_nat k)) as [[r0 s]|] eqn:E; [|discriminate Hkey].
  simpl in Hkey. injection Hkey as ->.
  assert (Hs : OrdMap.get OrdSet.empty r m = s).
  { apply map_get_find. apply map_In_find; [exact Hm|].
    now apply nth_error_In with (n := Z.to_nat k). }
  rewrite Hs. apply nth_error_split in E. destruct E as (m1 & m2 & Heq & Hlen).
  now exists m1, m2.
Qed.

Lemma walk_slice (m1 m2 : neighbor_sets) (r : Z) (s : OrdSet.t) (k : nat)
  (id : global_int_t) :
  nth_error s k = Some id ->
  nth_error (walk (m1 ++ (r, s) :: m2)) (length (walk m1) + k) = Some id.
Proof.
  intros Hk. rewrite walk_app.
  rewrite nth_error_app2 by lia.
  replace (length (walk m1) + k - length (walk m1))%nat with k by lia.
  change (walk ((r, s) :: m2)) with (s ++ walk m2).
  rewrite nth_error_app1; [exact Hk|]. apply nth_error_Some. congruence.
Qed.

(** The lengths recorded before a neighbor add up to the place where its
    slice starts. *)
Lemma offset_of_slice (m1 rest : neighbor_sets) :
  sum_cells (firstn (length m1)
               (map (fun curNeighbor : Z * OrdSet.t =>
                       Some (OrdSet.size (snd curNeighbor))) (m1 ++ rest)))
  = Z.of_nat (length (walk m1)).
Proof.
  rewrite map_app, firstn_app, length_map, Nat.sub_diag, firstn_O, app_nil_r.
  rewrite firstn_all2 by (rewrite length_map; lia).
  apply sum_cells_sizes.
Qed.

Section Exchange.

Variable to_local_int : global_int_t -> local_int_t.
Variable owner : global_int_t -> Z.

(** The plans of two mirrored processes [a] and [b] line up, entry by
    entry.  Let [ids] be the global ids of the rows that [a] sends to [b],
    in ascending order.  [a] records their number as its send length for
    [b], and [b] as its receive length for [a].  The slice of
    [elementsToSend] that [a] keeps for [b] starts after the send lengths
    of the neighbors before [b], and its [k]-th cell holds what
    [globalToLocalMap] of [a] gives for the [k]-th id.  On [b], whose
    remote columns have distinct keys, every reference to the [k]-th id is
    rewritten to [localNumberOfRows], plus the receive lengths of the
    neighbors before [a], plus [k]: the place where the [k]-th value
    received from [a] is stored is the place where the rows of [b] look
    for it. *)
Theorem halo_entries_line_up
  (DEBUG : bool) (geomA geomB : Geometry) (A B : SparseMatrix) :
  well_formed A = true -> well_formed B = true ->
  assertions_pass (fun _ _ => owner) DEBUG geomA A = true ->
  assertions_pass (fun _ _ => owner) DEBUG geomB B = true ->
  rank geomA <> rank geomB ->
  (forall row g, referenced A row g -> owner row = rank geomA) ->
  (forall row g, referenced B row g -> owner row = rank geomB) ->
  (forall row g, owner row = rank geomA -> owner g = rank geomB ->
                 (referenced A row g <-> referenced B g row)) ->
  distinct_keys to_local_int (remote_columns (fun _ _ => owner) geomB B) ->
  exists sendA ids A' B',
    (exists receiveA,
        dependency_scan (fun _ _ => owner) geomA A = Done (sendA, receiveA)) /\
    ids = OrdMap.get OrdSet.empty (rank geomB) sendA /\
    SetupHalo to_local_int (fun _ _ => owner) DEBUG geomA A = Done A' /\
    SetupHalo to_local_int (fun _ _ => owner) DEBUG geomB B = Done B' /\
    OrdSet.ascending ids /\
    (forall id, In id ids <->
                exists g, owner g = rank geomB /\ referenced A id g) /\
    forall ka kb,
      load (neighbors A') ka = Done (Some (rank geomB)) ->
      load (neighbors B') kb = Done (Some (rank geomA)) ->
      load (sendLength A') ka = Done (Some (Z.of_nat (length ids))) /\
      load (receiveLength B') kb = Done (Some (Z.of_nat (length ids))) /\
      forall k id,
        nth_error ids k = Some id ->
        load (elementsToSend A')
          (sum_cells (firstn (Z.to_nat ka) (sendLength A')) + Z.of_nat k)
        = Done (Some (OrdMap.get 0 id (globalToLocalMap A))) /\
        forall i j row,
          reference B i j row id ->
          exists rowL,
            load (mtxIndL B') i = Done rowL /\
            load rowL j
            = Done (localNumberOfRows B'
                    + sum_cells (firstn (Z.to_nat kb) (receiveLength B'))
                    + Z.of_nat k).
Proof.
  intros HwfA HwfB HpassA HpassB Hab HrowsA HrowsB Hmirror Hdistinct.
  destruct (SetupHalo_plan to_local_int (fun _ _ => owner) DEBUG geomA A HwfA HpassA)
    as (sendA & receiveA & A' & extA & HscanA & HscannedA & _ & HrunA & HplanA).
  destruct (SetupHalo_plan to_local_int (fun _ _ => owner) DEBUG geomB B HwfB HpassB)
    as (sendB & receiveB & B' & extB & _ & HscannedB & _ & HrunB & HplanB).
  destruct (mirrored_sets owner (rank geomA) (rank geomB) A B sendA receiveA sendB receiveB
              Hab HrowsA HrowsB Hmirror HscannedA HscannedB) as [Hsend _].
  destruct (external_map_indices to_local_int (fun _ _ => owner) geomB B
              sendB receiveB HscannedB Hdistinct) as (Hfind & _ & _).
  destruct HscannedA as (HsA & HrA & HkeysA & HsetsA & _ & _ & HsendA).
  destruct HscannedB as (HsB & HrB & HkeysB & _ & _ & HrecvB & _).
  destruct HplanA as (_ & _ & _ & _ & _ & _ & _ & _ & _ & _ & HnbA & _ & HslenA & HelsA & _).
  destruct HplanB as (HextB & (_ & _ & _ & HcellsB) & HrowsB' & _ & _ & _ & _ & _ & _ & _
                      & HnbB & HrlenB & _).
  rewrite <- HextB in Hfind. cbn [rw_mtxIndL] in HcellsB.
  exists sendA, (OrdMap.get OrdSet.empty (rank geomB) sendA), A', B'.
  split; [now exists receiveA|]. split; [reflexivity|].
  split; [exact HrunA|]. split; [exact HrunB|].
  split; [now apply scanned_get_ascending|]. split.
  { intros id. rewrite HsendA. split.
    - intros (_ & g & Hg & Href). now exists g.
    - intros (g & Hg & Href). split; [auto|]. now exists g. }
  intros ka kb Hka Hkb. rewrite HnbA in Hka. rewrite HnbB in Hkb.
  split; [|split].
  { rewrite HslenA.
    now rewrite (plan_length_at sendA receiveA ka (rank geomB) HsA HkeysA Hka). }
  { rewrite HrlenB, Hsend.
    now rewrite (plan_length_at receiveB receiveB kb (rank geomA) HrB eq_refl Hkb). }
  intros k id Hk.
  destruct (plan_slice sendA receiveA ka (rank geomB) HsA HkeysA Hka)
    as (m1 & m2 & HsplitA & Hlen1).
  destruct (plan_slice receiveB receiveB kb (rank geomA) HrB eq_refl Hkb)
    as (n1 & n2 & HsplitB & Hlen2).
  assert (HoffA : sum_cells (firstn (Z.to_nat ka) (sendLength A'))
                  = Z.of_nat (length (walk m1))).
  { rewrite HslenA, HsplitA, <- Hlen1. apply offset_of_slice. }
  assert (HnthA : nth_error (walk sendA) (length (walk m1) + k) = Some id).
  { rewrite HsplitA. now apply walk_slice. }
  rewrite Hsend in Hk.
  assert (HoffB : sum_cells (firstn (Z.to_nat kb) (receiveLength B'))
                  = Z.of_nat (length (walk n1))).
  { rewrite HrlenB, HsplitB, <- Hlen2. apply offset_of_slice. }
  assert (HnthB : nth_error (walk receiveB) (length (walk n1) + k) = Some id).
  { rewrite HsplitB. now apply walk_slice. }
  rewrite HoffA, HoffB.
  split.
  - rewrite HelsA. apply load_Done. split; [lia|].
    rewrite <- Nat2Z.inj_add, Nat2Z.id, nth_error_map. now rewrite HnthA.
  - intros i j row Href.
    assert (Hin : In id (OrdMap.get OrdSet.empty (rank geomA) receiveB))
      by (now apply nth_error_In with (n := k)).
    apply HrecvB in Hin. destruct Hin as (_ & Hown & _).
    destruct (HcellsB i j row id Href) as [(rowL & HrowL & Hv) _].
    { left. destruct Href as (Hi & _). lia. }
    exists rowL. split; [exact HrowL|]. rewrite Hv. f_equal.
    unfold local_index.
    destruct (Z.eqb_spec (rank geomB) (owner id)) as [E|_]; [congruence|].
    rewrite HrowsB'. apply map_get_find.
    rewrite (Hfind (length (walk n1) + k)%nat id HnthB). f_equal. lia.
Qed.

End Exchange.

Lemma fan_distinct_keys :
  distinct_keys (wrap 32)
    (remote_columns (fun _ _ => fan_owner) {| rank := 1; size := 2 |}
       (local_matrix fan_owner 1 fan)).
Proof.
  intros g g' Hg Hg' E. vm_compute in Hg, Hg'.
  destruct Hg as [<-|[<-|[]]]; destruct Hg' as [<-|[<-|[]]];
    try reflexivity; vm_compute in E; discriminate E.
Qed.

Lemma fan_reference_1 : reference (local_matrix fan_owner 1 fan) 0 1 2 1.
Proof.
  unfold reference. split; [simpl; lia|]. split; [reflexivity|].
  exists 3, [0; 1; 2]. repeat split; try reflexivity; lia.
Qed.

(** The two processes of [fan]: the second row that process 0 sends is its
    row 1, and process 1 looks for column 1 at the index 2, the second
    place after its one row. *)
Lemma halo_entries_line_up_fan :
  exists A' B' rowL,
    SetupHalo (wrap 32) (fun _ _ => fan_owner) false {| rank := 0; size := 2 |}
      (local_matrix fan_owner 0 fan) = Done A' /\
    SetupHalo (wrap 32) (fun _ _ => fan_owner) false {| rank := 1; size := 2 |}
      (local_matrix fan_owner 1 fan) = Done B' /\
    load (elementsToSend A') 1 = Done (Some 1) /\
    load (mtxIndL B') 0 = Done rowL /\ load rowL 1 = Done 2.
Proof.
  assert (Hab : rank {| rank := 0; size := 2 |} <> rank {| rank := 1; size := 2 |})
    by (intros E; discriminate E).
  destruct (halo_entries_line_up (wrap 32) fan_owner false
              {| rank := 0; size := 2 |} {| rank := 1; size := 2 |}
              (local_matrix fan_owner 0 fan) (local_matrix fan_owner 1 fan)
              eq_refl eq_refl eq_refl eq_refl Hab
              (fun row g H => proj1 (proj1 (local_matrix_referenced _ _ _ _ _) H))
              (fun row g H => proj1 (proj1 (local_matrix_referenced _ _ _ _ _) H))
              (fun row g => symmetric_parts_mirror fan_owner 0 1 fan row g fan_symmetric)
              fan_distinct_keys)
    as (sendA & ids & A' & B' & (receiveA & Hscan) & Hids & HrunA & HrunB & _ & _ & Hline).
  vm_compute in Hscan. injection Hscan as <- <-.
  assert (HA : neighbors A' = [Some 1] /\ sendLength A' = [Some 2]).
  { vm_compute in HrunA. injection HrunA as <-. split; reflexivity. }
  assert (HB : neighbors B' = [Some 0] /\ receiveLength B' = [Some 2]
               /\ localNumberOfRows B' = 1).
  { vm_compute in HrunB. injection HrunB as <-. repeat split; reflexivity. }
  destruct HA as [HnbA HslenA]. destruct HB as (HnbB & HrlenB & HrowsB).
  destruct (Hline 0 0) as (_ & _ & Hentry).
  { rewrite HnbA. reflexivity. }
  { rewrite HnbB. reflexivity. }
  destruct (Hentry 1%nat 1) as [Hsent Hlooked].
  { rewrite Hids. reflexivity. }
  destruct (Hlooked 0 1 2 fan_reference_1) as (rowL & HrowL & Hv).
  rewrite HslenA in Hsent. rewrite HrlenB, HrowsB in Hv.
  exists A', B', rowL.
  split; [exact HrunA|]. split; [exact HrunB|].
  split; [exact Hsent|]. split; [exact HrowL | exact Hv].
Defined.

(** ** Without symmetry *)

Section OneSided.

Variable to_local_int : global_int_t -> local_int_t.
Variable owner : global_int_t -> Z.

(** Line 87 relies on the symmetry of the matrix.  When a row of the
    process [a] refers to a column of [b] and no row of [b] refers to that
    row, [a] plans to send the row to [b], and [b] does not plan to
    receive it; when [b] refers to no row of [a] at all, [b] is a neighbor
    of [a], and [a] is no neighbor of [b].  Nothing in the function
    notices: it runs to its end on both processes. *)
Theorem one_sided_reference_is_sent_in_vain
  (DEBUG : bool) (geomA geomB : Geometry) (A B : SparseMatrix)
  (row g : global_int_t) :
  well_formed A = true -> well_formed B = true ->
  assertions_pass (fun _ _ => owner) DEBUG geomA A = true ->
  assertions_pass (fun _ _ => owner) DEBUG geomB B = true ->
  rank geomA <> rank geomB ->
  referenced A row g -> owner g = rank geomB ->
  (forall g', ~ referenced B g' row) ->
  exists sendA receiveA sendB receiveB A' B',
    dependency_scan (fun _ _ => owner) geomA A = Done (sendA, receiveA) /\
    dependency_scan (fun _ _ => owner) geomB B = Done (sendB, receiveB) /\
    SetupHalo to_local_int (fun _ _ => owner) DEBUG geomA A = Done A' /\
    SetupHalo to_local_int (fun _ _ => owner) DEBUG geomB B = Done B' /\
    In row (OrdMap.get OrdSet.empty (rank geomB) sendA) /\
    ~ In row (OrdMap.get OrdSet.empty (rank geomA) receiveB) /\
    In (Some (rank geomB)) (neighbors A') /\
    ((forall g' x, referenced B g' x -> owner x <> rank geomA) ->
     ~ In (Some (rank geomA)) (neighbors B')).
Proof.
  intros HwfA HwfB HpassA HpassB Hab Href Hg Hnone.
  destruct (SetupHalo_plan to_local_int (fun _ _ => owner) DEBUG geomA A HwfA HpassA)
    as (sendA & receiveA & A' & extA & HscanA & HscannedA & _ & HrunA & HplanA).
  destruct (SetupHalo_plan to_local_int (fun _ _ => owner) DEBUG geomB B HwfB HpassB)
    as (sendB & receiveB & B' & extB & HscanB & HscannedB & _ & HrunB & HplanB).
  destruct HscannedA as (_ & _ & _ & _ & HretsA & HrecvA & HsendA).
  destruct HscannedB as (_ & _ & _ & _ & HretsB & HrecvB & _).
  destruct HplanA as (_ & _ & _ & _ & _ & _ & _ & _ & _ & _ & HnbA & _).
  destruct HplanB as (_ & _ & _ & _ & _ & _ & _ & _ & _ & _ & HnbB & _).
  assert (Hnb : forall (m : neighbor_sets) (r : Z),
             In (Some r) (map (fun curNeighbor : Z * OrdSet.t => Some (fst curNeighbor)) m)
             <-> In r (OrdMap.keys m)).
  { intros m r. unfold OrdMap.keys. rewrite !in_map_iff. split.
    - intros (e & He & Hin). injection He as <-. now exists e.
    - intros (e & <- & Hin). now exists e. }
  exists sendA, receiveA, sendB, receiveB, A', B'.
  do 4 (split; [assumption|]).
  split; [|split; [|split]].
  - apply HsendA. split; [auto|]. now exists g.
  - intros Hin. apply HrecvB in Hin. destruct Hin as (_ & _ & g' & Hback).
    now apply (Hnone g').
  - rewrite HnbA. apply Hnb. apply (get_not_empty receiveA (rank geomB) HretsA).
    intros Hempty.
    assert (Hin : In g (OrdMap.get OrdSet.empty (rank geomB) receiveA)).
    { apply HrecvA. split; [auto|]. split; [exact Hg|]. now exists row. }
    rewrite Hempty in Hin. contradiction.
  - intros Hnever. rewrite HnbB. intros Hin. apply Hnb in Hin.
    apply (get_not_empty receiveB (rank geomA) HretsB) in Hin.
    destruct (OrdMap.get OrdSet.empty (rank geomA) receiveB) as [|x s] eqn:E;
      [now apply Hin|].
    assert (Hx : In x (x :: s)) by now left.
    rewrite <- E in Hx.
    apply HrecvB in Hx. destruct Hx as (_ & Hown & g' & Hback).
    now apply (Hnever g' x).
Qed.

End OneSided.

Lemma lopsided_reference :
  referenced (local_matrix lopsided_owner 0 lopsided) 0 1.
Proof.
  apply local_matrix_referenced. split; [reflexivity|].
  exists [0; 1]. simpl. auto.
Qed.

Lemma lopsided_not_mirrored (g' x : global_int_t) :
  referenced (local_matrix lopsided_owner 1 lopsided) g' x -> lopsided_owner x <> 0.
Proof.
  intros Href. apply local_matrix_referenced in Href.
  destruct Href as (Hown & ci & Hin & Hx). unfold lopsided_owner in *.
  simpl in Hin. destruct Hin as [E|[E|[]]]; injection E as <- <-.
  - discriminate Hown.
  - simpl in Hx. destruct Hx as [<-|[]]. discriminate.
Qed.

(** The two processes of [lopsided], in the build with [DEBUG]: the
    assertions hold on both, process 0 has process 1 as a neighbor, and
    process 1 has no neighbor. *)
Lemma one_sided_reference_is_sent_in_vain_lopsided :
  exists A' B',
    SetupHalo (wrap 32) (fun _ _ => lopsided_owner) true {| rank := 0; size := 2 |}
      (local_matrix lopsided_owner 0 lopsided) = Done A' /\
    SetupHalo (wrap 32) (fun _ _ => lopsided_owner) true {| rank := 1; size := 2 |}
      (local_matrix lopsided_owner 1 lopsided) = Done B' /\
    In (Some 1) (neighbors A') /\ ~ In (Some 0) (neighbors B').
Proof.
  assert (Hab : rank {| rank := 0; size := 2 |} <> rank {| rank := 1; size := 2 |})
    by (intros E; discriminate E).
  assert (Hnone : forall g', ~ referenced (local_matrix lopsided_owner 1 lopsided) g' 0).
  { intros g' Href. now apply (lopsided_not_mirrored g' 0 Href). }
  destruct (one_sided_reference_is_sent_in_vain (wrap 32) lopsided_owner true
              {| rank := 0; size := 2 |} {| rank := 1; size := 2 |}
              (local_matrix lopsided_owner 0 lopsided)
              (local_matrix lopsided_owner 1 lopsided) 0 1
              eq_refl eq_refl eq_refl eq_refl Hab lopsided_reference eq_refl Hnone)
    as (sendA & receiveA & sendB & receiveB & A' & B' & _ & _ & HrunA & HrunB & _ & _
        & Hnb & Hnot).
  exists A', B'. split; [exact HrunA|]. split; [exact HrunB|].
  split; [exact Hnb|]. apply Hnot. exact lopsided_not_mirrored.
Defined.

(** ** The key of [externalToLocalMap] *)

Lemma wide_symmetric : symmetric wide.
Proof.
  intros i j ci Hin Hj. simpl in Hin.
  destruct Hin as [E|[E|[E|[E|[]]]]]; injection E as <- <-; simpl in Hj;
    repeat (destruct Hj as [<-|Hj]); try contradiction.
  - exists [0; 5]. simpl. auto.
  - exists [0; 5]. simpl. auto.
  - exists [1; 4294967301]. simpl. auto.
  - exists [1; 4294967301]. simpl. auto 6.
  - exists [0; 5]. simpl. auto.
  - exists [0; 5]. simpl. auto.
  - exists [1; 4294967301]. simpl. auto.
  - exists [1; 4294967301]. simpl. auto 6.
Qed.

Lemma wide_partitioned : partitioned 2 wide_owner wide.
Proof.
  split; [|split].
  - simpl. repeat constructor; simpl; intuition lia.
  - intros i ci Hin. simpl in Hin.
    destruct Hin as [E|[E|[E|[E|[]]]]]; injection E as <- <-;
      unfold wide_owner; simpl; lia.
  - intros i ci j Hin Hj. simpl in Hin.
    destruct Hin as [E|[E|[E|[E|[]]]]]; injection E as <- <-; simpl in Hj; simpl; tauto.
Qed.

Lemma wide_ownership_map_correct :
  ownership_map_correct (local_matrix wide_owner 0 wide).
Proof.
  intros i row Hi Hrow. change (0 <= i < 2) in Hi.
  assert (Hcases : i = 0 \/ i = 1) by lia.
  destruct Hcases as [-> | ->]; vm_compute in Hrow; injection Hrow as <-; reflexivity.
Qed.

(** C1, on the code: process 0 of [wide], a symmetric pattern with a correct
    ownership map, when [local_int_t] has 32 bits.  [externalToLocalMap]
    has [local_int_t] keys (line 73) and is indexed with the
    [global_int_t] ids of the receive set (line 129): the remote columns 5
    and 5 + 2^32 have the key 5, and the second assignment replaces the
    first.  Both builds run to their end; the map has the one entry
    [(5, 3)]; [numberOfExternalValues] is 1 with 2 local rows, so the
    indices of the claim are the set [{2}], and the index given is 3, to
    both columns: neither "exactly the set" nor "each value assigned to
    exactly one remote column id" holds. *)
Theorem wide_indices_collide :
  symmetric wide /\ partitioned 2 wide_owner wide /\
  well_formed (local_matrix wide_owner 0 wide) = true /\
  ownership_map_correct (local_matrix wide_owner 0 wide) /\
  exists A' ext,
    SetupHalo_locals (wrap 32) (fun _ _ => wide_owner) false {| rank := 0; size := 2 |}
      (local_matrix wide_owner 0 wide) = Done (A', ext) /\
    SetupHalo_locals (wrap 32) (fun _ _ => wide_owner) true {| rank := 0; size := 2 |}
      (local_matrix wide_owner 0 wide) = Done (A', ext) /\
    localNumberOfRows A' = 2 /\
    numberOfExternalValues A' = 1 /\
    ext = [(5, 3)] /\
    mtxIndG A' = [[0; 5]; [1; 4294967301]] /\
    mtxIndL A' = [[0; 3]; [1; 3]] /\
    ~ (forall v, (exists key, OrdMap.find key ext = Some v) <->
                 localNumberOfRows A' <= v
                 < localNumberOfRows A' + numberOfExternalValues A').
Proof.
  split; [exact wide_symmetric|]. split; [exact wide_partitioned|].
  split; [vm_compute; reflexivity|]. split; [exact wide_ownership_map_correct|].
  eexists. eexists.
  split; [vm_compute; reflexivity|]. split; [vm_compute; reflexivity|].
  cbn [localNumberOfRows numberOfExternalValues mtxIndG mtxIndL].
  do 5 (split; [reflexivity|]).
  intros Hall.
  assert (Hrange : 2 <= 3 < 2 + 1).
  { apply (proj1 (Hall 3)). exists 5. reflexivity. }
  lia.
Qed.

(** C10, on the code: on the same process, the one receive set is
    [{5, 5 + 2^32}], of length 2, and [numberOfExternalValues], the size of
    [externalToLocalMap] (line 155), is 1: the two ids have one
    [local_int_t] key when the type has 32 bits.  The resolver is a
    function, and the receive sets are disjoint. *)
Theorem wide_externals_fewer_than_received :
  well_formed (local_matrix wide_owner 0 wide) = true /\
  exists sendList receiveList A',
    dependency_scan (fun _ _ => wide_owner) {| rank := 0; size := 2 |}
      (local_matrix wide_owner 0 wide) = Done (sendList, receiveList) /\
    receiveList = [(1, [5; 4294967301])] /\
    SetupHalo (wrap 32) (fun _ _ => wide_owner) false {| rank := 0; size := 2 |}
      (local_matrix wide_owner 0 wide) = Done A' /\
    SetupHalo (wrap 32) (fun _ _ => wide_owner) true {| rank := 0; size := 2 |}
      (local_matrix wide_owner 0 wide) = Done A' /\
    receiveLength A' = [Some 2] /\
    sum_cells (receiveLength A') = 2 /\
    numberOfExternalValues A' = 1 /\
    numberOfExternalValues A' <> sum_cells (receiveLength A').
Proof.
  split; [vm_compute; reflexivity|].
  eexists. eexists. eexists.
  split; [vm_compute; reflexivity|]. split; [reflexivity|].
  split; [vm_compute; reflexivity|]. split; [vm_compute; reflexivity|].
  cbn [receiveLength numberOfExternalValues].
  do 3 (split; [reflexivity|]).
  intros E. discriminate E.
Qed.
